(** * claude-mem-secure: content privacy and credential security core

    A shallow embedding of
      - src/utils/tag-stripping.ts          (tag stripping and secret redaction),
      - src/services/crypto/KeyringManager.ts,
      - src/services/auth/TokenAuth.ts,
      - src/services/crypto/DatabaseEncryption.ts,
      - the file permission utility and the retention settings
        (src/shared/SettingsDefaultsManager.ts,
         src/services/retention/RetentionManager.ts),
    together with the part of the JavaScript run time these files rely on
    (strings as sequences of UTF-16 code units, the backtracking regular
    expression matcher of ECMA-262 22.2.2, String.prototype.match / replace /
    trim / split, parseInt, Buffer.from, crypto.timingSafeEqual, and the
    modes of a file system under chmod, mkdir and readdir).

    Calls to [logger] only write to the log sink and never influence a
    returned value; they are left out of the embedding. *)

From Stdlib Require Import List NArith ZArith Bool Arith Lia String Ascii.
Import ListNotations.

Set Implicit Arguments.

(* ------------------------------------------------------------------ *)
(** ** Exceptions *)

Module Exc.

Inductive JsError : Type :=
| TypeError
| RangeError
| SyntaxError
| Error (message : string).

(** A computation that either returns normally or throws. *)
Inductive t (A : Type) : Type :=
| Ok (a : A)
| Throw (e : JsError).

Arguments Ok {A} a.
Arguments Throw {A} e.

Definition bind {A B} (m : t A) (k : A -> t B) : t B :=
  match m with
  | Ok a => k a
  | Throw e => Throw e
  end.

End Exc.

Import Exc.

(* ------------------------------------------------------------------ *)
(** ** JavaScript strings and values *)

Module Js.

(** A string is a sequence of UTF-16 code units. *)
Definition CodeUnit := N.
Definition JsString := list CodeUnit.

Definition cu (a : ascii) : CodeUnit := N_of_ascii a.

(** A string literal of the source (ASCII only). *)
Definition js (s : string) : JsString := map cu (list_ascii_of_string s).

Definition in_range (lo hi c : N) : bool := ((lo <=? c) && (c <=? hi))%N.

(** WhiteSpace and LineTerminator code points (ECMA-262 12.2, 12.3): what
    [String.prototype.trim] strips and what [\s] matches. *)
Definition isLineTerminator (c : CodeUnit) : bool :=
  ((c =? 10) || (c =? 13) || (c =? 8232) || (c =? 8233))%N.

Definition isWhiteSpace (c : CodeUnit) : bool :=
  (in_range 9 13 c || (c =? 32) || (c =? 160) || (c =? 5760)
   || in_range 8192 8202 c || (c =? 8232) || (c =? 8233) || (c =? 8239)
   || (c =? 8287) || (c =? 12288) || (c =? 65279))%N.

Fixpoint trimStart (s : JsString) : JsString :=
  match s with
  | [] => []
  | c :: s' => if isWhiteSpace c then trimStart s' else s
  end.

Definition trimEnd (s : JsString) : JsString := rev (trimStart (rev s)).

(** [s.trim()] *)
Definition trim (s : JsString) : JsString := trimEnd (trimStart s).

(** [s.split(sep)] for a one-character separator: the pieces between the
    occurrences of [sep]; the empty string gives one empty piece. *)
Fixpoint split (sep : CodeUnit) (s : JsString) : list JsString :=
  match s with
  | [] => [[]]
  | c :: s' =>
      if (c =? sep)%N then [] :: split sep s'
      else match split sep s' with
           | [] => [[c]]
           | p :: ps => (c :: p) :: ps
           end
  end.

(** Run-time values, as far as the dynamic checks of the source can tell
    them apart.  Numbers are restricted to the integers and NaN; an object
    is opaque (a plain object, without a [match] method). *)
Inductive Value : Type :=
| Undefined
| Null
| Bool (b : bool)
| Number (n : Z)
| NaN
| Str (s : JsString)
| Object (id : nat).

(** ToBoolean (ECMA-262 7.1.2). *)
Definition truthy (v : Value) : bool :=
  match v with
  | Undefined | Null | NaN => false
  | Bool b => b
  | Number n => negb (n =? 0)%Z
  | Str s => match s with [] => false | _ => true end
  | Object _ => true
  end.

Definition is_string (v : Value) : bool :=
  match v with Str _ => true | _ => false end.

(** [a || b] *)
Definition or_else (a b : Value) : Value := if truthy a then a else b.

End Js.

Import Js.

(* ------------------------------------------------------------------ *)
(** ** Regular expressions (ECMA-262 22.2) *)

Module RegExp.

Inductive ClassAtom : Type :=
| CChar (c : CodeUnit)
| CRange (lo hi : CodeUnit)
| CSpace                      (* \s *)
| CNotSpace                   (* \S *)
| CWord                       (* \w *)
| CDigit.                     (* \d *)

(** The patterns of the source use no back-reference, so what a group
    captures is never observed; [RGroup] keeps only the grouping. *)
Inductive Regex : Type :=
| REmpty
| RChar (c : CodeUnit)
| RDot
| RClass (invert : bool) (atoms : list ClassAtom)
| RSeq (r1 r2 : Regex)
| RAlt (r1 r2 : Regex)
| RQuant (r : Regex) (min : nat) (max : option nat) (greedy : bool)
| RGroup (capturing : bool) (r : Regex)
| RLookahead (negative : bool) (r : Regex)
| RWordBoundary (negated : bool)
| RInputStart
| RInputEnd.

(** Flags; every regular expression of the source has [m], [s], [u] and
    [y] unset. *)
Record Flags : Type := { global : bool; ignoreCase : bool }.

Record t : Type := { source : Regex; flags : Flags }.

Definition flags_g : Flags := {| global := true; ignoreCase := false |}.
Definition flags_gi : Flags := {| global := true; ignoreCase := true |}.
Definition flags_none : Flags := {| global := false; ignoreCase := false |}.

(** [new RegExp(pattern.source, pattern.flags)] *)
Definition clone (R : t) : t := {| source := source R; flags := flags R |}.

(** *** Character tests *)

Definition isDigit (c : CodeUnit) : bool := in_range 48 57 c.
Definition isUpper (c : CodeUnit) : bool := in_range 65 90 c.
Definition isLower (c : CodeUnit) : bool := in_range 97 122 c.

(** IsWordChar: [A-Za-z0-9_]. *)
Definition isWordChar (c : CodeUnit) : bool :=
  isLower c || isUpper c || isDigit c || (c =? 95)%N.

(** Canonicalize (22.2.5.6) without the [u] flag maps a code unit to its
    upper-case form, and never maps a code unit above 127 to one below
    128; on the ASCII range it folds [a-z] onto [A-Z].  Code units above
    127 are left alone, which agrees with the standard on every pattern
    whose atoms are ASCII. *)
Definition canonicalize (ic : bool) (c : CodeUnit) : CodeUnit :=
  if ic && isLower c then (c - 32)%N else c.

(** The other ASCII code unit with the same canonical form, if any. *)
Definition swapCase (c : CodeUnit) : CodeUnit :=
  if isLower c then (c - 32)%N else if isUpper c then (c + 32)%N else c.

Definition atomHas (a : ClassAtom) (c : CodeUnit) : bool :=
  match a with
  | CChar d => (c =? d)%N
  | CRange lo hi => in_range lo hi c
  | CSpace => isWhiteSpace c
  | CNotSpace => negb (isWhiteSpace c)
  | CWord => isWordChar c
  | CDigit => isDigit c
  end.

(** CharacterSetMatcher: is there a member of the set with the canonical
    form of [c]? *)
Definition classHas (ic : bool) (atoms : list ClassAtom) (c : CodeUnit) : bool :=
  existsb (fun a => atomHas a c) atoms
  || (ic && existsb (fun a => atomHas a (swapCase c)) atoms).

(** *** The matcher *)

(** A position in the input: the code unit before it (none at index 0),
    what follows, and its index. *)
Record MatchState : Type :=
  { prevChar : option CodeUnit; rest : JsString; endIndex : nat }.

Definition MatchResult := option MatchState.
Definition Continuation := MatchState -> MatchResult.
Definition Matcher := MatchState -> Continuation -> MatchResult.

Definition stepChar (ok : CodeUnit -> bool) : Matcher :=
  fun x c =>
    match rest x with
    | [] => None
    | ch :: s' =>
        if ok ch
        then c {| prevChar := Some ch; rest := s'; endIndex := S (endIndex x) |}
        else None
    end.

Definition wordBefore (x : MatchState) : bool :=
  match prevChar x with Some a => isWordChar a | None => false end.

Definition wordAfter (x : MatchState) : bool :=
  match rest x with a :: _ => isWordChar a | [] => false end.

(** RepeatMatcher (22.2.2.3.1).  An iteration that consumes nothing once
    [min] is reached is rejected, so [min + length (rest x)] bounds the
    number of iterations; [fuel] is that bound plus one. *)
Fixpoint RepeatMatcher (fuel : nat) (m : Matcher) (min : nat)
    (max : option nat) (greedy : bool) (x : MatchState) (c : Continuation)
    : MatchResult :=
  match fuel with
  | O => None
  | S fuel' =>
      match max with
      | Some O => c x
      | _ =>
          let d : Continuation := fun y =>
            if (min =? 0) && (endIndex y =? endIndex x) then None
            else RepeatMatcher fuel' m (pred min) (option_map pred max)
                   greedy y c in
          if negb (min =? 0) then m x d
          else if negb greedy then
            match c x with
            | Some z => Some z
            | None => m x d
            end
          else
            match m x d with
            | Some z => Some z
            | None => c x
            end
      end
  end.

(** CompileSubpattern, forward direction. *)
Fixpoint compile (ic : bool) (r : Regex) : Matcher :=
  match r with
  | REmpty => fun x c => c x
  | RChar ch =>
      stepChar (fun a => (canonicalize ic a =? canonicalize ic ch)%N)
  | RDot => stepChar (fun a => negb (isLineTerminator a))
  | RClass invert atoms =>
      stepChar (fun a => xorb invert (classHas ic atoms a))
  | RSeq r1 r2 =>
      fun x c => compile ic r1 x (fun y => compile ic r2 y c)
  | RAlt r1 r2 =>
      fun x c =>
        match compile ic r1 x c with
        | Some z => Some z
        | None => compile ic r2 x c
        end
  | RQuant r1 min max greedy =>
      fun x c =>
        RepeatMatcher (S (min + List.length (rest x))) (compile ic r1)
          min max greedy x c
  | RGroup _ r1 => compile ic r1
  | RLookahead negative r1 =>
      fun x c =>
        match compile ic r1 x (fun y => Some y) with
        | Some _ => if negative then None else c x
        | None => if negative then c x else None
        end
  | RWordBoundary negated =>
      fun x c =>
        if xorb negated (xorb (wordBefore x) (wordAfter x)) then c x else None
  | RInputStart =>
      fun x c => match prevChar x with None => c x | Some _ => None end
  | RInputEnd =>
      fun x c => match rest x with [] => c x | _ :: _ => None end
  end.

(** One attempt of RegExpBuiltinExec at a given index: the length of the
    match that starts there. *)
Definition matchHere (R : t) (prev : option CodeUnit) (i : nat)
    (s : JsString) : option nat :=
  match compile (ignoreCase (flags R)) (source R)
          {| prevChar := prev; rest := s; endIndex := i |}
          (fun y => Some y) with
  | Some y => Some (endIndex y - i)
  | None => None
  end.

(** The input cut up by the successive matches of a global regular
    expression: [lastIndex] moves to the end of each match, one further
    after an empty match, and one further after a failed attempt.  [skip]
    counts the code units still inside the match found last. *)
Inductive Piece : Type :=
| Kept (c : CodeUnit)
| Matched (index : nat) (text : JsString).

Fixpoint scan (R : t) (skip i : nat) (prev : option CodeUnit)
    (s : JsString) : list Piece :=
  match skip with
  | S k =>
      match s with
      | [] => []
      | ch :: s' => scan R k (S i) (Some ch) s'
      end
  | O =>
      match matchHere R prev i s with
      | None =>
          match s with
          | [] => []
          | ch :: s' => Kept ch :: scan R 0 (S i) (Some ch) s'
          end
      | Some O =>
          Matched i [] ::
          match s with
          | [] => []
          | ch :: s' => Kept ch :: scan R 0 (S i) (Some ch) s'
          end
      | Some (S k) =>
          Matched i (firstn (S k) s) ::
          match s with
          | [] => []
          | ch :: s' => scan R k (S i) (Some ch) s'
          end
      end
  end.

Definition pieces (R : t) (s : JsString) : list Piece := scan R 0 0 None s.

Fixpoint matchedTexts (ps : list Piece) : list JsString :=
  match ps with
  | [] => []
  | Kept _ :: ps' => matchedTexts ps'
  | Matched _ m :: ps' => m :: matchedTexts ps'
  end.

(** The matches as half-open intervals of indices. *)
Fixpoint matchedSpans (ps : list Piece) : list (nat * nat) :=
  match ps with
  | [] => []
  | Kept _ :: ps' => matchedSpans ps'
  | Matched i m :: ps' => (i, i + List.length m) :: matchedSpans ps'
  end.

Fixpoint rebuild (replacement : JsString) (ps : list Piece) : JsString :=
  match ps with
  | [] => []
  | Kept c :: ps' => c :: rebuild replacement ps'
  | Matched _ _ :: ps' => replacement ++ rebuild replacement ps'
  end.

(** [s.match(R)] for a global [R]: the matched substrings, or [null]. *)
Definition String_match (s : JsString) (R : t) : option (list JsString) :=
  match matchedTexts (pieces R s) with
  | [] => None
  | ms => Some ms
  end.

(** [s.replace(R, replacement)] for a global [R] and a replacement string
    without [$]. *)
Definition String_replace (s : JsString) (R : t) (replacement : JsString)
    : JsString :=
  rebuild replacement (pieces R s).

(** [R.test(s)] for a regular expression without [g] and [y]: is there a
    match starting at some index? *)
Fixpoint searchFrom (R : t) (i : nat) (prev : option CodeUnit)
    (s : JsString) : bool :=
  match matchHere R prev i s with
  | Some _ => true
  | None =>
      match s with
      | [] => false
      | ch :: s' => searchFrom R (S i) (Some ch) s'
      end
  end.

Definition test (R : t) (s : JsString) : bool := searchFrom R 0 None s.

(** *** Pattern syntax helpers *)

Fixpoint seqs (rs : list Regex) : Regex :=
  match rs with
  | [] => REmpty
  | [r] => r
  | r :: rs' => RSeq r (seqs rs')
  end.

(** A run of literal characters. *)
Definition lit (s : string) : Regex := seqs (map RChar (js s)).

Definition star (r : Regex) : Regex := RQuant r 0 None true.
Definition plus (r : Regex) : Regex := RQuant r 1 None true.
Definition opt (r : Regex) : Regex := RQuant r 0 (Some 1) true.
Definition lazyStar (r : Regex) : Regex := RQuant r 0 None false.
Definition atLeast (n : nat) (r : Regex) : Regex := RQuant r n None true.
Definition exactly (n : nat) (r : Regex) : Regex := RQuant r n (Some n) true.

Definition wordB : Regex := RWordBoundary false.
Definition space : Regex := RClass false [CSpace].
(** [[\s\S]] *)
Definition anyChar : Regex := RClass false [CSpace; CNotSpace].

End RegExp.

(* ------------------------------------------------------------------ *)
(** ** src/utils/tag-stripping.ts *)

Module TagStripping.

Import RegExp.

Definition MAX_TAG_COUNT : nat := 100.
Definition MAX_PATTERN_LENGTH : nat := 200.
Definition MAX_CUSTOM_PATTERNS : nat := 50.

(** The replacement text ['[REDACTED]']. *)
Definition REDACTED : JsString := js "[REDACTED]".

Definition squote : CodeUnit := 39%N.
Definition dquote : CodeUnit := 34%N.

(** [[a-zA-Z0-9]] *)
Definition alnum : Regex :=
  RClass false [CRange (cu "a") (cu "z"); CRange (cu "A") (cu "Z");
                CRange (cu "0") (cu "9")].

(** [[a-zA-Z0-9\-._~+\/]] *)
Definition tokenChar : Regex :=
  RClass false [CRange (cu "a") (cu "z"); CRange (cu "A") (cu "Z");
                CRange (cu "0") (cu "9"); CChar (cu "-"); CChar (cu ".");
                CChar (cu "_"); CChar (cu "~"); CChar (cu "+");
                CChar (cu "/")].

(** An optional single or double quote. *)
Definition optQuote : Regex := opt (RClass false [CChar squote; CChar dquote]).

(** [[=:]] *)
Definition assignOp : Regex := RClass false [CChar (cu "="); CChar (cu ":")].

(** [-----BEGIN\s+(?:RSA\s+)?PRIVATE\s+KEY-----] and its END twin. *)
Definition pemMarker (word : string) : Regex :=
  seqs [lit "-----"; lit word; plus space;
        opt (RGroup false (RSeq (lit "RSA") (plus space)));
        lit "PRIVATE"; plus space; lit "KEY-----"].

Definition DEFAULT_REDACTION_PATTERNS : list RegExp.t :=
  [ (* /\bsk-[a-zA-Z0-9]{20,}/g *)
    {| source := seqs [wordB; lit "sk-"; atLeast 20 alnum];
       flags := flags_g |};
    (* /\bapi_[a-zA-Z0-9]{20,}/g *)
    {| source := seqs [wordB; lit "api_"; atLeast 20 alnum];
       flags := flags_g |};
    (* /\bkey_[a-zA-Z0-9]{20,}/g *)
    {| source := seqs [wordB; lit "key_"; atLeast 20 alnum];
       flags := flags_g |};
    (* /\bBearer\s+[a-zA-Z0-9\-._~+\/]+=*/gi *)
    {| source := seqs [wordB; lit "Bearer"; plus space; plus tokenChar;
                       star (RChar (cu "="))];
       flags := flags_gi |};
    (* /\bAKIA[0-9A-Z]{16}\b/g *)
    {| source := seqs [wordB; lit "AKIA";
                       exactly 16 (RClass false [CRange (cu "0") (cu "9");
                                                 CRange (cu "A") (cu "Z")]);
                       wordB];
       flags := flags_g |};
    (* /\b[A-Za-z0-9/+=]{40}\b(?=.*aws)/gi *)
    {| source := seqs [wordB;
                       exactly 40 (RClass false [CRange (cu "A") (cu "Z");
                                                 CRange (cu "a") (cu "z");
                                                 CRange (cu "0") (cu "9");
                                                 CChar (cu "/"); CChar (cu "+");
                                                 CChar (cu "=")]);
                       wordB;
                       RLookahead false (RSeq (star RDot) (lit "aws"))];
       flags := flags_gi |};
    (* /-----BEGIN\s+(?:RSA\s+)?PRIVATE\s+KEY-----[\s\S]*?-----END\s+(?:RSA\s+)?PRIVATE\s+KEY-----/g *)
    {| source := seqs [pemMarker "BEGIN"; lazyStar anyChar; pemMarker "END"];
       flags := flags_g |};
    (* /(?:password|passwd|pwd)\s*[=:]\s*[q]?([^\s q]+)[q]?/gi, where q
       stands for the single and the double quote *)
    {| source := seqs [RGroup false
                         (RAlt (lit "password") (RAlt (lit "passwd") (lit "pwd")));
                       star space; assignOp; star space; optQuote;
                       RGroup true
                         (plus (RClass true [CSpace; CChar squote; CChar dquote]));
                       optQuote];
       flags := flags_gi |};
    (* /\beyJ[a-zA-Z0-9\-._~+\/]+=*\.eyJ[a-zA-Z0-9\-._~+\/]+=*\.[a-zA-Z0-9\-._~+\/]+=*/g *)
    {| source := seqs [wordB; lit "eyJ"; plus tokenChar; star (RChar (cu "="));
                       lit ".eyJ"; plus tokenChar; star (RChar (cu "="));
                       lit "."; plus tokenChar; star (RChar (cu "="))];
       flags := flags_g |};
    (* /\bgh[pousr]_[a-zA-Z0-9]{36,}\b/g *)
    {| source := seqs [wordB; lit "gh";
                       RClass false [CChar (cu "p"); CChar (cu "o");
                                     CChar (cu "u"); CChar (cu "s");
                                     CChar (cu "r")];
                       lit "_"; atLeast 36 alnum; wordB];
       flags := flags_g |};
    (* /\b(?:token|secret|auth)[q]?\s*[=:]\s*[q]?([a-zA-Z0-9\-._~+\/]{20,})[q]?/gi,
       q as above *)
    {| source := seqs [wordB;
                       RGroup false
                         (RAlt (lit "token") (RAlt (lit "secret") (lit "auth")));
                       optQuote; star space; assignOp; star space; optQuote;
                       RGroup true (atLeast 20 tokenChar);
                       optQuote];
       flags := flags_gi |} ].

(** [/<private>/g], [/<claude-mem-context>/g], [/<secret>/g] *)
Definition openTag (opening : string) : RegExp.t :=
  {| source := lit opening; flags := flags_g |}.

(** [/<private>[\s\S]*?<\/private>/g] and its like; for [secret] the
    body is a capture group, which the replacement does not use. *)
Definition tagSpan (opening closing : string) (capturing : bool) : RegExp.t :=
  {| source := seqs [lit opening;
                     if capturing then RGroup true (lazyStar anyChar)
                     else lazyStar anyChar;
                     lit closing];
     flags := flags_g |}.

Definition CONTEXT_SPAN : RegExp.t :=
  tagSpan "<claude-mem-context>" "</claude-mem-context>" false.
Definition PRIVATE_SPAN : RegExp.t := tagSpan "<private>" "</private>" false.
Definition SECRET_SPAN : RegExp.t := tagSpan "<secret>" "</secret>" true.

(** [(v.match(R) || []).length] *)
Definition matchCount (s : JsString) (R : RegExp.t) : nat :=
  match String_match s R with
  | Some ms => List.length ms
  | None => 0
  end.

(** Reading [content.match] throws a TypeError on [null] and
    [undefined]; on any other value that is not a string the property is
    undefined and calling it throws a TypeError as well. *)
Definition countTags (content : Value) : Exc.t nat :=
  match content with
  | Str s =>
      let privateCount := matchCount s (openTag "<private>") in
      let contextCount := matchCount s (openTag "<claude-mem-context>") in
      let secretCount := matchCount s (openTag "<secret>") in
      Ok (privateCount + contextCount + secretCount)
  | _ => Throw TypeError
  end.

(** What the module takes from its surroundings: the regular expression
    parser of the engine, [new RegExp(pattern, 'g')], which throws a
    SyntaxError on a pattern it rejects, and the value of
    [SettingsDefaultsManager.loadFromFile(settingsPath).CLAUDE_MEM_REDACT_PATTERNS]
    at the time of the call. *)
Record Host : Type :=
  { RegExp_new : JsString -> Flags -> Exc.t RegExp.t;
    load_REDACT_PATTERNS : Exc.t Value }.

Section WithHost.

Variable host : Host.

(** One turn of the loop of [compileUserPatterns]. *)
Definition compileStep (compiled : list RegExp.t) (pattern : JsString)
    : list RegExp.t :=
  if negb (truthy (Str pattern)) || negb (truthy (Str (trim pattern)))
  then compiled
  else if MAX_PATTERN_LENGTH <? List.length pattern
  then compiled
  else
    match RegExp_new host pattern flags_g with
    | Ok R => compiled ++ [R]
    | Throw _ => compiled
    end.

Definition compileUserPatterns (patterns : list JsString) : list RegExp.t :=
  fold_left compileStep (firstn MAX_CUSTOM_PATTERNS patterns) [].

Definition getRedactionPatterns : list RegExp.t :=
  let patterns := DEFAULT_REDACTION_PATTERNS in
  match load_REDACT_PATTERNS host with
  | Ok (Str customPatterns) =>
      if truthy (Str customPatterns)
         && truthy (Str (trim customPatterns))
      then
        let userPatterns :=
          filter (fun p => 0 <? List.length p)
                 (map trim (split (cu ",") customPatterns)) in
        patterns ++ compileUserPatterns userPatterns
      else patterns
  | Ok _ => patterns
  | Throw _ => patterns
  end.

(** One turn of the loop of [redactSecrets] on the pair
    [(redacted, count)]. *)
Definition redactStep (acc : JsString * nat) (pattern : RegExp.t)
    : JsString * nat :=
  let '(redacted, count) := acc in
  let regex := clone pattern in
  match String_match redacted regex with
  | Some matches =>
      (String_replace redacted regex REDACTED, count + List.length matches)
  | None => (redacted, count)
  end.

Definition redactLoop (patterns : list RegExp.t) (content : JsString)
    : JsString * nat :=
  fold_left redactStep patterns (content, 0).

Record Redaction : Type := { redacted : Value; count : nat }.

Definition redactSecrets (content : Value) : Exc.t Redaction :=
  if negb (truthy content) || negb (is_string content)
  then Ok {| redacted := or_else content (Str []); count := 0 |}
  else
    match content with
    | Str s =>
        let '(r, n) := redactLoop getRedactionPatterns s in
        Ok {| redacted := Str r; count := n |}
    | _ => Throw TypeError      (* not reached: [content] is a string here *)
    end.

(** [tagCount > MAX_TAG_COUNT] only logs a warning; processing goes on. *)
Definition stripTagsInternal (content : Value) : Exc.t JsString :=
  Exc.bind (countTags content) (fun tagCount =>
  match content with
  | Str result =>
      let result := String_replace result CONTEXT_SPAN [] in
      let result := String_replace result PRIVATE_SPAN [] in
      let result := String_replace result SECRET_SPAN REDACTED in
      Exc.bind (redactSecrets (Str result)) (fun r =>
      match redacted r with
      | Str result => Ok (trim result)
      | _ => Throw TypeError
      end)
  | _ => Throw TypeError
  end).

Definition stripMemoryTagsFromJson (content : Value) : Exc.t JsString :=
  stripTagsInternal content.

Definition stripMemoryTagsFromPrompt (content : Value) : Exc.t JsString :=
  stripTagsInternal content.

End WithHost.

(** A host without custom patterns: the setting holds its default, the
    empty string, and the parser is never reached. *)
Definition defaultHost : Host :=
  {| RegExp_new := fun _ _ => Throw SyntaxError;
     load_REDACT_PATTERNS := Ok (Str []) |}.

End TagStripping.

(* ------------------------------------------------------------------ *)
(** ** Node.js: Buffer and crypto *)

Module Node.

Definition Buffer := list N.

Definition isHighSurrogate (c : CodeUnit) : bool := in_range 55296 56319 c.
Definition isLowSurrogate (c : CodeUnit) : bool := in_range 56320 57343 c.

(** U+FFFD in UTF-8, written for an unpaired surrogate. *)
Definition replacementBytes : Buffer := [239; 191; 189]%N.

Definition utf8_2 (c : N) : Buffer := [192 + c / 64; 128 + c mod 64]%N.
Definition utf8_3 (c : N) : Buffer :=
  [224 + c / 4096; 128 + (c / 64) mod 64; 128 + c mod 64]%N.
Definition utf8_4 (c : N) : Buffer :=
  [240 + c / 262144; 128 + (c / 4096) mod 64; 128 + (c / 64) mod 64;
   128 + c mod 64]%N.

(** [Buffer.from(s)]: the UTF-8 encoding of a string. *)
Fixpoint Buffer_from (s : JsString) : Buffer :=
  match s with
  | [] => []
  | c :: s' =>
      if (c <? 128)%N then c :: Buffer_from s'
      else if (c <? 2048)%N then utf8_2 c ++ Buffer_from s'
      else if isHighSurrogate c then
        match s' with
        | d :: s'' =>
            if isLowSurrogate d
            then utf8_4 (65536 + (c - 55296) * 1024 + (d - 56320))%N
                   ++ Buffer_from s''
            else replacementBytes ++ Buffer_from s'
        | [] => replacementBytes
        end
      else if isLowSurrogate c then replacementBytes ++ Buffer_from s'
      else utf8_3 c ++ Buffer_from s'
  end.

Fixpoint bytesEqual (a b : Buffer) : bool :=
  match a, b with
  | [], [] => true
  | x :: a', y :: b' => (x =? y)%N && bytesEqual a' b'
  | _, _ => false
  end.

(** [crypto.timingSafeEqual(a, b)] throws a RangeError when the byte
    lengths differ. *)
Definition timingSafeEqual (a b : Buffer) : Exc.t bool :=
  if List.length a =? List.length b then Ok (bytesEqual a b)
  else Throw RangeError.

Definition hexDigit (d : N) : CodeUnit :=
  if (d <? 10)%N then (48 + d)%N else (87 + d)%N.

(** [buffer.toString('hex')] *)
Definition toHex (b : Buffer) : JsString :=
  flat_map (fun x => [hexDigit (x / 16); hexDigit (x mod 16)]%N) b.

End Node.

Import Node.

(* ------------------------------------------------------------------ *)
(** ** src/services/crypto/KeyringManager.ts *)

Module Keyring.

Inductive SecretKey : Type :=
| GEMINI_API_KEY
| OPENROUTER_API_KEY
| DB_ENCRYPTION_KEY
| AUTH_TOKEN.

Definition SecretKey_eqb (a b : SecretKey) : bool :=
  match a, b with
  | GEMINI_API_KEY, GEMINI_API_KEY
  | OPENROUTER_API_KEY, OPENROUTER_API_KEY
  | DB_ENCRYPTION_KEY, DB_ENCRYPTION_KEY
  | AUTH_TOKEN, AUTH_TOKEN => true
  | _, _ => false
  end.

(** The process and what it can reach.

    Outside the process: whether [import('keytar')] succeeds, whether the
    calls of keytar reject (a locked or broken keychain), the entries of
    the OS keyring under the service name ['claude-mem'], the environment
    variables, and the bytes the system's random generator will deliver.

    Inside: the three fields of the [keyringManager] singleton. *)
Record State : Type :=
  { keytar_installed : bool;
    keychain_rejects : bool;
    keychain : SecretKey -> option JsString;
    environ : SecretKey -> option JsString;
    entropy : nat -> N;
    drawn : nat;
    keytar : bool;
    keytarAvailable : bool;
    initialized : bool }.

(** Stateful computations that may throw; the state survives a throw. *)
Definition M (A : Type) : Type := State -> Exc.t A * State.

Definition ret {A} (a : A) : M A := fun st => (Ok a, st).
Definition throw {A} (e : JsError) : M A := fun st => (Throw e, st).

Definition bind {A B} (m : M A) (k : A -> M B) : M B :=
  fun st =>
    match m st with
    | (Ok a, st') => k a st'
    | (Throw e, st') => (Throw e, st')
    end.

Definition try_catch {A} (m : M A) (h : JsError -> M A) : M A :=
  fun st =>
    match m st with
    | (Ok a, st') => (Ok a, st')
    | (Throw e, st') => h e st'
    end.

Declare Scope js_scope.
Delimit Scope js_scope with js.
Notation "x <- m ;; k" := (bind m (fun x => k))
  (at level 61, m at next level, right associativity) : js_scope.
Notation "m ;; k" := (bind m (fun _ => k))
  (at level 61, right associativity) : js_scope.
Open Scope js_scope.

Definition set_manager (kt av ini : bool) : M unit :=
  fun st =>
    (Ok tt,
     {| keytar_installed := keytar_installed st;
        keychain_rejects := keychain_rejects st;
        keychain := keychain st;
        environ := environ st;
        entropy := entropy st;
        drawn := drawn st;
        keytar := kt;
        keytarAvailable := av;
        initialized := ini |}).

Definition set_keychain (kc : SecretKey -> option JsString) : M unit :=
  fun st =>
    (Ok tt,
     {| keytar_installed := keytar_installed st;
        keychain_rejects := keychain_rejects st;
        keychain := kc;
        environ := environ st;
        entropy := entropy st;
        drawn := drawn st;
        keytar := keytar st;
        keytarAvailable := keytarAvailable st;
        initialized := initialized st |}).

Definition set_drawn (n : nat) : M unit :=
  fun st =>
    (Ok tt,
     {| keytar_installed := keytar_installed st;
        keychain_rejects := keychain_rejects st;
        keychain := keychain st;
        environ := environ st;
        entropy := entropy st;
        drawn := n;
        keytar := keytar st;
        keytarAvailable := keytarAvailable st;
        initialized := initialized st |}).

Definition get {A} (f : State -> A) : M A := fun st => (Ok (f st), st).

(** [await import('keytar')] *)
Definition import_keytar : M unit :=
  installed <- get keytar_installed ;;
  if installed then ret tt else throw (Error "Cannot find module").

(** [keytar.getPassword(SERVICE_NAME, key)] *)
Definition keytar_getPassword (key : SecretKey) : M (option JsString) :=
  rejects <- get keychain_rejects ;;
  if rejects then throw (Error "keytar") else
  kc <- get keychain ;;
  ret (kc key).

(** [keytar.setPassword(SERVICE_NAME, key, value)] *)
Definition keytar_setPassword (key : SecretKey) (value : JsString) : M unit :=
  rejects <- get keychain_rejects ;;
  if rejects then throw (Error "keytar") else
  kc <- get keychain ;;
  set_keychain (fun k => if SecretKey_eqb k key then Some value else kc k).

(** [keytar.deletePassword(SERVICE_NAME, key)]: was there an entry? *)
Definition keytar_deletePassword (key : SecretKey) : M bool :=
  rejects <- get keychain_rejects ;;
  if rejects then throw (Error "keytar") else
  kc <- get keychain ;;
  match kc key with
  | Some _ =>
      set_keychain (fun k => if SecretKey_eqb k key then None else kc k) ;;
      ret true
  | None => ret false
  end.

(** [crypto.randomBytes(n)] *)
Definition randomBytes (n : nat) : M Buffer :=
  src <- get entropy ;;
  d <- get drawn ;;
  set_drawn (d + n) ;;
  ret (map (fun i => (src (d + i)%nat mod 256)%N) (seq 0 n)).

(** [!!s] for a value that is a string or [null]. *)
Definition present (s : option JsString) : bool :=
  match s with
  | Some v => truthy (Str v)
  | None => false
  end.

(** [if (s) { yes } else { no }], where [s] is a string in [yes]. *)
Definition if_present {A} (s : option JsString) (yes : JsString -> A) (no : A)
    : A :=
  match s with
  | Some v => if truthy (Str v) then yes v else no
  | None => no
  end.

Definition initialize : M unit :=
  ini <- get initialized ;;
  if ini then ret tt else
  kt <- get keytar ;;
  av <- get keytarAvailable ;;
  set_manager kt av true ;;
  try_catch
    (import_keytar ;;
     set_manager true true true)
    (fun _ =>
       kt <- get keytar ;;
       set_manager kt false true).

(** A first call gives up control at [await import('keytar')], with
    [initialized] already set, and other calls may run before the import
    has settled.  What [initialize] has done when it is suspended there,
    and what it does once the import has settled: *)
Definition initialize_until_import : M unit :=
  kt <- get keytar ;;
  av <- get keytarAvailable ;;
  set_manager kt av true.

Definition initialize_from_import : M unit :=
  try_catch
    (import_keytar ;;
     set_manager true true true)
    (fun _ =>
       kt <- get keytar ;;
       set_manager kt false true).

Definition setSecret (key : SecretKey) (value : JsString) : M bool :=
  initialize ;;
  if negb (truthy (Str value)) then ret false else
  try_catch
    (av <- get keytarAvailable ;;
     kt <- get keytar ;;
     if av && kt then
       keytar_setPassword key value ;;
       ret true
     else ret false)
    (fun _ => ret false).

Definition getSecret (key : SecretKey) : M (option JsString) :=
  initialize ;;
  try_catch
    (av <- get keytarAvailable ;;
     kt <- get keytar ;;
     value <- (if av && kt then keytar_getPassword key else ret None) ;;
     if present value then ret value else
     env <- get environ ;;
     let envValue := env key in
     if present envValue then ret envValue else
     ret None)
    (fun _ => ret None).

Definition deleteSecret (key : SecretKey) : M bool :=
  initialize ;;
  try_catch
    (av <- get keytarAvailable ;;
     kt <- get keytar ;;
     if av && kt then keytar_deletePassword key
     else ret false)
    (fun _ => ret false).

Definition hasSecret (key : SecretKey) : M bool :=
  initialize ;;
  try_catch
    (av <- get keytarAvailable ;;
     kt <- get keytar ;;
     value <- (if av && kt then keytar_getPassword key else ret None) ;;
     if present value then ret true else
     env <- get environ ;;
     if present (env key) then ret true else
     ret false)
    (fun _ => ret false).

Definition isKeytarAvailable : M bool :=
  initialize ;;
  get keytarAvailable.

Definition allKeys : list SecretKey :=
  [GEMINI_API_KEY; OPENROUTER_API_KEY; DB_ENCRYPTION_KEY; AUTH_TOKEN].

(** The loop of [listSecrets] over the keys still to visit. *)
Fixpoint listLoop (keys availableSecrets : list SecretKey)
    : M (list SecretKey) :=
  match keys with
  | [] => ret availableSecrets
  | key :: keys' =>
      has <- hasSecret key ;;
      listLoop keys' (if has then availableSecrets ++ [key]
                      else availableSecrets)
  end.

Definition listSecrets : M (list SecretKey) :=
  initialize ;;
  listLoop allKeys [].

End Keyring.

(* ------------------------------------------------------------------ *)
(** ** src/services/auth/TokenAuth.ts *)

Module TokenAuth.

Import Keyring.
Open Scope js_scope.

Definition TOKEN_BYTES : nat := 32.

Definition generateToken : M JsString :=
  buffer <- randomBytes TOKEN_BYTES ;;
  ret (toHex buffer).

Definition getOrCreateToken : M JsString :=
  existingToken <- getSecret AUTH_TOKEN ;;
  if_present existingToken
    (fun existingToken => ret existingToken)
    (newToken <- generateToken ;;
     setSecret AUTH_TOKEN newToken ;;
     ret newToken).

(** [crypto.timingSafeEqual] is called on the UTF-8 encodings of the
    two tokens, outside any [try]. *)
Definition validateToken (token : JsString) : M bool :=
  if negb (truthy (Str token)) then ret false else
  storedToken <- getSecret AUTH_TOKEN ;;
  if_present storedToken
    (fun storedToken =>
       match timingSafeEqual (Buffer_from token) (Buffer_from storedToken) with
       | Ok isValid => ret isValid
       | Throw e => throw e
       end)
    (ret false).

Definition regenerateToken : M JsString :=
  newToken <- generateToken ;;
  setSecret AUTH_TOKEN newToken ;;
  ret newToken.

Definition ellipsis : JsString := js "...".

Definition getTokenForDisplay : M (option JsString) :=
  token <- getSecret AUTH_TOKEN ;;
  if_present token
    (fun token =>
       if List.length token <=? 8 then ret (Some token)
       else ret (Some (firstn 8 token ++ ellipsis)))
    (ret None).

End TokenAuth.

(* ------------------------------------------------------------------ *)
(** ** src/services/crypto/DatabaseEncryption.ts *)

Module DatabaseEncryption.

Import Keyring RegExp.
Open Scope js_scope.

Definition DB_KEY_LENGTH : nat := 32.
Definition ENCRYPTION_KEY_NAME : SecretKey := DB_ENCRYPTION_KEY.

Definition generateEncryptionKey : M JsString :=
  keyBuffer <- randomBytes DB_KEY_LENGTH ;;
  ret (toHex keyBuffer).

Definition unavailable : JsError := Error "Database encryption key unavailable".
Definition cannot_rotate : JsError :=
  Error "No existing encryption key found - cannot rotate".

Definition getOrCreateEncryptionKey : M JsString :=
  try_catch
    (existingKey <- getSecret ENCRYPTION_KEY_NAME ;;
     if_present existingKey
       (fun existingKey => ret existingKey)
       (newKey <- generateEncryptionKey ;;
        stored <- setSecret ENCRYPTION_KEY_NAME newKey ;;
        if negb stored then ret newKey else ret newKey))
    (fun _ => throw unavailable).

Record Rotation : Type := { oldKey : JsString; newKey : JsString }.

Definition rotateEncryptionKey : M Rotation :=
  try_catch
    (old <- getSecret ENCRYPTION_KEY_NAME ;;
     if_present old
       (fun old =>
          new <- generateEncryptionKey ;;
          ret {| oldKey := old; newKey := new |})
       (throw cannot_rotate))
    (fun error => throw error).

Definition confirmKeyRotation (newKey : JsString) : M bool :=
  try_catch
    (stored <- setSecret ENCRYPTION_KEY_NAME newKey ;;
     ret stored)
    (fun _ => ret false).

Definition deleteEncryptionKey : M bool :=
  try_catch
    (deleted <- deleteSecret ENCRYPTION_KEY_NAME ;;
     ret deleted)
    (fun _ => ret false).

Definition hasEncryptionKey : M bool :=
  try_catch (hasSecret ENCRYPTION_KEY_NAME) (fun _ => ret false).

(** [/^[0-9a-fA-F]+$/] *)
Definition HEX_STRING : RegExp.t :=
  {| source := seqs [RInputStart;
                     plus (RClass false [CRange (cu "0") (cu "9");
                                         CRange (cu "a") (cu "f");
                                         CRange (cu "A") (cu "F")]);
                     RInputEnd];
     flags := flags_none |}.

Definition validateKey (key : JsString) : bool :=
  let expectedLength := DB_KEY_LENGTH * 2 in
  if negb (List.length key =? expectedLength) then false
  else if negb (RegExp.test HEX_STRING key) then false
  else true.

End DatabaseEncryption.

(* ------------------------------------------------------------------ *)
(** ** File permission hardening

    The utility that follows the settings manager in
    src/shared/SettingsDefaultsManager.ts. *)

Module FilePermissions.

(** *** The file system, as far as the utility looks at it

    A path is an absolute path, given by its components below the root;
    [join] appends one component.  Every entry has an [st_mode], made of
    its type bits and its permission bits.  There are no symbolic links.
    [chmod] and [mkdir] fail on the paths that [denied] holds of, and
    [readdir] fails on those that [unreadable] holds of. *)

Local Open Scope N_scope.

Definition Path := list JsString.

Fixpoint JsString_eqb (a b : JsString) : bool :=
  match a, b with
  | [], [] => true
  | x :: a', y :: b' => (x =? y)%N && JsString_eqb a' b'
  | _, _ => false
  end.

Fixpoint Path_eqb (p q : Path) : bool :=
  match p, q with
  | [], [] => true
  | x :: p', y :: q' => JsString_eqb x y && Path_eqb p' q'
  | _, _ => false
  end.

Definition join (dir : Path) (name : JsString) : Path := dir ++ [name].

(** An octal literal of the source, digit by digit: [0o600] is
    [octal [6; 0; 0]]. *)
Definition octal (digits : list N) : N :=
  fold_left (fun acc d => (8 * acc + d)%N) digits 0%N.

Definition S_IFMT : N := octal [1; 7; 0; 0; 0; 0].
Definition S_IFDIR : N := octal [0; 4; 0; 0; 0; 0].
Definition S_IFREG : N := octal [1; 0; 0; 0; 0; 0].

Record World : Type := {
  win32 : bool;                 (* platform() === 'win32' *)
  umask : N;                    (* the file mode creation mask *)
  files : list (Path * N);      (* what exists, with its st_mode *)
  denied : Path -> bool;
  unreadable : Path -> bool
}.

Definition set_files (fs : list (Path * N)) (w : World) : World :=
  {| win32 := win32 w; umask := umask w; files := fs;
     denied := denied w; unreadable := unreadable w |}.

Fixpoint find_mode (p : Path) (fs : list (Path * N)) : option N :=
  match fs with
  | [] => None
  | (q, m) :: fs' => if Path_eqb q p then Some m else find_mode p fs'
  end.

Definition modeAt (p : Path) (w : World) : option N := find_mode p (files w).

Definition isDirectory (mode : N) : bool := (N.land mode S_IFMT =? S_IFDIR)%N.
Definition isFile (mode : N) : bool := (N.land mode S_IFMT =? S_IFREG)%N.

Definition existsSync (p : Path) (w : World) : bool :=
  match modeAt p w with Some _ => true | None => false end.

Definition statSync (p : Path) (w : World) : Exc.t N :=
  match modeAt p w with
  | Some mode => Ok mode
  | None => Throw (Error "ENOENT")
  end.

(** [chmod] replaces the permission bits and keeps the type bits. *)
Definition chmodEntry (p : Path) (perm : N) (e : Path * N) : Path * N :=
  if Path_eqb (fst e) p
  then (fst e, N.lor (N.land (snd e) S_IFMT) (N.land perm (octal [7; 7; 7; 7])))
  else e.

Definition chmodSync (p : Path) (perm : N) (w : World) : Exc.t unit * World :=
  match modeAt p w with
  | None => (Throw (Error "ENOENT"), w)
  | Some _ =>
      if denied w p then (Throw (Error "EPERM"), w)
      else (Ok tt, set_files (map (chmodEntry p perm) (files w)) w)
  end.

(** [mkdirSync(p, { recursive: true, mode })]: the missing directories on
    the way to [p], and [p] itself, are created with [mode] less the
    [umask]; directories that exist are left as they are. *)
Fixpoint mkdirp (done todo : Path) (perm : N) (w : World)
    : Exc.t unit * World :=
  match todo with
  | [] => (Ok tt, w)
  | name :: todo' =>
      let p := done ++ [name] in
      match modeAt p w with
      | Some mode =>
          if isDirectory mode then mkdirp p todo' perm w
          else (Throw (Error "ENOTDIR"), w)
      | None =>
          if denied w p then (Throw (Error "EACCES"), w)
          else
            mkdirp p todo' perm
              (set_files
                 (files w
                  ++ [(p, N.lor S_IFDIR
                            (N.land (N.ldiff perm (umask w))
                                    (octal [7; 7; 7])))])
                 w)
      end
  end.

Definition mkdirSync (p : Path) (mode : option N) (w : World)
    : Exc.t unit * World :=
  mkdirp [] p (match mode with Some m => m | None => octal [7; 7; 7] end) w.

(** The name of [q] inside [dir], when [q] is an entry of [dir]. *)
Fixpoint entryName (dir q : Path) : option JsString :=
  match dir, q with
  | [], [name] => Some name
  | x :: dir', y :: q' => if JsString_eqb x y then entryName dir' q' else None
  | _, _ => None
  end.

(** What [readdirSync(dir, { withFileTypes: true })] gives for an entry:
    its name, and its type as the type bits of a mode. *)
Record Dirent : Type := { d_name : JsString; d_mode : N }.

Fixpoint entriesOf (dir : Path) (fs : list (Path * N)) : list Dirent :=
  match fs with
  | [] => []
  | (q, mode) :: fs' =>
      match entryName dir q with
      | Some name => {| d_name := name; d_mode := mode |} :: entriesOf dir fs'
      | None => entriesOf dir fs'
      end
  end.

Definition readdirSync (dir : Path) (w : World) : Exc.t (list Dirent) :=
  match modeAt dir w with
  | None => Throw (Error "ENOENT")
  | Some mode =>
      if negb (isDirectory mode) then Throw (Error "ENOTDIR")
      else if unreadable w dir then Throw (Error "EACCES")
      else Ok (entriesOf dir (files w))
  end.

(** *** The utility *)

Definition isWindows (w : World) : bool := win32 w.

Definition setSecurePermissions (filePath : Path) (w : World) : bool * World :=
  if isWindows w then (true, w)
  else if negb (existsSync filePath w) then (false, w)
  else
    match chmodSync filePath (octal [6; 0; 0]) w with
    | (Ok _, w') => (true, w')
    | (Throw _, w') => (false, w')
    end.

Definition checkPermissions (filePath : Path) (w : World) : bool :=
  if isWindows w then true
  else if negb (existsSync filePath w) then false
  else
    match statSync filePath w with
    | Throw _ => false
    | Ok mode =>
        let groupRead := negb (N.land mode (octal [0; 4; 0]) =? 0)%N in
        let worldRead := negb (N.land mode (octal [0; 0; 4]) =? 0)%N in
        if groupRead || worldRead then false else true
    end.

Definition ensureSecureDirectory (dirPath : Path) (w : World) : bool * World :=
  if existsSync dirPath w then
    match statSync dirPath w with
    | Throw _ => (false, w)
    | Ok mode =>
        if negb (isDirectory mode) then (false, w)
        else if negb (isWindows w) then
          let groupAccess := negb (N.land mode (octal [0; 7; 0]) =? 0)%N in
          let worldAccess := negb (N.land mode (octal [0; 0; 7]) =? 0)%N in
          if groupAccess || worldAccess then
            match chmodSync dirPath (octal [7; 0; 0]) w with
            | (Ok _, w') => (true, w')
            | (Throw _, w') => (false, w')
            end
          else (true, w)
        else (true, w)
    end
  else
    match
      (if isWindows w then mkdirSync dirPath None w
       else mkdirSync dirPath (Some (octal [7; 0; 0])) w)
    with
    | (Ok _, w') => (true, w')
    | (Throw _, w') => (false, w')
    end.

(** The loop of [hardenDirectoryRecursive] over the entries read; [self]
    is the function itself, for the directories among them. *)
Fixpoint hardenEntries (self : Path -> World -> option (bool * World))
    (dirPath : Path) (entries : list Dirent) (allSuccessful : bool)
    (w : World) : option (bool * World) :=
  match entries with
  | [] => Some (allSuccessful, w)
  | entry :: entries' =>
      let fullPath := join dirPath (d_name entry) in
      if isDirectory (d_mode entry) then
        let '(ok, w) := ensureSecureDirectory fullPath w in
        let allSuccessful := if negb ok then false else allSuccessful in
        match self fullPath w with
        | None => None
        | Some (ok, w) =>
            let allSuccessful := if negb ok then false else allSuccessful in
            hardenEntries self dirPath entries' allSuccessful w
        end
      else if isFile (d_mode entry) then
        let '(ok, w) := setSecurePermissions fullPath w in
        let allSuccessful := if negb ok then false else allSuccessful in
        hardenEntries self dirPath entries' allSuccessful w
      else hardenEntries self dirPath entries' allSuccessful w
  end.

(** [hardenDirectoryRecursive] with a bound on the depth of the calls;
    [None] when the bound is reached. *)
Fixpoint hardenDirectoryRec (fuel : nat) (dirPath : Path) (w : World)
    : option (bool * World) :=
  match fuel with
  | O => None
  | S fuel' =>
      match readdirSync dirPath w with
      | Throw _ => Some (false, w)
      | Ok entries =>
          hardenEntries (hardenDirectoryRec fuel') dirPath entries true w
      end
  end.

(** The length of the longest path there is. *)
Definition depth (w : World) : nat :=
  list_max (map (fun e : Path * N => List.length (fst e)) (files w)).

(** The calls go one level down each time, so [depth w] bounds them. *)
Definition hardenDirectoryRecursive (dirPath : Path) (w : World)
    : bool * World :=
  match hardenDirectoryRec (S (depth w)) dirPath w with
  | Some r => r
  | None => (false, w)
  end.

(** The loop over [sensitiveFiles]. *)
Fixpoint hardenSensitiveFiles (sensitiveFiles : list Path)
    (allSuccessful : bool) (w : World) : bool * World :=
  match sensitiveFiles with
  | [] => (allSuccessful, w)
  | filePath :: rest =>
      if existsSync filePath w then
        let '(ok, w) := setSecurePermissions filePath w in
        hardenSensitiveFiles rest (if negb ok then false else allSuccessful) w
      else hardenSensitiveFiles rest allSuccessful w
  end.

(** The loop over [logFiles]; [statSync] may throw out of it. *)
Fixpoint hardenLogFiles (logsDir : Path) (logFiles : list JsString)
    (allSuccessful : bool) (w : World) : Exc.t bool * World :=
  match logFiles with
  | [] => (Ok allSuccessful, w)
  | logFile :: rest =>
      let logFilePath := join logsDir logFile in
      match statSync logFilePath w with
      | Throw e => (Throw e, w)
      | Ok stats =>
          if isFile stats then
            let '(ok, w) := setSecurePermissions logFilePath w in
            hardenLogFiles logsDir rest
              (if negb ok then false else allSuccessful) w
          else hardenLogFiles logsDir rest allSuccessful w
      end
  end.

Definition hardenDataDirectory (dataDir : Path) (w : World) : bool * World :=
  if isWindows w then (true, w)
  else if negb (existsSync dataDir w) then (true, w)
  else
    let allSuccessful := true in
    let '(ok, w) := ensureSecureDirectory dataDir w in
    let allSuccessful := if negb ok then false else allSuccessful in
    let sensitiveFiles :=
      [join dataDir (js "claude-mem.db"); join dataDir (js "settings.json")] in
    let '(allSuccessful, w) :=
      hardenSensitiveFiles sensitiveFiles allSuccessful w in
    let logsDir := join dataDir (js "logs") in
    let '(allSuccessful, w) :=
      if existsSync logsDir w then
        let '(ok, w) := ensureSecureDirectory logsDir w in
        let allSuccessful := if negb ok then false else allSuccessful in
        match readdirSync logsDir w with
        | Throw _ => (false, w)
        | Ok logFiles =>
            match hardenLogFiles logsDir (map d_name logFiles)
                    allSuccessful w with
            | (Ok allSuccessful, w) => (allSuccessful, w)
            | (Throw _, w) => (false, w)
            end
        end
      else (allSuccessful, w) in
    let chromaDir := join dataDir (js "chroma") in
    if existsSync chromaDir w then
      let '(ok, w) := ensureSecureDirectory chromaDir w in
      let allSuccessful := if negb ok then false else allSuccessful in
      let '(ok, w) := hardenDirectoryRecursive chromaDir w in
      let allSuccessful := if negb ok then false else allSuccessful in
      (allSuccessful, w)
    else (allSuccessful, w).

End FilePermissions.

(* ------------------------------------------------------------------ *)
(** ** src/services/retention/RetentionManager.ts: the settings read *)

Module Retention.

Import RegExp.

(** A number as [parseInt] returns it.  An integer of magnitude up to
    2^53 is a double as it stands.  Beyond that, what [parseInt] returns
    is the double nearest to the integer read, or an infinity; it is not
    computed here: [Beyond] stands for such a number, of the sign given,
    which is never zero. *)
Inductive Num : Type :=
| Exact (n : Z)
| Beyond (negative : bool)
| NotANumber.

(** ToBoolean on such a number. *)
Definition truthyNum (x : Num) : bool :=
  match x with
  | Exact n => negb (n =? 0)%Z
  | Beyond _ => true
  | NotANumber => false
  end.

(** [parseInt(string, 10)] on a string (ECMA-262 19.2.5): white space is
    skipped, then a sign is read, then the longest run of decimal
    digits; without a digit the result is NaN. *)
Fixpoint digitsValue (acc : Z) (S : JsString) : Z :=
  match S with
  | c :: S' =>
      if isDigit c then digitsValue (10 * acc + (Z.of_N c - 48))%Z S'
      else acc
  | [] => acc
  end.

Definition parseInt (inputString : JsString) : Num :=
  let S := trimStart inputString in
  let sign :=
    match S with
    | c :: _ => if (c =? cu "-")%N then (-1)%Z else 1%Z
    | [] => 1%Z
    end in
  let S :=
    match S with
    | c :: S' => if ((c =? cu "+") || (c =? cu "-"))%N then S' else S
    | [] => S
    end in
  match S with
  | c :: _ =>
      if isDigit c then
        let mathInt := digitsValue 0 S in
        if (mathInt <=? 2 ^ 53)%Z then Exact (sign * mathInt)
        else Beyond (sign <? 0)%Z
      else NotANumber
  | [] => NotANumber
  end.

(** A value found in the settings.  [loadFromFile] passes on whatever
    JSON value the file holds for a key.  A value that is not a string is
    given by what the three uses below can see of it: the string that
    ToString makes of it, if ToString returns, and its truth value. *)
Inductive Setting : Type :=
| Text (s : JsString)
| Other (toString : option JsString) (truth : bool).

Definition ToString (v : Setting) : Exc.t JsString :=
  match v with
  | Text s => Ok s
  | Other (Some s) _ => Ok s
  | Other None _ => Throw TypeError
  end.

Definition ToBoolean (v : Setting) : bool :=
  match v with
  | Text s => truthy (Str s)
  | Other _ truth => truth
  end.

(** [v === 'text'] *)
Definition is_text (v : Setting) (text : string) : bool :=
  match v with
  | Text s => FilePermissions.JsString_eqb s (js text)
  | Other _ _ => false
  end.

(** The settings that the retention manager reads. *)
Record SettingsDefaults : Type := {
  CLAUDE_MEM_RETENTION_ENABLED : Setting;
  CLAUDE_MEM_RETENTION_DAYS : Setting;
  CLAUDE_MEM_ARCHIVE_BEFORE_DELETE : Setting;
  CLAUDE_MEM_ARCHIVE_PATH : Setting
}.

Record RetentionSettings : Type := {
  enabled : bool;
  retentionDays : Num;
  archiveBeforeDelete : bool;
  archivePath : Setting
}.

Section WithPaths.

(** [join(ARCHIVES_DIR, 'retention')]; [ARCHIVES_DIR] comes from
    shared/paths.js. *)
Variable defaultArchivePath : JsString.

(** [settings] is what [SettingsDefaultsManager.loadFromFile] returned. *)
Definition getRetentionSettings (settings : SettingsDefaults)
    : Exc.t RetentionSettings :=
  let enabled := is_text (CLAUDE_MEM_RETENTION_ENABLED settings) "true" in
  Exc.bind (ToString (CLAUDE_MEM_RETENTION_DAYS settings)) (fun days =>
  let parsed := parseInt days in
  Ok {| enabled := enabled;
        retentionDays := if truthyNum parsed then parsed else Exact 90;
        archiveBeforeDelete :=
          is_text (CLAUDE_MEM_ARCHIVE_BEFORE_DELETE settings) "true";
        archivePath :=
          if ToBoolean (CLAUDE_MEM_ARCHIVE_PATH settings)
          then CLAUDE_MEM_ARCHIVE_PATH settings
          else Text defaultArchivePath |}).

End WithPaths.

End Retention.

(* ------------------------------------------------------------------ *)
(** ** Notions used to state the properties *)

Module Spec.

Import Keyring RegExp TagStripping.

(** The continuation of [$] at the end of a pattern. *)
Definition atEnd : Continuation :=
  fun y => match rest y with [] => Some y | _ :: _ => None end.

(** The test the matcher makes for [[0-9a-fA-F]]. *)
Definition hexClass : CodeUnit -> bool :=
  fun a => xorb false
             (classHas false [CRange (cu "0") (cu "9"); CRange (cu "a") (cu "f");
                              CRange (cu "A") (cu "F")] a).

(** *** Positions a matcher can reach

    [y] lies at or after [x] in the same input. *)
Definition reaches (x y : MatchState) : Prop :=
  exists w, rest x = w ++ rest y /\ endIndex y = endIndex x + List.length w.

(** A matcher that looks at its continuation only at positions at or
    after the one it starts from. *)
Definition forward (m : Matcher) : Prop :=
  forall x c c', (forall y, reaches x y -> c y = c' y) -> m x c = m x c'.

(** *** Substrings *)

Fixpoint startsWith (p s : JsString) : bool :=
  match p, s with
  | [], _ => true
  | c :: p', d :: s' => (d =? c)%N && startsWith p' s'
  | _ :: _, [] => false
  end.

(** Does [p] occur somewhere in [s]? *)
Fixpoint occurs (p s : JsString) : bool :=
  startsWith p s
  || match s with
     | [] => false
     | _ :: s' => occurs p s'
     end.

(** The first character of [p] does not come back in [p]: no occurrence of
    [p] can begin inside another one. *)
Definition headUnique (p : JsString) : bool :=
  match p with
  | [] => false
  | c :: p' => forallb (fun d => negb (d =? c)%N) p'
  end.

(** The character before the position reached after reading [p]. *)
Definition lastOr (prev : option CodeUnit) (p : JsString) : option CodeUnit :=
  fold_left (fun _ c => Some c) p prev.

(** *** Content made of text and well-delimited spans

    [(t1, b1); ...; (tn, bn)] and [tail] stand for
    [t1 <open> b1 <close> ... tn <open> bn <close> tail]. *)
Fixpoint assemble (opening closing : JsString)
    (segments : list (JsString * JsString)) (tail : JsString) : JsString :=
  match segments with
  | [] => tail
  | (t, b) :: rest =>
      t ++ opening ++ b ++ closing ++ assemble opening closing rest tail
  end.

(** The same content with each span replaced by [repl]. *)
Fixpoint outside (repl : JsString) (segments : list (JsString * JsString))
    (tail : JsString) : JsString :=
  match segments with
  | [] => tail
  | (t, _) :: rest => t ++ repl ++ outside repl rest tail
  end.

Definition wellDelimited (opening closing : JsString)
    (segments : list (JsString * JsString)) (tail : JsString) : Prop :=
  Forall (fun tb => occurs opening (fst tb) = false
                    /\ occurs closing (snd tb) = false) segments
  /\ occurs opening tail = false.

(** [/<open>[\s\S]*?<close>/g] for arbitrary delimiters. *)
Definition spanRegex (opening closing : JsString) : RegExp.t :=
  {| source := seqs [seqs (map RChar opening); lazyStar anyChar;
                     seqs (map RChar closing)];
     flags := flags_g |}.

Definition PRIVATE_OPEN : JsString := js "<private>".
Definition PRIVATE_CLOSE : JsString := js "</private>".

(** *** Counting matches *)

(** The matches of every pattern in the content as it is given. *)
Definition spansAcross (patterns : list RegExp.t) (s : JsString)
    : list (nat * nat) :=
  flat_map (fun R => matchedSpans (pieces R s)) patterns.

Definition disjoint (a b : nat * nat) : bool :=
  (snd a <=? fst b) || (snd b <=? fst a).

Fixpoint nonOverlapping (spans : list (nat * nat)) : bool :=
  match spans with
  | [] => true
  | x :: rest => forallb (disjoint x) rest && nonOverlapping rest
  end.

(** The matches each pattern finds in the content as the patterns before
    it have rewritten it. *)
Fixpoint sequentialCount (patterns : list RegExp.t) (s : JsString) : nat :=
  match patterns with
  | [] => 0
  | R :: rest =>
      List.length (matchedSpans (pieces R s))
      + sequentialCount rest (String_replace s R REDACTED)
  end.

(** *** Sample contents *)

(** Forty characters that look like an AWS secret key only because [aws]
    follows on the line, inside a token of the first pattern. *)
Definition aws_sample : JsString :=
  js "AAAAAAAAAAAAAAAAAAAAAAAAAAAAAAAAAAAAAAAA sk-aaaaaaaaaaaaaaaaaaaaaws".

(** An access key id glued to a password assignment. *)
Definition akia_sample : JsString := js "AKIAXXXXXXXXXXXXXXXXpwd=x".

(** A private span whose removal leaves another private span. *)
Definition nested_sample : JsString :=
  js "<pri<private>x</private>vate>y</private>".

Definition sk_sample : JsString := js "key: sk-1234567890abcdefghij1234567890".

(** A host whose parser takes a pattern made of letters and digits as the
    literal it is, and rejects everything else. *)
Definition literal_host (setting : Value) : Host :=
  {| RegExp_new := fun pattern f =>
       if forallb (fun c => isLower c || isUpper c || isDigit c) pattern
       then Ok {| source := seqs (map RChar pattern); flags := f |}
       else Throw SyntaxError;
     load_REDACT_PATTERNS := Ok setting |}.

(** Four pattern strings: a literal, one of 250 characters, one the
    parser rejects, and another literal. *)
Definition sample_patterns : list JsString :=
  [js "abc"; repeat (cu "a") 250; js "("; js "xyz"].

(** Is a pattern string one that [compileUserPatterns] hands to the
    parser? *)
Definition admissible (pattern : JsString) : bool :=
  truthy (Str pattern) && truthy (Str (trim pattern))
  && (List.length pattern <=? MAX_PATTERN_LENGTH).

(** What one pattern string contributes to the compiled list. *)
Definition accepted (host : Host) (pattern : JsString) : list RegExp.t :=
  if admissible pattern then
    match RegExp_new host pattern flags_g with
    | Ok R => [R]
    | Throw _ => []
    end
  else [].

(** Will the OS keyring be in use once [initialize] has run? *)
Definition usable (st : State) : bool :=
  if initialized st then keytarAvailable st && keytar st
  else keytar_installed st.

(** The state [initialize] leaves behind. *)
Definition initialized_state (st : State) : State :=
  {| keytar_installed := keytar_installed st;
     keychain_rejects := keychain_rejects st;
     keychain := keychain st;
     environ := environ st;
     entropy := entropy st;
     drawn := drawn st;
     keytar := if initialized st then keytar st
               else if keytar_installed st then true else keytar st;
     keytarAvailable := if initialized st then keytarAvailable st
                        else keytar_installed st;
     initialized := true |}.

(** The secret a lookup finds: the keyring entry when the keyring is in
    use and holds a non-empty one, nothing when the keyring call rejects,
    and otherwise the environment variable when it is non-empty. *)
Definition lookup (st : State) (key : SecretKey) : option JsString :=
  if usable st then
    if keychain_rejects st then None
    else if present (keychain st key) then keychain st key
    else if present (environ st key) then environ st key
    else None
  else if present (environ st key) then environ st key
  else None.

Definition isHex (c : CodeUnit) : bool :=
  in_range 48 57 c || in_range 97 102 c || in_range 65 70 c.

(** The next [n] bytes of the random generator, and the state once they
    are drawn. *)
Definition freshBytes (st : State) (n : nat) : Buffer :=
  map (fun i => (entropy st (drawn st + i)%nat mod 256)%N) (seq 0 n).

Definition after_draw (st : State) (n : nat) : State :=
  {| keytar_installed := keytar_installed st;
     keychain_rejects := keychain_rejects st;
     keychain := keychain st;
     environ := environ st;
     entropy := entropy st;
     drawn := drawn st + n;
     keytar := keytar st;
     keytarAvailable := keytarAvailable st;
     initialized := initialized st |}.

(** A process that has not touched the keyring yet, on a machine with a
    working keyring holding [kc] and the environment [env]; the random
    generator delivers 0, 1, 2, ... *)
Definition fresh_process (installed : bool)
    (kc env : SecretKey -> option JsString) : State :=
  {| keytar_installed := installed;
     keychain_rejects := false;
     keychain := kc;
     environ := env;
     entropy := fun i => N.of_nat i;
     drawn := 0;
     keytar := false;
     keytarAvailable := false;
     initialized := false |}.

Definition nothing : SecretKey -> option JsString := fun _ => None.

Definition only (key : SecretKey) (value : JsString)
    : SecretKey -> option JsString :=
  fun k => if SecretKey_eqb k key then Some value else None.

(** A machine without keyring whose environment sets DB_ENCRYPTION_KEY to
    a value that is not a key. *)
Definition malformed_key : JsString := js "not-a-key".
Definition malformed_env : State :=
  fresh_process false nothing (only DB_ENCRYPTION_KEY malformed_key).

(** A machine whose keyring holds a 64-character token. *)
Definition sample_token : JsString :=
  js "00112233445566778899aabbccddeeff00112233445566778899aabbccddeeff".
Definition with_token : State :=
  fresh_process true (only AUTH_TOKEN sample_token) nothing.

(** *** The keyring, later *)

(** The state with the keyring entry of [key] set to [value]. *)
Definition store_entry (key : SecretKey) (value : JsString) (st : State)
    : State :=
  {| keytar_installed := keytar_installed st;
     keychain_rejects := keychain_rejects st;
     keychain := fun k => if SecretKey_eqb k key then Some value
                          else keychain st k;
     environ := environ st;
     entropy := entropy st;
     drawn := drawn st;
     keytar := keytar st;
     keytarAvailable := keytarAvailable st;
     initialized := initialized st |}.

(** The state with the keyring entry of [key] removed. *)
Definition remove_entry (key : SecretKey) (st : State) : State :=
  {| keytar_installed := keytar_installed st;
     keychain_rejects := keychain_rejects st;
     keychain := fun k => if SecretKey_eqb k key then None else keychain st k;
     environ := environ st;
     entropy := entropy st;
     drawn := drawn st;
     keytar := keytar st;
     keytarAvailable := keytarAvailable st;
     initialized := initialized st |}.

(** The same process on a machine where keytar has since been installed
    ([true]) or removed ([false]). *)
Definition with_installed (b : bool) (st : State) : State :=
  {| keytar_installed := b;
     keychain_rejects := keychain_rejects st;
     keychain := keychain st;
     environ := environ st;
     entropy := entropy st;
     drawn := drawn st;
     keytar := keytar st;
     keytarAvailable := keytarAvailable st;
     initialized := initialized st |}.

(** The calls that can be made on the manager, and the state one of
    them leaves behind. *)
Inductive Operation : Type :=
| SetSecret (key : SecretKey) (value : JsString)
| GetSecret (key : SecretKey)
| DeleteSecret (key : SecretKey)
| HasSecret (key : SecretKey)
| IsKeytarAvailable
| ListSecrets.

Definition after (op : Operation) (st : State) : State :=
  match op with
  | SetSecret key value => snd (setSecret key value st)
  | GetSecret key => snd (getSecret key st)
  | DeleteSecret key => snd (deleteSecret key st)
  | HasSecret key => snd (hasSecret key st)
  | IsKeytarAvailable => snd (isKeytarAvailable st)
  | ListSecrets => snd (listSecrets st)
  end.

(** What can happen to a process: a call on the manager, or keytar being
    installed ([true]) or removed ([false]) on the machine. *)
Inductive Event : Type :=
| Call (op : Operation)
| Installed (b : bool).

Definition happen (st : State) (e : Event) : State :=
  match e with
  | Call op => after op st
  | Installed b => with_installed b st
  end.

Definition afterAll (events : list Event) (st : State) : State :=
  fold_left happen events st.

(** The three fields of the manager. *)
Definition manager (st : State) : bool * bool * bool :=
  (keytar st, keytarAvailable st, initialized st).

(** Did a computation return a secret? *)
Definition found (r : Exc.t (option JsString)) : bool :=
  match r with
  | Ok (Some _) => true
  | _ => false
  end.

(** *** Tokens *)

Definition isAscii (c : CodeUnit) : bool := (c <? 128)%N.

(** [0-9a-f] *)
Definition isLowerHex (c : CodeUnit) : bool :=
  in_range 48 57 c || in_range 97 102 c.

(** *** Tags *)

Definition CONTEXT_OPEN : JsString := js "<claude-mem-context>".
Definition CONTEXT_CLOSE : JsString := js "</claude-mem-context>".
Definition SECRET_OPEN : JsString := js "<secret>".
Definition SECRET_CLOSE : JsString := js "</secret>".

(** The number of places of [s] at which [p] begins. *)
Fixpoint occurrences (p s : JsString) : nat :=
  (if startsWith p s then 1 else 0)
  + match s with
    | [] => 0
    | _ :: s' => occurrences p s'
    end.

(** Does a string begin with a character that is not white space, if it
    begins at all? *)
Definition noLeadingSpace (s : JsString) : Prop :=
  match s with
  | [] => True
  | c :: _ => isWhiteSpace c = false
  end.

(** [/p/g] for a literal [p]. *)
Definition litRegex (p : JsString) : RegExp.t :=
  {| source := seqs (map RChar p); flags := flags_g |}.

(** The test the matcher makes for [[a-zA-Z0-9]]. *)
Definition alnumClass : CodeUnit -> bool :=
  fun a => xorb false
             (classHas false [CRange (cu "a") (cu "z"); CRange (cu "A") (cu "Z");
                              CRange (cu "0") (cu "9")] a).

(** The first default pattern, [/\bsk-[a-zA-Z0-9]{20,}/g]. *)
Definition OPENAI_KEY : RegExp.t :=
  {| source := seqs [wordB; lit "sk-"; atLeast 20 alnum]; flags := flags_g |}.

(** *** Text over an alphabet

    A static reading of a pattern: does every match of [r] have to read a
    character that lies outside [alpha]?  A text made of characters of
    [alpha] then holds no match of [r]. *)
Definition inAlphabet (alpha : list CodeUnit) (c : CodeUnit) : bool :=
  existsb (N.eqb c) alpha.

Definition plainText (alpha : list CodeUnit) (s : JsString) : bool :=
  forallb (inAlphabet alpha) s.

(** No character of [alpha] passes the test [ok]. *)
Definition noneOf (alpha : list CodeUnit) (ok : CodeUnit -> bool) : bool :=
  forallb (fun a => negb (ok a)) alpha.

Fixpoint needsOutside (ic : bool) (alpha : list CodeUnit) (r : Regex) : bool :=
  match r with
  | RChar ch =>
      noneOf alpha (fun a => (canonicalize ic a =? canonicalize ic ch)%N)
  | RDot => noneOf alpha (fun a => negb (isLineTerminator a))
  | RClass invert atoms =>
      noneOf alpha (fun a => xorb invert (classHas ic atoms a))
  | RSeq r1 r2 => needsOutside ic alpha r1 || needsOutside ic alpha r2
  | RAlt r1 r2 => needsOutside ic alpha r1 && needsOutside ic alpha r2
  | RQuant r1 min max _ =>
      match min, max with
      | O, _ => false
      | _, Some O => false
      | _, _ => needsOutside ic alpha r1
      end
  | RGroup _ r1 => needsOutside ic alpha r1
  | RLookahead negative r1 =>
      if negative then false else needsOutside ic alpha r1
  | REmpty | RWordBoundary _ | RInputStart | RInputEnd => false
  end.

Definition unmatchable (alpha : list CodeUnit) (R : RegExp.t) : bool :=
  needsOutside (ignoreCase (flags R)) alpha (source R).

(** Neither a tag span nor a pattern in force for [host] can match in a
    text over [alpha]. *)
Definition quiet (host : Host) (alpha : list CodeUnit) : bool :=
  forallb (unmatchable alpha)
    ([CONTEXT_SPAN; PRIVATE_SPAN; SECRET_SPAN] ++ getRedactionPatterns host).

(** The text before a key does not end in a word character, and the text
    after it does not go on with a letter or a digit. *)
Definition endsOutsideWord (pre : JsString) : bool :=
  match lastOr None pre with
  | Some a => negb (isWordChar a)
  | None => true
  end.

Definition startsOutside (ok : CodeUnit -> bool) (post : JsString) : bool :=
  match post with
  | [] => true
  | a :: _ => negb (ok a)
  end.

(** Letters without b, w, B, J, K and W, the digits, the blank and some
    punctuation: no default pattern and no tag span can match in a text
    over these. *)
Definition sample_alphabet : list CodeUnit :=
  js "acdefghijklmnopqrstuvxyzACDEFGHILMNOPQRSTUVXYZ0123456789 []().,!?/>".


(** Settings that ask for a retention of [days]. *)
Definition retention_of (days : Retention.Setting)
    : Retention.SettingsDefaults :=
  {| Retention.CLAUDE_MEM_RETENTION_ENABLED := Retention.Text (js "true");
     Retention.CLAUDE_MEM_RETENTION_DAYS := days;
     Retention.CLAUDE_MEM_ARCHIVE_BEFORE_DELETE := Retention.Text (js "true");
     Retention.CLAUDE_MEM_ARCHIVE_PATH := Retention.Text [] |}.

Definition allZeros (s : JsString) : bool :=
  forallb (fun c => (c =? cu "0")%N) s.

End Spec.

(* ------------------------------------------------------------------ *)
(** ** Notions used to state the properties of the file utility *)

Module FsSpec.

Import FilePermissions.
Local Open Scope N_scope.

(** No permission bit of the group or of the others is set. *)
Definition ownerOnly (mode : N) : Prop := N.land mode (octal [0; 7; 7]) = 0%N.

(** What [checkPermissions] wants of a mode: neither the group nor the
    others may read. *)
Definition notReadableByOthers (mode : N) : Prop :=
  N.testbit mode 5 = false /\ N.testbit mode 2 = false.

Fixpoint isPrefix (d q : Path) : bool :=
  match d, q with
  | [], _ => true
  | x :: d', y :: q' => JsString_eqb x y && isPrefix d' q'
  | _ :: _, [] => false
  end.

(** An entry before and after hardening at or below [d]: the same path
    and type; a mode that was closed to the others stays closed; outside
    [d] the mode is the same. *)
Definition entryHardened (d : Path) (e e' : Path * N) : Prop :=
  fst e' = fst e
  /\ N.land (snd e') S_IFMT = N.land (snd e) S_IFMT
  /\ (notReadableByOthers (snd e) -> notReadableByOthers (snd e'))
  /\ (isPrefix d (fst e) = false -> snd e' = snd e).

Definition hardens (d : Path) (w w' : World) : Prop :=
  win32 w' = win32 w /\ Forall2 (entryHardened d) (files w) (files w').

(** Only modes have changed, and towards the closed: the same paths with
    the same types, and a mode that was closed to the others still is. *)
Definition entryKept (e e' : Path * N) : Prop :=
  fst e' = fst e
  /\ N.land (snd e') S_IFMT = N.land (snd e) S_IFMT
  /\ (notReadableByOthers (snd e) -> notReadableByOthers (snd e')).

Definition onlyModesChange (w w' : World) : Prop :=
  win32 w' = win32 w /\ Forall2 entryKept (files w) (files w').

(** The files and directories below [p], through directories only. *)
Inductive below (w : World) (p : Path) : Path -> Prop :=
| below_file name mode :
    In (join p name, mode) (files w) -> isFile mode = true ->
    below w p (join p name)
| below_directory name mode :
    In (join p name, mode) (files w) -> isDirectory mode = true ->
    below w p (join p name)
| below_deeper name mode q :
    In (join p name, mode) (files w) -> isDirectory mode = true ->
    below w (join p name) q ->
    below w p q.

(** The two blocks of [hardenDataDirectory] that deal with [logs] and
    with [chroma], each as a function of [allSuccessful] and the file
    system it starts from. *)
Definition hardenLogs (logsDir : Path) (allSuccessful : bool) (w : World)
    : bool * World :=
  if existsSync logsDir w then
    let '(ok, w) := ensureSecureDirectory logsDir w in
    let allSuccessful := if negb ok then false else allSuccessful in
    match readdirSync logsDir w with
    | Throw _ => (false, w)
    | Ok logFiles =>
        match hardenLogFiles logsDir (map d_name logFiles)
                allSuccessful w with
        | (Ok allSuccessful, w) => (allSuccessful, w)
        | (Throw _, w) => (false, w)
        end
    end
  else (allSuccessful, w).

Definition hardenChroma (chromaDir : Path) (allSuccessful : bool) (w : World)
    : bool * World :=
  if existsSync chromaDir w then
    let '(ok, w) := ensureSecureDirectory chromaDir w in
    let allSuccessful := if negb ok then false else allSuccessful in
    let '(ok, w) := hardenDirectoryRecursive chromaDir w in
    let allSuccessful := if negb ok then false else allSuccessful in
    (allSuccessful, w)
  else (allSuccessful, w).

Definition sensitiveFiles (dataDir : Path) : list Path :=
  [join dataDir (js "claude-mem.db"); join dataDir (js "settings.json")].

Definition directory (perm : N) : N := N.lor S_IFDIR perm.
Definition regular (perm : N) : N := N.lor S_IFREG perm.

Definition dataDir : Path := [js "home"; js "u"; js ".claude-mem"].

(** A data directory as an installation with the usual [umask] leaves
    it. *)
Definition sample_world : World :=
  {| win32 := false;
     umask := octal [0; 2; 2];
     files :=
       [ ([], directory (octal [7; 5; 5]));
         ([js "home"], directory (octal [7; 5; 5]));
         ([js "home"; js "u"], directory (octal [7; 5; 5]));
         (dataDir, directory (octal [7; 5; 5]));
         (join dataDir (js "settings.json"), regular (octal [6; 4; 4]));
         (join dataDir (js "claude-mem.db"), regular (octal [6; 4; 4]));
         (join dataDir (js "logs"), directory (octal [7; 5; 5]));
         (join (join dataDir (js "logs")) (js "worker.log"), regular (octal [6; 4; 4]));
         (join (join dataDir (js "logs")) (js "old"), directory (octal [7; 5; 5]));
         (join (join (join dataDir (js "logs")) (js "old")) (js "a.log"),
          regular (octal [6; 4; 4]));
         (join dataDir (js "chroma"), directory (octal [7; 7; 5]));
         (join (join dataDir (js "chroma")) (js "index"), directory (octal [7; 5; 5]));
         (join (join (join dataDir (js "chroma")) (js "index")) (js "data.bin"),
          regular (octal [6; 6; 6])) ];
     denied := fun _ => false;
     unreadable := fun _ => false |}.

(** A file that the group and the others may write to, but not read. *)
Definition writable_world : World :=
  {| win32 := false;
     umask := 0%N;
     files := [ ([], directory (octal [7; 5; 5]));
                ([js "drop"], regular (octal [6; 2; 2])) ];
     denied := fun _ => false;
     unreadable := fun _ => false |}.

End FsSpec.

(* ------------------------------------------------------------------ *)
(** * Properties *)

Import Keyring Spec.

(** ** The keyring *)

(** Expose the state passing of a computation. *)
Ltac run_M :=
  unfold Keyring.try_catch, Keyring.bind, Keyring.get, Keyring.ret,
    Keyring.throw, import_keytar, keytar_getPassword, keytar_setPassword,
    set_manager, set_keychain; simpl.

Lemma initialize_run st : initialize st = (Ok tt, initialized_state st).
Proof.
  destruct st as [inst rej kc env ent dr kt av ini].
  unfold initialize, initialized_state. run_M.
  destruct ini; simpl; [reflexivity|].
  destruct inst; reflexivity.
Qed.

Lemma usable_initialized_state st :
  keytarAvailable (initialized_state st) && keytar (initialized_state st)
  = usable st.
Proof.
  destruct st as [inst rej kc env ent dr kt av ini]; unfold usable; simpl.
  destruct ini, inst, av, kt; reflexivity.
Qed.

Lemma getSecret_run st key :
  getSecret key st = (Ok (lookup st key), initialized_state st).
Proof.
  unfold getSecret, Keyring.bind at 1. rewrite initialize_run.
  unfold lookup. rewrite <- (usable_initialized_state st).
  change (keychain_rejects st) with (keychain_rejects (initialized_state st)).
  change (keychain st) with (keychain (initialized_state st)).
  change (environ st) with (environ (initialized_state st)).
  generalize (initialized_state st); intros [inst rej kc env ent dr kt av ini].
  run_M.
  destruct (av && kt); simpl.
  - destruct rej; simpl; [reflexivity|].
    destruct (present (kc key)); simpl; [reflexivity|].
    destruct (present (env key)); reflexivity.
  - destruct (present (env key)); reflexivity.
Qed.

Lemma lookup_initialized_state st key :
  lookup (initialized_state st) key = lookup st key.
Proof.
  unfold lookup. unfold usable at 1. cbn [initialized].
  rewrite usable_initialized_state. reflexivity.
Qed.

Lemma lookup_present st key v : lookup st key = Some v -> truthy (Str v) = true.
Proof.
  unfold lookup; intros H.
  repeat match type of H with
         | (if ?b then _ else _) = _ => destruct b eqn:?
         end; try discriminate; rewrite H in *; assumption.
Qed.

(** The state [setSecret] leaves behind when it stores. *)
Lemma setSecret_run st key value :
  setSecret key value st =
  if truthy (Str value) && usable st && negb (keychain_rejects st) then
    (Ok true,
     let st' := initialized_state st in
     {| keytar_installed := keytar_installed st';
        keychain_rejects := keychain_rejects st';
        keychain := fun k => if SecretKey_eqb k key then Some value
                             else keychain st' k;
        environ := environ st';
        entropy := entropy st';
        drawn := drawn st';
        keytar := keytar st';
        keytarAvailable := keytarAvailable st';
        initialized := initialized st' |})
  else (Ok false, initialized_state st).
Proof.
  unfold setSecret, Keyring.bind at 1. rewrite initialize_run.
  rewrite <- (usable_initialized_state st).
  change (keychain_rejects st) with (keychain_rejects (initialized_state st)).
  generalize (initialized_state st); intros [inst rej kc env ent dr kt av ini].
  destruct (truthy (Str value)); simpl; [|reflexivity].
  run_M.
  destruct (av && kt); simpl; [|reflexivity].
  destruct rej; reflexivity.
Qed.

(** ** The fuel of RepeatMatcher is enough *)

Import RegExp.

#[local] Arguments Nat.eqb : simpl nomatch.

Lemma reaches_refl x : reaches x x.
Proof. exists []. split; [reflexivity | simpl; lia]. Qed.

Lemma reaches_trans x y z : reaches x y -> reaches y z -> reaches x z.
Proof.
  intros (w1 & H1 & E1) (w2 & H2 & E2). exists (w1 ++ w2).
  rewrite H1, H2, E2, E1, length_app, app_assoc. split; [reflexivity | lia].
Qed.

Lemma reaches_length x y :
  reaches x y ->
  List.length (rest y) <= List.length (rest x)
  /\ (endIndex y <> endIndex x -> List.length (rest y) < List.length (rest x)).
Proof.
  intros (w & H & E). rewrite H, length_app. split; [lia|].
  intros Hne. destruct w; simpl in *; lia.
Qed.

Lemma stepChar_forward ok : forward (stepChar ok).
Proof.
  intros x c c' H. unfold stepChar. destruct (rest x) as [|ch s] eqn:Hx;
    [reflexivity|].
  destruct (ok ch); [|reflexivity]. apply H. exists [ch].
  simpl. split; [exact Hx | lia].
Qed.

Lemma RepeatMatcher_forward m :
  forward m ->
  forall fuel min max greedy, forward (RepeatMatcher fuel m min max greedy).
Proof.
  intros Hm. induction fuel as [|f IH]; intros min max greedy x c c' H;
    [reflexivity|].
  cbn [RepeatMatcher].
  assert (Hd : m x (fun y =>
                 if (min =? 0) && (endIndex y =? endIndex x) then None
                 else RepeatMatcher f m (pred min) (option_map pred max)
                        greedy y c)
             = m x (fun y =>
                 if (min =? 0) && (endIndex y =? endIndex x) then None
                 else RepeatMatcher f m (pred min) (option_map pred max)
                        greedy y c')).
  { apply Hm. intros y Hy.
    destruct ((min =? 0) && (endIndex y =? endIndex x)); [reflexivity|].
    apply IH. intros z Hz. apply H. apply (reaches_trans Hy Hz). }
  rewrite Hd, (H x (reaches_refl x)). reflexivity.
Qed.

Lemma compile_forward ic r : forward (compile ic r).
Proof.
  induction r as [ | ch | | inv atoms | r1 IH1 r2 IH2 | r1 IH1 r2 IH2
                   | r1 IH1 min max greedy | cap r1 IH1 | neg r1 IH1 | neg
                   | | ]; cbn [compile].
  - intros x c c' H. apply H, reaches_refl.
  - apply stepChar_forward.
  - apply stepChar_forward.
  - apply stepChar_forward.
  - intros x c c' H. apply IH1. intros y Hy. apply IH2.
    intros z Hz. apply H, (reaches_trans Hy Hz).
  - intros x c c' H. rewrite (IH1 x c c' H), (IH2 x c c' H). reflexivity.
  - intros x c c' H. apply RepeatMatcher_forward; assumption.
  - exact IH1.
  - intros x c c' H. rewrite (H x (reaches_refl x)). reflexivity.
  - intros x c c' H. rewrite (H x (reaches_refl x)). reflexivity.
  - intros x c c' H. rewrite (H x (reaches_refl x)). reflexivity.
  - intros x c c' H. rewrite (H x (reaches_refl x)). reflexivity.
Qed.

Lemma RepeatMatcher_fuel m :
  forward m ->
  forall n fuel fuel' min max greedy x c,
    min + List.length (rest x) <= n -> n < fuel -> n < fuel' ->
    RepeatMatcher fuel m min max greedy x c
    = RepeatMatcher fuel' m min max greedy x c.
Proof.
  intros Hm. induction n as [n IH] using lt_wf_ind.
  intros fuel fuel' min max greedy x c Hn Hf Hf'.
  destruct fuel as [|f]; [lia|]. destruct fuel' as [|f']; [lia|].
  cbn [RepeatMatcher].
  assert (Hd : m x (fun y =>
                 if (min =? 0) && (endIndex y =? endIndex x) then None
                 else RepeatMatcher f m (pred min) (option_map pred max)
                        greedy y c)
             = m x (fun y =>
                 if (min =? 0) && (endIndex y =? endIndex x) then None
                 else RepeatMatcher f' m (pred min) (option_map pred max)
                        greedy y c)).
  { apply Hm. intros y Hy.
    destruct ((min =? 0) && (endIndex y =? endIndex x)) eqn:E; [reflexivity|].
    destruct (reaches_length Hy) as [Hle Hlt].
    assert (Hk : pred min + List.length (rest y) < n).
    { destruct min as [|k]; [|simpl; lia].
      simpl in E. apply Nat.eqb_neq in E. specialize (Hlt E). simpl. lia. }
    apply (IH (pred min + List.length (rest y))); lia. }
  rewrite Hd. reflexivity.
Qed.

(** Whatever larger fuel is given, a quantified pattern matches as with
    the fuel [compile] gives it: the fuel never runs out. *)
Lemma fuel_is_enough ic r min max greedy x c fuel :
  min + List.length (rest x) < fuel ->
  RepeatMatcher fuel (compile ic r) min max greedy x c
  = compile ic (RQuant r min max greedy) x c.
Proof.
  intros H. cbn [compile].
  apply (@RepeatMatcher_fuel _ (compile_forward ic r)
           (min + List.length (rest x))); lia.
Qed.

(** ** A greedy run of one character class up to the end of the input *)

Lemma greedy_run_to_end (ok : CodeUnit -> bool) :
  forall s fuel min prev i,
    forallb ok s = true -> min <= List.length s -> List.length s < fuel ->
    exists last,
      RepeatMatcher fuel (stepChar ok) min None true
        {| prevChar := prev; rest := s; endIndex := i |} atEnd
      = Some {| prevChar := last; rest := []; endIndex := i + List.length s |}.
Proof.
  induction s as [|a s IH]; intros fuel min prev i Hall Hmin Hfuel;
    simpl in *.
  - destruct fuel as [|f]; [lia|]. assert (min = 0) by lia; subst.
    simpl. exists prev. rewrite Nat.add_0_r. reflexivity.
  - destruct fuel as [|f]; [lia|].
    apply andb_true_iff in Hall as [Ha Hs].
    destruct min as [|m]; simpl; unfold stepChar at 1; simpl; rewrite Ha.
    + assert (E : (S i =? i) = false) by (apply Nat.eqb_neq; lia).
      rewrite E. destruct (IH f 0 (Some a) (S i) Hs) as [last Hl]; try lia.
      rewrite Hl. exists last. f_equal. f_equal. lia.
    + destruct (IH f m (Some a) (S i) Hs) as [last Hl]; try lia.
      rewrite Hl. exists last. f_equal. f_equal. lia.
Qed.

Lemma greedy_run_blocked (ok : CodeUnit -> bool) :
  forall fuel s min prev i,
    forallb ok s = false ->
    RepeatMatcher fuel (stepChar ok) min None true
      {| prevChar := prev; rest := s; endIndex := i |} atEnd = None.
Proof.
  induction fuel as [|f IH]; intros s min prev i Hbad; [reflexivity|].
  destruct s as [|a s]; [discriminate|]. simpl in Hbad.
  assert (Hstep : forall m,
    stepChar ok {| prevChar := prev; rest := a :: s; endIndex := i |}
      (fun y =>
         if (m =? 0) && (endIndex y =? i) then None
         else RepeatMatcher f (stepChar ok) (pred m) None true y atEnd)
    = None).
  { intros m. unfold stepChar; simpl. destruct (ok a); [|reflexivity].
    simpl in Hbad. destruct ((m =? 0) && (S i =? i)); [reflexivity|].
    apply IH; assumption. }
  destruct min as [|m]; simpl.
  - pose proof (Hstep 0) as H0; simpl in H0. rewrite H0. reflexivity.
  - pose proof (Hstep (S m)) as H1; simpl in H1. exact H1.
Qed.

(** ** validateKey *)

Import DatabaseEncryption.

Lemma hexClass_isHex a : hexClass a = isHex a.
Proof.
  unfold hexClass, classHas, isHex; simpl.
  change (cu "0") with 48%N; change (cu "9") with 57%N.
  change (cu "a") with 97%N; change (cu "f") with 102%N.
  change (cu "A") with 65%N; change (cu "F") with 70%N.
  destruct (in_range 48 57 a), (in_range 97 102 a), (in_range 65 70 a);
    reflexivity.
Qed.

Lemma forallb_hexClass s : forallb hexClass s = forallb isHex s.
Proof.
  induction s as [|a s IH]; simpl; [reflexivity|].
  rewrite hexClass_isHex, IH. reflexivity.
Qed.

Lemma HEX_STRING_here prev i s :
  matchHere HEX_STRING prev i s =
  match prev with
  | Some _ => None
  | None =>
      match
        RepeatMatcher (S (1 + List.length s)) (stepChar hexClass) 1 None true
          {| prevChar := None; rest := s; endIndex := i |} atEnd
      with
      | Some y => Some (endIndex y - i)
      | None => None
      end
  end.
Proof. destruct prev; reflexivity. Qed.

Lemma HEX_STRING_not_later s : forall i p, searchFrom HEX_STRING i (Some p) s = false.
Proof.
  induction s as [|a s IH]; intros i p; cbn [searchFrom];
    rewrite HEX_STRING_here; [reflexivity | apply IH].
Qed.

Lemma HEX_STRING_test s :
  RegExp.test HEX_STRING s = forallb isHex s && (0 <? List.length s).
Proof.
  unfold RegExp.test. rewrite <- forallb_hexClass.
  destruct s as [|a s]; [reflexivity|].
  cbn [searchFrom]. rewrite HEX_STRING_here.
  destruct (forallb hexClass (a :: s)) eqn:Hall.
  - destruct (@greedy_run_to_end hexClass (a :: s) (S (1 + List.length (a :: s)))
                1 None 0 Hall) as [last Hl]; [simpl; lia | simpl; lia |].
    rewrite Hl. reflexivity.
  - rewrite greedy_run_blocked by assumption.
    apply HEX_STRING_not_later.
Qed.

(** [validateKey] accepts exactly the strings of 64 hexadecimal digits. *)
Lemma validateKey_spec key :
  validateKey key = (List.length key =? 64) && forallb isHex key.
Proof.
  unfold validateKey. change (DB_KEY_LENGTH * 2) with 64.
  destruct (List.length key =? 64) eqn:Hlen; simpl; [|reflexivity].
  rewrite HEX_STRING_test. apply Nat.eqb_eq in Hlen. rewrite Hlen. simpl.
  destruct (forallb isHex key); reflexivity.
Qed.

(** ** Fresh keys *)

Lemma hexDigit_isHex d : (d < 16)%N -> isHex (hexDigit d) = true.
Proof.
  intros Hd. unfold hexDigit, isHex, in_range.
  destruct (d <? 10)%N eqn:E.
  - apply N.ltb_lt in E.
    replace (48 <=? 48 + d)%N with true by (symmetry; apply N.leb_le; lia).
    replace (48 + d <=? 57)%N with true by (symmetry; apply N.leb_le; lia).
    reflexivity.
  - apply N.ltb_ge in E.
    replace (97 <=? 87 + d)%N with true by (symmetry; apply N.leb_le; lia).
    replace (87 + d <=? 102)%N with true by (symmetry; apply N.leb_le; lia).
    rewrite orb_true_r. reflexivity.
Qed.

Lemma toHex_isHex b :
  Forall (fun x => (x < 256)%N) b -> forallb isHex (toHex b) = true.
Proof.
  induction 1 as [|x b Hx _ IH]; simpl; [reflexivity|].
  rewrite IH, !hexDigit_isHex; [reflexivity| |].
  - apply N.mod_lt; discriminate.
  - apply N.Div0.div_lt_upper_bound. exact Hx.
Qed.

Lemma toHex_length b : List.length (toHex b) = 2 * List.length b.
Proof. induction b as [|x b IH]; simpl; [reflexivity | rewrite IH; lia]. Qed.

Lemma freshBytes_small st n : Forall (fun x => (x < 256)%N) (freshBytes st n).
Proof.
  unfold freshBytes. apply Forall_forall. intros x Hx.
  apply in_map_iff in Hx as (i & <- & _). apply N.mod_lt; discriminate.
Qed.

(** A generated key is well formed. *)
Lemma fresh_key_valid st :
  validateKey (toHex (freshBytes st DB_KEY_LENGTH)) = true.
Proof.
  rewrite validateKey_spec, toHex_length, toHex_isHex by apply freshBytes_small.
  unfold freshBytes. rewrite length_map, length_seq. reflexivity.
Qed.

Lemma generateEncryptionKey_run st :
  generateEncryptionKey st
  = (Ok (toHex (freshBytes st DB_KEY_LENGTH)), after_draw st DB_KEY_LENGTH).
Proof. reflexivity. Qed.

(** ** Key rotation *)

Lemma getOrCreateEncryptionKey_run st :
  getOrCreateEncryptionKey st =
  match lookup st ENCRYPTION_KEY_NAME with
  | Some k => (Ok k, initialized_state st)
  | None =>
      let fresh := toHex (freshBytes st DB_KEY_LENGTH) in
      (Ok fresh,
       snd (setSecret ENCRYPTION_KEY_NAME fresh
              (after_draw (initialized_state st) DB_KEY_LENGTH)))
  end.
Proof.
  unfold getOrCreateEncryptionKey, Keyring.try_catch, Keyring.bind.
  rewrite getSecret_run.
  destruct (lookup st ENCRYPTION_KEY_NAME) as [k|] eqn:Hk; unfold if_present.
  - rewrite (lookup_present _ _ Hk). reflexivity.
  - rewrite generateEncryptionKey_run.
    change (freshBytes (initialized_state st)) with (freshBytes st).
    cbv zeta.
    destruct (setSecret ENCRYPTION_KEY_NAME (toHex (freshBytes st DB_KEY_LENGTH))
                (after_draw (initialized_state st) DB_KEY_LENGTH))
      as [[[]|e] st'] eqn:Hset; try reflexivity.
    rewrite setSecret_run in Hset.
    destruct (_ && _ && _) in Hset; discriminate.
Qed.

Lemma rotateEncryptionKey_run st :
  rotateEncryptionKey st =
  match lookup st ENCRYPTION_KEY_NAME with
  | Some k =>
      (Ok {| oldKey := k; newKey := toHex (freshBytes st DB_KEY_LENGTH) |},
       after_draw (initialized_state st) DB_KEY_LENGTH)
  | None => (Throw cannot_rotate, initialized_state st)
  end.
Proof.
  unfold rotateEncryptionKey, Keyring.try_catch, Keyring.bind.
  rewrite getSecret_run.
  destruct (lookup st ENCRYPTION_KEY_NAME) as [k|] eqn:Hk; unfold if_present.
  - rewrite (lookup_present _ _ Hk), generateEncryptionKey_run. reflexivity.
  - reflexivity.
Qed.

Lemma confirmKeyRotation_run st k :
  confirmKeyRotation k st = setSecret ENCRYPTION_KEY_NAME k st.
Proof.
  unfold confirmKeyRotation, Keyring.try_catch, Keyring.bind, Keyring.ret.
  destruct (setSecret ENCRYPTION_KEY_NAME k st) as [[b|e] st'] eqn:Hset;
    [reflexivity|].
  rewrite setSecret_run in Hset. destruct (_ && _ && _) in Hset; discriminate.
Qed.

(** ** getOrCreateEncryptionKey *)

(** C4, as the code has it.  [getOrCreateEncryptionKey] returns the key it
    retrieves whenever there is one, without looking at its form; when
    there is none it returns a key made of the next 32 bytes of the random
    generator, which [validateKey] accepts, whatever becomes of storing it.
    [validateKey] accepts exactly the strings of 64 hexadecimal digits. *)
Theorem getOrCreate_stored_or_fresh :
  (forall st k,
     fst (getSecret ENCRYPTION_KEY_NAME st) = Ok (Some k) ->
     fst (getOrCreateEncryptionKey st) = Ok k)
  /\ (forall st,
        fst (getSecret ENCRYPTION_KEY_NAME st) = Ok None ->
        fst (getOrCreateEncryptionKey st)
        = Ok (toHex (freshBytes st DB_KEY_LENGTH))
        /\ validateKey (toHex (freshBytes st DB_KEY_LENGTH)) = true)
  /\ (forall key,
        validateKey key = true
        <-> List.length key = 64 /\ Forall (fun c => isHex c = true) key).
Proof.
  split; [|split].
  - intros st k. rewrite getSecret_run, getOrCreateEncryptionKey_run; simpl.
    intros H; injection H as ->. reflexivity.
  - intros st. rewrite getSecret_run, getOrCreateEncryptionKey_run; simpl.
    intros H; injection H as ->. split; [reflexivity | apply fresh_key_valid].
  - intros key. rewrite validateKey_spec, andb_true_iff, Nat.eqb_eq,
      forallb_forall, Forall_forall. reflexivity.
Qed.

Lemma getOrCreate_stored_or_fresh_witness :
  fst (getOrCreateEncryptionKey
         (fresh_process true (only DB_ENCRYPTION_KEY sample_token) nothing))
  = Ok sample_token
  /\ fst (getOrCreateEncryptionKey (fresh_process false nothing nothing))
     = Ok (toHex (freshBytes (fresh_process false nothing nothing) DB_KEY_LENGTH))
  /\ fst (getOrCreateEncryptionKey (fresh_process true nothing nothing))
     = Ok (toHex (freshBytes (fresh_process true nothing nothing) DB_KEY_LENGTH))
  /\ (List.length sample_token = 64
      /\ Forall (fun c => isHex c = true) sample_token).
Proof.
  destruct getOrCreate_stored_or_fresh as (A & B & C).
  split; [|split; [|split]].
  - apply A. reflexivity.
  - apply B. reflexivity.
  - apply B. reflexivity.
  - apply C. reflexivity.
Defined.

(** C4 as stated fails: a stored value that [validateKey] rejects is
    returned as the key, and no key is generated. *)
Lemma malformed_stored_key_is_returned :
  fst (getSecret ENCRYPTION_KEY_NAME malformed_env) = Ok (Some malformed_key)
  /\ validateKey malformed_key = false
  /\ fst (getOrCreateEncryptionKey malformed_env) = Ok malformed_key
  /\ drawn (snd (getOrCreateEncryptionKey malformed_env)) = drawn malformed_env.
Proof. repeat split. Qed.

(** ** validateToken *)

Import TokenAuth.

Lemma validateToken_run st token :
  validateToken token st =
  if negb (truthy (Str token)) then (Ok false, st)
  else
    match lookup st AUTH_TOKEN with
    | None => (Ok false, initialized_state st)
    | Some stored =>
        (timingSafeEqual (Buffer_from token) (Buffer_from stored),
         initialized_state st)
    end.
Proof.
  unfold validateToken. destruct (negb (truthy (Str token))); [reflexivity|].
  unfold Keyring.bind. rewrite getSecret_run.
  destruct (lookup st AUTH_TOKEN) as [stored|] eqn:Hs; unfold if_present;
    [|reflexivity].
  rewrite (lookup_present _ _ Hs).
  destruct (timingSafeEqual _ _); reflexivity.
Qed.

(** Whenever a non-empty candidate and the stored token differ in byte
    length, [validateToken] throws the RangeError of
    [crypto.timingSafeEqual]. *)
Lemma validateToken_unequal_lengths st token stored :
  truthy (Str token) = true ->
  fst (getSecret AUTH_TOKEN st) = Ok (Some stored) ->
  List.length (Buffer_from token) <> List.length (Buffer_from stored) ->
  fst (validateToken token st) = Throw RangeError.
Proof.
  intros Ht Hs Hlen. rewrite getSecret_run in Hs; simpl in Hs.
  injection Hs as Hs. rewrite validateToken_run, Ht, Hs; simpl.
  unfold timingSafeEqual. apply Nat.eqb_neq in Hlen. rewrite Hlen. reflexivity.
Qed.

(** C1, at a one-character candidate against a stored 64-character token:
    the call does not return [false], it throws a RangeError. *)
Theorem validateToken_short_candidate_throws :
  fst (getSecret AUTH_TOKEN with_token) = Ok (Some sample_token)
  /\ List.length (js "a") <> List.length sample_token
  /\ fst (validateToken (js "a") with_token) = Throw RangeError.
Proof.
  split; [reflexivity | split; [discriminate|]].
  apply validateToken_unequal_lengths with (stored := sample_token);
    [reflexivity | reflexivity | discriminate].
Qed.

(** ** The custom-pattern compiler *)

Import TagStripping.

Lemma compileStep_accepted host compiled pattern :
  compileStep host compiled pattern = compiled ++ accepted host pattern.
Proof.
  unfold compileStep, accepted, admissible. rewrite Nat.leb_antisym.
  destruct (truthy (Str pattern)), (truthy (Str (trim pattern))),
    (MAX_PATTERN_LENGTH <? List.length pattern);
    cbn [negb orb andb]; rewrite ?app_nil_r; try reflexivity.
  destruct (RegExp_new host pattern flags_g); rewrite ?app_nil_r; reflexivity.
Qed.

Lemma compile_loop host ps : forall compiled,
  fold_left (compileStep host) ps compiled
  = compiled ++ flat_map (accepted host) ps.
Proof.
  induction ps as [|p ps IH]; intros compiled; simpl.
  - symmetry; apply app_nil_r.
  - rewrite IH, compileStep_accepted, <- app_assoc. reflexivity.
Qed.

Lemma accepted_length host p : List.length (accepted host p) <= 1.
Proof.
  unfold accepted. destruct (admissible p); simpl; [|lia].
  destruct (RegExp_new host p flags_g); simpl; lia.
Qed.

Lemma flat_map_accepted_length host ps :
  List.length (flat_map (accepted host) ps) <= List.length ps.
Proof.
  induction ps as [|p ps IH]; simpl; [lia|].
  rewrite length_app. pose proof (accepted_length host p). lia.
Qed.

(** C8.  [compileUserPatterns] is total and returns, in order, the regular
    expressions of those among the first 50 pattern strings that are not
    blank, are at most 200 characters long and compile.  Hence: no pattern
    longer than 200 characters is compiled; a pattern the parser rejects
    is dropped while every admissible pattern among the first 50 that
    compiles is kept, wherever it stands in the list; at most 50 regular
    expressions are returned, and nothing from position 51 on is looked
    at. *)
Theorem compileUserPatterns_limits (host : Host) (patterns : list JsString) :
  let compiled := compileUserPatterns host patterns in
  compiled = flat_map (accepted host) (firstn MAX_CUSTOM_PATTERNS patterns)
  /\ List.length compiled <= MAX_CUSTOM_PATTERNS
  /\ (forall R, In R compiled ->
        exists p, In p (firstn MAX_CUSTOM_PATTERNS patterns)
                  /\ List.length p <= MAX_PATTERN_LENGTH
                  /\ RegExp_new host p flags_g = Ok R)
  /\ (forall p R, In p (firstn MAX_CUSTOM_PATTERNS patterns) ->
        admissible p = true ->
        RegExp_new host p flags_g = Ok R -> In R compiled)
  /\ (forall extra,
        MAX_CUSTOM_PATTERNS <= List.length patterns ->
        compileUserPatterns host (patterns ++ extra) = compiled).
Proof.
  assert (E : forall ps, compileUserPatterns host ps
                         = flat_map (accepted host) (firstn MAX_CUSTOM_PATTERNS ps)).
  { intros ps. unfold compileUserPatterns. rewrite compile_loop. reflexivity. }
  cbv zeta. rewrite E. repeat split.
  - etransitivity; [apply flat_map_accepted_length|]. apply firstn_le_length.
  - intros R HR. apply in_flat_map in HR as (p & Hp & HR). exists p.
    unfold accepted in HR. destruct (admissible p) eqn:Ha; [|destruct HR].
    destruct (RegExp_new host p flags_g) as [R'|] eqn:HR'; [|destruct HR].
    destruct HR as [<-|[]]. split; [assumption|]. split; [|reflexivity].
    unfold admissible in Ha. apply andb_true_iff in Ha as [_ Ha].
    apply Nat.leb_le, Ha.
  - intros p R Hp Ha HR. apply in_flat_map. exists p. split; [assumption|].
    unfold accepted. rewrite Ha, HR. left; reflexivity.
  - intros extra Hlen. rewrite E, firstn_app.
    replace (MAX_CUSTOM_PATTERNS - List.length patterns) with 0 by lia.
    rewrite firstn_O, app_nil_r. reflexivity.
Qed.

Lemma compileUserPatterns_limits_witness :
  In {| source := seqs (map RChar (js "xyz")); flags := flags_g |}
     (compileUserPatterns (literal_host (Str [])) sample_patterns)
  /\ compileUserPatterns (literal_host (Str []))
       (repeat (js "ab") 50 ++ [js "zz"])
     = compileUserPatterns (literal_host (Str [])) (repeat (js "ab") 50).
Proof.
  split.
  - destruct (compileUserPatterns_limits (literal_host (Str [])) sample_patterns)
      as (_ & _ & _ & keep & _).
    apply (keep (js "xyz")); [simpl; tauto | reflexivity | reflexivity].
  - destruct (compileUserPatterns_limits (literal_host (Str []))
                (repeat (js "ab") 50)) as (_ & _ & _ & _ & beyond).
    apply beyond. rewrite repeat_length. apply Nat.le_refl.
Defined.

(** ** The redaction loop *)

Lemma String_match_some s R ms : String_match s R = Some ms -> 1 <= List.length ms.
Proof.
  unfold String_match. destruct (matchedTexts (pieces R s)); [discriminate|].
  intros H; injection H as <-. simpl; lia.
Qed.

Lemma redactStep_count acc p :
  snd acc <= snd (redactStep acc p)
  /\ (snd (redactStep acc p) = snd acc -> redactStep acc p = acc).
Proof.
  destruct acc as [redacted count]. unfold redactStep.
  destruct (String_match redacted (clone p)) as [ms|] eqn:Hm; simpl.
  - apply String_match_some in Hm. split; [lia | intros; lia].
  - split; [lia | reflexivity].
Qed.

Lemma redactLoop_count ps : forall acc,
  snd acc <= snd (fold_left redactStep ps acc)
  /\ (snd (fold_left redactStep ps acc) = snd acc ->
      fold_left redactStep ps acc = acc).
Proof.
  induction ps as [|p ps IH]; intros acc; simpl; [split; [lia | reflexivity]|].
  destruct (IH (redactStep acc p)) as [Hle Heq].
  destruct (redactStep_count acc p) as [Hle1 Heq1].
  split; [lia|]. intros H.
  assert (H1 : snd (redactStep acc p) = snd acc) by lia.
  rewrite Heq by lia. apply Heq1, H1.
Qed.

(** The empty string takes the early return; on it the loop could differ,
    since a custom pattern may match the empty string. *)
Lemma redactSecrets_empty host :
  redactSecrets host (Str []) = Ok {| redacted := Str []; count := 0 |}.
Proof. reflexivity. Qed.

Lemma redactSecrets_string host s :
  s <> [] ->
  redactSecrets host (Str s)
  = Ok {| redacted := Str (fst (redactLoop (getRedactionPatterns host) s));
          count := snd (redactLoop (getRedactionPatterns host) s) |}.
Proof.
  intros Hs. unfold redactSecrets. destruct s as [|a s]; [congruence|]. simpl.
  destruct (redactLoop (getRedactionPatterns host) (a :: s)); reflexivity.
Qed.

Lemma zero_count_keeps_text host s r :
  redactSecrets host (Str s) = Ok r -> count r = 0 -> redacted r = Str s.
Proof.
  destruct s as [|a s].
  - rewrite redactSecrets_empty. intros H _; injection H as <-. reflexivity.
  - rewrite redactSecrets_string by discriminate.
    intros H; injection H as <-. cbn [count redacted]. intros Hc.
    destruct (redactLoop_count (getRedactionPatterns host) (a :: s, 0))
      as [_ Heq].
    unfold redactLoop in *. f_equal. exact (f_equal fst (Heq Hc)).
Qed.

(** C10.  On a string, a count of 0 means that the text returned is the
    input itself: no marker, no trimming, no other change. *)
Theorem zero_count_means_unchanged (host : Host) (s : JsString) (r : Redaction) :
  redactSecrets host (Str s) = Ok r ->
  count r = 0 ->
  redacted r = Str s.
Proof. apply zero_count_keeps_text. Qed.

Lemma zero_count_means_unchanged_witness :
  redactSecrets defaultHost (Str (js "This is just normal text with no secrets"))
  = Ok {| redacted := Str (js "This is just normal text with no secrets");
          count := 0 |}
  /\ redacted {| redacted := Str (js "This is just normal text with no secrets");
                 count := 0 |}
     = Str (js "This is just normal text with no secrets").
Proof.
  split; [vm_compute; reflexivity|].
  apply (@zero_count_means_unchanged defaultHost
           (js "This is just normal text with no secrets"));
    [vm_compute; reflexivity | reflexivity].
Defined.

(** ** Inputs that are not strings *)

(** The guard of [redactSecrets].  On an input that is not a string it
    returns without throwing, with count 0; what it returns as the text
    is the empty string when the input is falsy ([null], [undefined],
    [false], [0], [NaN]), and is the input itself otherwise. *)
Lemma redactSecrets_on_non_string (host : Host) (v : Value) :
  is_string v = false ->
  redactSecrets host v
  = Ok {| redacted := if truthy v then v else Str []; count := 0 |}.
Proof.
  intros H. unfold redactSecrets, or_else. rewrite H, orb_true_r. reflexivity.
Qed.

Lemma redactSecrets_on_non_string_witness :
  redactSecrets defaultHost Null = Ok {| redacted := Str []; count := 0 |}
  /\ redactSecrets defaultHost Undefined
     = Ok {| redacted := Str []; count := 0 |}.
Proof.
  split.
  - apply (@redactSecrets_on_non_string defaultHost Null). reflexivity.
  - apply (@redactSecrets_on_non_string defaultHost Undefined). reflexivity.
Defined.

(** C6.  The code at inputs that are not strings: the tag-stripping
    functions have no guard and throw a TypeError on [null] and
    [undefined], where [redactSecrets] beside them returns an empty text
    and the doc comment of [stripMemoryTagsFromJson] promises a result
    for invalid content; and [redactSecrets] hands a number back as the
    redacted text, which is declared a string. *)
Lemma non_string_inputs_mishandled :
  stripMemoryTagsFromPrompt defaultHost Null = Throw TypeError
  /\ stripMemoryTagsFromJson defaultHost Undefined = Throw TypeError
  /\ redactSecrets defaultHost (Number 123)
     = Ok {| redacted := Number 123; count := 0 |}.
Proof. repeat split. Qed.

(** ** Matching and replacing *)

Lemma clone_id R : clone R = R.
Proof. destruct R; reflexivity. Qed.

Lemma matchedSpans_length ps :
  List.length (matchedSpans ps) = List.length (matchedTexts ps).
Proof.
  induction ps as [|[c|i m] ps IH]; simpl; [reflexivity | exact IH | now rewrite IH].
Qed.

(** Without a match the pieces are the characters of the input. *)
Lemma scan_nothing R repl s : forall i prev,
  matchedTexts (scan R 0 i prev s) = [] ->
  rebuild repl (scan R 0 i prev s) = s.
Proof.
  induction s as [|ch s IH]; intros i prev; cbn [scan];
    destruct (matchHere R prev i _) as [[|k]|]; cbn [matchedTexts rebuild];
    try discriminate; try reflexivity.
  intros H. rewrite IH by exact H. reflexivity.
Qed.

Lemma replace_without_match s R repl :
  String_match s R = None -> String_replace s R repl = s.
Proof.
  unfold String_match, String_replace, pieces. intros H.
  apply scan_nothing. destruct (matchedTexts (scan R 0 0 None s));
    [reflexivity | discriminate].
Qed.

Lemma redactStep_spec s n R :
  redactStep (s, n) R
  = (String_replace s R REDACTED,
     n + List.length (matchedSpans (pieces R s))).
Proof.
  unfold redactStep. rewrite clone_id, matchedSpans_length.
  destruct (String_match s R) as [ms|] eqn:Hm.
  - unfold String_match in Hm.
    destruct (matchedTexts (pieces R s)); [discriminate|].
    injection Hm as <-. reflexivity.
  - rewrite replace_without_match by exact Hm.
    unfold String_match in Hm.
    destruct (matchedTexts (pieces R s)); [|discriminate].
    simpl. rewrite Nat.add_0_r. reflexivity.
Qed.

Lemma redactLoop_sequential ps : forall s n,
  snd (fold_left redactStep ps (s, n)) = n + sequentialCount ps s.
Proof.
  induction ps as [|R ps IH]; intros s n; cbn [fold_left sequentialCount snd];
    [lia|].
  rewrite redactStep_spec, IH. lia.
Qed.

Lemma no_span_no_text ps : matchedSpans ps = [] -> matchedTexts ps = [].
Proof.
  intros H. apply length_zero_iff_nil.
  rewrite <- matchedSpans_length, H. reflexivity.
Qed.

Lemma sequentialCount_nothing ps : forall s,
  spansAcross ps s = [] -> sequentialCount ps s = 0.
Proof.
  induction ps as [|R ps IH]; intros s H; [reflexivity|].
  unfold spansAcross in H. cbn [flat_map] in H.
  apply app_eq_nil in H as [HR Hps]. cbn [sequentialCount].
  rewrite HR. unfold String_replace, pieces.
  rewrite scan_nothing by (apply no_span_no_text, HR).
  apply IH, Hps.
Qed.

(** ** The count of redactSecrets *)

(** C7, as the code has it.  On a non-empty string the count is the
    number of matches found when the patterns are applied one after the
    other, each to the text as the patterns before it have rewritten it;
    on the empty string it is 0.  In particular the count is 0 when no
    pattern matches the content. *)
Theorem count_is_sequential (host : Host) (C : JsString) (r : Redaction) :
  redactSecrets host (Str C) = Ok r ->
  count r = match C with
            | [] => 0
            | _ :: _ => sequentialCount (getRedactionPatterns host) C
            end
  /\ (spansAcross (getRedactionPatterns host) C = [] -> count r = 0).
Proof.
  intros H.
  assert (E : count r = match C with
                        | [] => 0
                        | _ :: _ => sequentialCount (getRedactionPatterns host) C
                        end).
  { destruct C as [|a C].
    - rewrite redactSecrets_empty in H. injection H as <-. reflexivity.
    - rewrite redactSecrets_string in H by discriminate.
      injection H as <-. cbn [count]. unfold redactLoop.
      apply (redactLoop_sequential (getRedactionPatterns host) (a :: C) 0). }
  split; [exact E|].
  intros Hnone. rewrite E. destruct C; [reflexivity|].
  apply sequentialCount_nothing, Hnone.
Qed.

Lemma count_is_sequential_witness :
  (redactSecrets defaultHost (Str sk_sample)
   = Ok {| redacted := Str (js "key: [REDACTED]"); count := 1 |}
   /\ 1 = sequentialCount (getRedactionPatterns defaultHost) sk_sample)
  /\ (redactSecrets defaultHost (Str (js "no secret here"))
      = Ok {| redacted := Str (js "no secret here"); count := 0 |}
      /\ spansAcross (getRedactionPatterns defaultHost) (js "no secret here") = []
      /\ count {| redacted := Str (js "no secret here"); count := 0 |} = 0).
Proof.
  split; (split; [vm_compute; reflexivity|]).
  - apply (@count_is_sequential defaultHost sk_sample
             {| redacted := Str (js "key: [REDACTED]"); count := 1 |}).
    vm_compute; reflexivity.
  - split; [vm_compute; reflexivity|].
    apply (@count_is_sequential defaultHost (js "no secret here")
             {| redacted := Str (js "no secret here"); count := 0 |});
      vm_compute; reflexivity.
Defined.

(** C7 as stated fails: the content below has two matches, of two
    patterns, that do not overlap, and the count is 1.  Rewriting the
    first match removes the [aws] that the sixth pattern looks ahead for. *)
Lemma count_differs_from_matches_in_content :
  spansAcross (getRedactionPatterns defaultHost) aws_sample = [(41, 67); (0, 40)]
  /\ nonOverlapping (spansAcross (getRedactionPatterns defaultHost) aws_sample)
     = true
  /\ redactSecrets defaultHost (Str aws_sample)
     = Ok {| redacted :=
               Str (js "AAAAAAAAAAAAAAAAAAAAAAAAAAAAAAAAAAAAAAAA [REDACTED]");
             count := 1 |}.
Proof. repeat split; vm_compute; reflexivity. Qed.

(** ** trim *)

Lemma trimStart_idem s : trimStart (trimStart s) = trimStart s.
Proof.
  induction s as [|c s IH]; simpl; [reflexivity|].
  destruct (isWhiteSpace c) eqn:Hc; [exact IH|]. simpl. rewrite Hc. reflexivity.
Qed.

Lemma trimStart_keeps_last l c :
  isWhiteSpace c = false -> exists l', trimStart (l ++ [c]) = l' ++ [c].
Proof.
  intros Hc. induction l as [|d l IH]; simpl.
  - rewrite Hc. exists []. reflexivity.
  - destruct (isWhiteSpace d); [exact IH|]. exists (d :: l). reflexivity.
Qed.

Lemma trimStart_trimEnd s :
  trimStart s = s -> trimStart (trimEnd s) = trimEnd s.
Proof.
  unfold trimEnd. destruct s as [|c s]; [reflexivity|]. simpl.
  destruct (isWhiteSpace c) eqn:Hc.
  - intros H. exfalso.
    assert (Hlen : List.length (trimStart s) <= List.length s).
    { clear. induction s as [|d s IH]; simpl; [lia|].
      destruct (isWhiteSpace d); simpl; lia. }
    rewrite H in Hlen. simpl in Hlen. lia.
  - intros _. destruct (@trimStart_keeps_last (rev s) c Hc) as [l' ->].
    rewrite rev_app_distr. simpl. rewrite Hc. reflexivity.
Qed.

Lemma trimEnd_idem s : trimEnd (trimEnd s) = trimEnd s.
Proof. unfold trimEnd. rewrite rev_involutive, trimStart_idem. reflexivity. Qed.

Lemma trim_idem s : trim (trim s) = trim s.
Proof.
  unfold trim. rewrite trimStart_trimEnd by apply trimStart_idem.
  apply trimEnd_idem.
Qed.

(** ** Running the engine on its own output *)

Lemma stripTagsInternal_string host s :
  stripTagsInternal host (Str s) =
  let s1 := String_replace s CONTEXT_SPAN [] in
  let s2 := String_replace s1 PRIVATE_SPAN [] in
  let s3 := String_replace s2 SECRET_SPAN REDACTED in
  match redactSecrets host (Str s3) with
  | Ok r => match redacted r with
            | Str s4 => Ok (trim s4)
            | _ => Throw TypeError
            end
  | Throw e => Throw e
  end.
Proof. reflexivity. Qed.


(** ** Literals and lazy runs *)

Lemma seqs_cons ic r rs x k :
  compile ic (seqs (r :: rs)) x k
  = compile ic r x (fun y => compile ic (seqs rs) y k).
Proof. destruct rs; reflexivity. Qed.

Lemma startsWith_app p z : startsWith p (p ++ z) = true.
Proof.
  induction p as [|ch p IH]; simpl; [reflexivity|].
  rewrite N.eqb_refl. exact IH.
Qed.

Lemma literal_hit p : forall prev z i k,
  compile false (seqs (map RChar p))
    {| prevChar := prev; rest := p ++ z; endIndex := i |} k
  = k {| prevChar := lastOr prev p; rest := z;
         endIndex := i + List.length p |}.
Proof.
  induction p as [|ch p IH]; intros prev z i k.
  - simpl. rewrite Nat.add_0_r. reflexivity.
  - cbn [map]. rewrite seqs_cons. cbn [compile]. unfold stepChar.
    cbn [rest app prevChar endIndex]. unfold canonicalize.
    cbn [andb]. rewrite N.eqb_refl, IH. cbn [List.length lastOr fold_left].
    f_equal. f_equal. lia.
Qed.

Lemma literal_miss p : forall prev s i k,
  startsWith p s = false ->
  compile false (seqs (map RChar p))
    {| prevChar := prev; rest := s; endIndex := i |} k = None.
Proof.
  induction p as [|ch p IH]; intros prev s i k H; [discriminate|].
  cbn [map]. rewrite seqs_cons. cbn [compile]. unfold stepChar.
  cbn [rest]. destruct s as [|d s]; [reflexivity|].
  unfold canonicalize. cbn [andb]. simpl in H.
  destruct (d =? ch)%N; [|reflexivity]. apply IH. exact H.
Qed.

Lemma anyChar_accepts a : xorb false (classHas false [CSpace; CNotSpace] a) = true.
Proof. unfold classHas; simpl. destruct (isWhiteSpace a); reflexivity. Qed.

(** A lazy run of a class that accepts everything stops at the first
    place where what follows it matches. *)
Lemma lazy_run_to_literal (ok : CodeUnit -> bool) (c z : JsString) :
  (forall a, ok a = true) ->
  forall b fuel prev i,
    List.length b < fuel ->
    (forall u v, b = u ++ v -> v <> [] ->
                 startsWith c (v ++ c ++ z) = false) ->
    RepeatMatcher fuel (stepChar ok) 0 None false
      {| prevChar := prev; rest := b ++ c ++ z; endIndex := i |}
      (fun y => compile false (seqs (map RChar c)) y (fun y' => Some y'))
    = Some {| prevChar := lastOr (lastOr prev b) c; rest := z;
              endIndex := i + List.length b + List.length c |}.
Proof.
  intros Hok. induction b as [|a b IH]; intros fuel prev i Hfuel Hfree;
    (destruct fuel as [|f]; [simpl in Hfuel; lia|]); cbn [RepeatMatcher].
  - cbn [Nat.eqb negb app]. rewrite literal_hit.
    rewrite Nat.add_0_r. reflexivity.
  - cbn [Nat.eqb negb]. rewrite literal_miss.
    2:{ apply (Hfree [] (a :: b)); [reflexivity | discriminate]. }
    unfold stepChar at 1. cbn [rest app]. rewrite Hok.
    cbn [endIndex andb].
    assert (E : (S i =? i) = false) by (apply Nat.eqb_neq; lia).
    rewrite E. cbn [pred option_map].
    rewrite IH.
    + cbn [lastOr fold_left List.length]. f_equal. f_equal. lia.
    + simpl in Hfuel. lia.
    + intros u v Hb Hv. apply (Hfree (a :: u) v); [rewrite Hb; reflexivity | exact Hv].
Qed.

(** ** Occurrences *)

Lemma occurs_suffix p u v : occurs p (u ++ v) = false -> occurs p v = false.
Proof.
  induction u as [|a u IH]; [trivial|]. simpl.
  intros H. apply orb_false_iff in H as [_ H]. apply IH, H.
Qed.

Lemma occurs_head p s : occurs p s = false -> startsWith p s = false.
Proof.
  destruct s; simpl; intros H; apply orb_false_iff in H as [H _]; exact H.
Qed.

(** A prefix that would reach a character it does not contain lies within
    what comes before that character. *)
Lemma startsWith_before q c : forall v w,
  forallb (fun d => negb (d =? c)%N) q = true ->
  startsWith q (v ++ c :: w) = true -> startsWith q v = true.
Proof.
  induction q as [|d q IH]; intros v w Hq H; [reflexivity|].
  simpl in Hq. apply andb_true_iff in Hq as [Hd Hq].
  destruct v as [|e v]; simpl in *.
  - apply andb_true_iff in H as [H _]. rewrite N.eqb_sym, H in Hd. discriminate.
  - apply andb_true_iff in H as [He H]. rewrite He. simpl.
    apply (IH v w Hq H).
Qed.

(** No occurrence of [p] begins inside a text free of [p] that is
    followed by [p]. *)
Lemma no_straddling p t z :
  headUnique p = true -> occurs p t = false ->
  forall u v, t = u ++ v -> v <> [] -> startsWith p (v ++ p ++ z) = false.
Proof.
  intros Hp Ht u v -> Hv. destruct p as [|c q]; [discriminate|].
  simpl in Hp. apply occurs_suffix, occurs_head in Ht.
  destruct v as [|e v]; [congruence|]. simpl in *.
  destruct (e =? c)%N; [|reflexivity]. simpl in *.
  destruct (startsWith q (v ++ c :: q ++ z)) eqn:E; [|reflexivity].
  rewrite (startsWith_before _ _ _ _ Hp E) in Ht. discriminate.
Qed.

(** ** One tag span *)

Lemma span_here_miss o c prev i s :
  startsWith o s = false -> matchHere (spanRegex o c) prev i s = None.
Proof.
  intros H. unfold matchHere, spanRegex. cbn [source flags ignoreCase flags_g].
  rewrite seqs_cons, literal_miss by exact H. reflexivity.
Qed.

Lemma span_here_hit o c prev i b z :
  (forall u v, b = u ++ v -> v <> [] -> startsWith c (v ++ c ++ z) = false) ->
  matchHere (spanRegex o c) prev i (o ++ b ++ c ++ z)
  = Some (List.length (o ++ b ++ c)).
Proof.
  intros Hfree. unfold matchHere, spanRegex.
  cbn [source flags ignoreCase flags_g].
  rewrite seqs_cons, literal_hit, seqs_cons.
  cbn [compile lazyStar anyChar rest seqs].
  rewrite (@lazy_run_to_literal _ c z anyChar_accepts b);
    [|rewrite length_app; lia|exact Hfree].
  cbn [endIndex]. f_equal. rewrite !length_app. lia.
Qed.

(** ** Scanning *)

Lemma scan_skip R m : forall z i prev,
  scan R (List.length m) i prev (m ++ z)
  = scan R 0 (i + List.length m) (lastOr prev m) z.
Proof.
  induction m as [|a m IH]; intros z i prev; cbn [List.length app].
  - rewrite Nat.add_0_r. reflexivity.
  - cbn [scan]. rewrite IH. cbn [lastOr fold_left]. f_equal. lia.
Qed.

Lemma scan_hit R m z i prev :
  m <> [] ->
  matchHere R prev i (m ++ z) = Some (List.length m) ->
  scan R 0 i prev (m ++ z)
  = Matched i m :: scan R 0 (i + List.length m) (lastOr prev m) z.
Proof.
  intros Hm H. destruct m as [|a m]; [congruence|].
  cbn [app] in *. cbn [scan]. rewrite H. cbn [List.length].
  rewrite scan_skip. cbn [firstn]. rewrite firstn_app, firstn_all, Nat.sub_diag.
  cbn [firstn lastOr fold_left]. rewrite app_nil_r.
  f_equal. f_equal. lia.
Qed.

Lemma scan_misses R t : forall z i prev,
  (forall u v p j, t = u ++ v -> v <> [] -> matchHere R p j (v ++ z) = None) ->
  scan R 0 i prev (t ++ z)
  = map Kept t ++ scan R 0 (i + List.length t) (lastOr prev t) z.
Proof.
  induction t as [|a t IH]; intros z i prev Hmiss; cbn [app map List.length].
  - rewrite Nat.add_0_r. reflexivity.
  - cbn [scan].
    assert (H0 : matchHere R prev i (a :: t ++ z) = None)
      by (apply (Hmiss [] (a :: t) prev i eq_refl); discriminate).
    rewrite H0, IH.
    + cbn [lastOr fold_left]. f_equal. f_equal. f_equal. lia.
    + intros u v p j Ht Hv. apply (Hmiss (a :: u) v); [rewrite Ht; reflexivity | exact Hv].
Qed.

Lemma rebuild_app repl ps qs :
  rebuild repl (ps ++ qs) = rebuild repl ps ++ rebuild repl qs.
Proof.
  induction ps as [|[ch|i m] ps IH]; simpl; rewrite ?IH, ?app_assoc; reflexivity.
Qed.

Lemma rebuild_kept repl t : rebuild repl (map Kept t) = t.
Proof. induction t as [|a t IH]; simpl; [reflexivity | now rewrite IH]. Qed.

(** Replacing the spans of well-delimited content. *)
Lemma replace_spans o c repl segments tail :
  headUnique o = true -> headUnique c = true ->
  wellDelimited o c segments tail ->
  forall i prev,
    rebuild repl (scan (spanRegex o c) 0 i prev (assemble o c segments tail))
    = outside repl segments tail.
Proof.
  intros Ho Hc [Hsegs Htail].
  induction segments as [|[t b] segments IH]; intros i prev; cbn [assemble outside].
  - rewrite <- (app_nil_r tail) at 1.
    rewrite scan_misses.
    + rewrite rebuild_app, rebuild_kept. cbn [scan].
      rewrite span_here_miss by (destruct o; [discriminate | reflexivity]).
      apply app_nil_r.
    + intros u v p j Ht Hv. apply span_here_miss.
      rewrite app_nil_r. rewrite Ht in Htail.
      apply occurs_suffix, occurs_head in Htail. exact Htail.
  - inversion Hsegs as [|? ? [Ht Hb] Hrest]; subst. cbn [fst snd] in *.
    rewrite scan_misses.
    2:{ intros u v p j Hu Hv. apply span_here_miss.
        apply (@no_straddling o t _ Ho Ht u v Hu Hv). }
    rewrite rebuild_app, rebuild_kept. f_equal.
    replace (o ++ b ++ c ++ assemble o c segments tail)
      with ((o ++ b ++ c) ++ assemble o c segments tail)
      by (rewrite <- !app_assoc; reflexivity).
    rewrite scan_hit.
    + cbn [rebuild]. f_equal. apply IH. exact Hrest.
    + destruct o; [discriminate | discriminate].
    + rewrite <- !app_assoc. apply span_here_hit.
      apply (@no_straddling c b _ Hc Hb).
Qed.

(** ** Private spans *)

Lemma replace_private_spans segments tail :
  wellDelimited PRIVATE_OPEN PRIVATE_CLOSE segments tail ->
  String_replace (assemble PRIVATE_OPEN PRIVATE_CLOSE segments tail)
    PRIVATE_SPAN []
  = outside [] segments tail.
Proof.
  intros H. unfold String_replace, pieces.
  change PRIVATE_SPAN with (spanRegex PRIVATE_OPEN PRIVATE_CLOSE).
  apply replace_spans; [reflexivity | reflexivity | exact H].
Qed.

(** C5, as the code has it.  Let the content be text interleaved with
    private spans, where no text part contains [<private>] and no span
    body contains [</private>], and let no other detector match: no
    context span in the content, no secret span and no pattern match in
    what is left outside the private spans.  Then the result is exactly
    what is left outside the private spans, every character of it in
    order, with the white space at its two ends trimmed. *)
Theorem private_spans_removed (host : Host)
    (segments : list (JsString * JsString)) (tail : JsString) :
  let C := assemble PRIVATE_OPEN PRIVATE_CLOSE segments tail in
  let kept := outside [] segments tail in
  wellDelimited PRIVATE_OPEN PRIVATE_CLOSE segments tail ->
  String_match C CONTEXT_SPAN = None ->
  String_match kept SECRET_SPAN = None ->
  (exists t, redactSecrets host (Str kept)
             = Ok {| redacted := t; count := 0 |}) ->
  stripMemoryTagsFromPrompt host (Str C) = Ok (trim kept)
  /\ stripMemoryTagsFromJson host (Str C) = Ok (trim kept).
Proof.
  intros C kept Hwf Hctx Hsec [t Hred].
  assert (Ht : t = Str kept)
    by (apply (zero_count_keeps_text _ _ Hred); reflexivity).
  subst t.
  unfold stripMemoryTagsFromPrompt, stripMemoryTagsFromJson.
  rewrite stripTagsInternal_string. cbv zeta.
  rewrite (@replace_without_match C CONTEXT_SPAN [] Hctx).
  unfold C. rewrite (replace_private_spans Hwf). fold kept.
  rewrite (@replace_without_match kept SECRET_SPAN REDACTED Hsec).
  rewrite Hred. split; reflexivity.
Qed.

Lemma private_spans_removed_witness :
  assemble PRIVATE_OPEN PRIVATE_CLOSE [(js "public ", js "x")] (js " text")
  = js "public <private>x</private> text"
  /\ stripMemoryTagsFromPrompt defaultHost
       (Str (js "public <private>x</private> text"))
     = Ok (js "public  text")
  /\ stripMemoryTagsFromJson defaultHost
       (Str (js "public <private>x</private> text"))
     = Ok (js "public  text").
Proof.
  split; [reflexivity|].
  apply (@private_spans_removed defaultHost [(js "public ", js "x")] (js " text")).
  - split; [repeat constructor | reflexivity].
  - reflexivity.
  - reflexivity.
  - eexists. vm_compute. reflexivity.
Defined.

(** C5 as stated fails: the white space at the two ends of the content
    lies outside every private span and is not preserved. *)
Lemma outer_whitespace_is_trimmed :
  wellDelimited PRIVATE_OPEN PRIVATE_CLOSE [(js " a", js "x")] (js "b ")
  /\ assemble PRIVATE_OPEN PRIVATE_CLOSE [(js " a", js "x")] (js "b ")
     = js " a<private>x</private>b "
  /\ outside [] [(js " a", js "x")] (js "b ") = js " ab "
  /\ String_match (js " a<private>x</private>b ") CONTEXT_SPAN = None
  /\ String_match (js " ab ") SECRET_SPAN = None
  /\ redactSecrets defaultHost (Str (js " ab "))
     = Ok {| redacted := Str (js " ab "); count := 0 |}
  /\ stripMemoryTagsFromPrompt defaultHost (Str (js " a<private>x</private>b "))
     = Ok (js "ab")
  /\ js "ab" <> js " ab ".
Proof.
  split; [split; [repeat constructor | reflexivity]|].
  repeat split; try (vm_compute; reflexivity). discriminate.
Qed.

(* ------------------------------------------------------------------ *)
(** * Further properties *)

(** ** The keyring: storing, looking up, deleting *)

Lemma SecretKey_eqb_eq a b : SecretKey_eqb a b = true <-> a = b.
Proof. destruct a, b; simpl; split; intros H; try discriminate; reflexivity. Qed.

Lemma SecretKey_eqb_refl a : SecretKey_eqb a a = true.
Proof. apply SecretKey_eqb_eq. reflexivity. Qed.

Lemma SecretKey_eqb_neq a b : a <> b -> SecretKey_eqb a b = false.
Proof.
  intros H. destruct (SecretKey_eqb a b) eqn:E; [|reflexivity].
  apply SecretKey_eqb_eq in E. contradiction.
Qed.

Lemma initialized_state_idem st :
  initialized_state (initialized_state st) = initialized_state st.
Proof. reflexivity. Qed.

Lemma setSecret_result st key value :
  setSecret key value st =
  if truthy (Str value) && usable st && negb (keychain_rejects st)
  then (Ok true, store_entry key value (initialized_state st))
  else (Ok false, initialized_state st).
Proof. apply setSecret_run. Qed.

Lemma hasSecret_run st key :
  hasSecret key st = (Ok (present (lookup st key)), initialized_state st).
Proof.
  unfold hasSecret, Keyring.bind at 1. rewrite initialize_run.
  unfold lookup. rewrite <- (usable_initialized_state st).
  change (keychain_rejects st) with (keychain_rejects (initialized_state st)).
  change (keychain st) with (keychain (initialized_state st)).
  change (environ st) with (environ (initialized_state st)).
  generalize (initialized_state st); intros [inst rej kc env ent dr kt av ini].
  run_M.
  destruct (av && kt); simpl.
  - destruct rej; simpl; [reflexivity|].
    destruct (present (kc key)) eqn:Ekc; simpl; [rewrite Ekc; reflexivity|].
    destruct (present (env key)) eqn:Eenv; simpl; [rewrite Eenv|]; reflexivity.
  - destruct (present (env key)) eqn:Eenv; simpl; [rewrite Eenv|]; reflexivity.
Qed.

Lemma deleteSecret_run st key :
  deleteSecret key st =
  if usable st && negb (keychain_rejects st) then
    match keychain st key with
    | Some _ => (Ok true, remove_entry key (initialized_state st))
    | None => (Ok false, initialized_state st)
    end
  else (Ok false, initialized_state st).
Proof.
  unfold deleteSecret, Keyring.bind at 1. rewrite initialize_run.
  rewrite <- (usable_initialized_state st).
  change (keychain_rejects st) with (keychain_rejects (initialized_state st)).
  change (keychain st) with (keychain (initialized_state st)).
  generalize (initialized_state st); intros [inst rej kc env ent dr kt av ini].
  unfold keytar_deletePassword. run_M.
  destruct (av && kt); simpl; [|reflexivity].
  destruct rej; simpl; [reflexivity|].
  destruct (kc key); reflexivity.
Qed.

Lemma lookup_store_entry st key value k :
  usable st = true -> keychain_rejects st = false ->
  truthy (Str value) = true ->
  lookup (store_entry key value (initialized_state st)) k
  = if SecretKey_eqb k key then Some value else lookup st k.
Proof.
  intros Hu Hr Hv. rewrite <- (lookup_initialized_state st k).
  unfold lookup, usable. cbn [store_entry initialized keytarAvailable keytar
    keychain_rejects keychain environ initialized_state].
  rewrite Hr. unfold usable in Hu.
  destruct (SecretKey_eqb k key).
  - change (present (Some value)) with (truthy (Str value)). rewrite Hv.
    destruct (initialized st), (keytarAvailable st), (keytar st),
      (keytar_installed st); simpl in *; try discriminate; reflexivity.
  - reflexivity.
Qed.

Lemma lookup_remove_entry st key k :
  usable st = true -> keychain_rejects st = false ->
  lookup (remove_entry key (initialized_state st)) k
  = if SecretKey_eqb k key
    then (if present (environ st k) then environ st k else None)
    else lookup st k.
Proof.
  intros Hu Hr. rewrite <- (lookup_initialized_state st k).
  unfold lookup, usable. cbn [remove_entry initialized keytarAvailable keytar
    keychain_rejects keychain environ initialized_state].
  rewrite Hr. unfold usable in Hu.
  destruct (SecretKey_eqb k key).
  - destruct (initialized st), (keytarAvailable st), (keytar st),
      (keytar_installed st); simpl in *; try discriminate; reflexivity.
  - reflexivity.
Qed.

Lemma setSecret_stored st key value :
  fst (setSecret key value st) = Ok true ->
  truthy (Str value) = true /\ usable st = true /\ keychain_rejects st = false
  /\ snd (setSecret key value st)
     = store_entry key value (initialized_state st).
Proof.
  rewrite setSecret_result.
  destruct (truthy (Str value)); [|discriminate].
  destruct (usable st); [|discriminate].
  destruct (keychain_rejects st); [discriminate|].
  intros _. repeat split.
Qed.

Lemma setSecret_not_stored st key value :
  fst (setSecret key value st) = Ok false ->
  snd (setSecret key value st) = initialized_state st.
Proof.
  rewrite setSecret_result.
  destruct (truthy (Str value) && usable st && negb (keychain_rejects st));
    [discriminate | reflexivity].
Qed.

(** X1.  A secret that [setSecret] reports stored is the one [getSecret]
    returns for that name afterwards, and the secrets of the other names
    are found as before. *)
Theorem stored_secret_is_found (st : State) (key : SecretKey) (value : JsString) :
  fst (setSecret key value st) = Ok true ->
  fst (getSecret key (snd (setSecret key value st))) = Ok (Some value)
  /\ (forall other, other <> key ->
        fst (getSecret other (snd (setSecret key value st)))
        = fst (getSecret other st)).
Proof.
  intros H. destruct (setSecret_stored _ _ _ H) as (Hv & Hu & Hr & ->).
  split.
  - rewrite getSecret_run. cbn [fst].
    rewrite lookup_store_entry, SecretKey_eqb_refl by assumption. reflexivity.
  - intros other Hne. rewrite !getSecret_run. cbn [fst].
    rewrite lookup_store_entry, SecretKey_eqb_neq by assumption. reflexivity.
Qed.

Lemma stored_secret_is_found_witness :
  fst (setSecret GEMINI_API_KEY (js "g-key")
         (fresh_process true nothing (only AUTH_TOKEN sample_token))) = Ok true
  /\ fst (getSecret GEMINI_API_KEY
            (snd (setSecret GEMINI_API_KEY (js "g-key")
                    (fresh_process true nothing (only AUTH_TOKEN sample_token)))))
     = Ok (Some (js "g-key"))
  /\ fst (getSecret AUTH_TOKEN
            (snd (setSecret GEMINI_API_KEY (js "g-key")
                    (fresh_process true nothing (only AUTH_TOKEN sample_token)))))
     = Ok (Some sample_token).
Proof.
  split; [reflexivity|].
  destruct (@stored_secret_is_found
              (fresh_process true nothing (only AUTH_TOKEN sample_token))
              GEMINI_API_KEY (js "g-key") eq_refl) as [Hsame Hother].
  split; [exact Hsame|].
  rewrite (Hother AUTH_TOKEN) by discriminate. reflexivity.
Defined.

(** X2.  [setSecret] never throws and never writes the environment.  When
    it reports failure, which it does for an empty value and whenever the
    keyring is not in use, the keyring entries are untouched and every
    lookup finds what it found before: nothing is stored elsewhere. *)
Theorem failed_store_changes_nothing (st : State) (key : SecretKey)
    (value : JsString) :
  (exists b, fst (setSecret key value st) = Ok b)
  /\ environ (snd (setSecret key value st)) = environ st
  /\ (fst (setSecret key value st) = Ok false ->
      keychain (snd (setSecret key value st)) = keychain st
      /\ forall k, fst (getSecret k (snd (setSecret key value st)))
                   = fst (getSecret k st))
  /\ fst (setSecret key [] st) = Ok false
  /\ (usable st = false -> fst (setSecret key value st) = Ok false).
Proof.
  split; [|split; [|split; [|split]]].
  - rewrite setSecret_result. destruct (_ && _ && _); eexists; reflexivity.
  - rewrite setSecret_result. destruct (_ && _ && _); reflexivity.
  - intros H. rewrite (setSecret_not_stored _ _ _ H). split; [reflexivity|].
    intros k. rewrite !getSecret_run. cbn [fst].
    rewrite lookup_initialized_state. reflexivity.
  - rewrite setSecret_result. reflexivity.
  - intros Hu. rewrite setSecret_result, Hu, andb_false_r. reflexivity.
Qed.

Lemma failed_store_changes_nothing_witness :
  fst (setSecret AUTH_TOKEN sample_token
         (fresh_process false nothing (only AUTH_TOKEN (js "from-env"))))
  = Ok false
  /\ fst (getSecret AUTH_TOKEN
            (snd (setSecret AUTH_TOKEN sample_token
                    (fresh_process false nothing (only AUTH_TOKEN (js "from-env"))))))
     = Ok (Some (js "from-env")).
Proof.
  destruct (failed_store_changes_nothing
              (fresh_process false nothing (only AUTH_TOKEN (js "from-env")))
              AUTH_TOKEN sample_token) as (_ & _ & Hfail & _ & Hoff).
  split; [apply Hoff; reflexivity|].
  destruct (Hfail (Hoff eq_refl)) as [_ Hsame].
  rewrite Hsame. reflexivity.
Defined.

(** X3.  Where [getSecret] looks.  A non-empty keyring entry wins over the
    environment variable of the same name; when the keyring call rejects
    the result is [null] even if the environment variable is set; when
    the keyring is not in use, or holds no non-empty entry, the
    environment variable is returned if it is non-empty.  The result is
    never the empty string, and a lookup changes no entry. *)
Theorem getSecret_precedence (st : State) (key : SecretKey) :
  (forall v, usable st = true -> keychain_rejects st = false ->
             keychain st key = Some v -> v <> [] ->
             fst (getSecret key st) = Ok (Some v))
  /\ (usable st = true -> keychain_rejects st = true ->
      fst (getSecret key st) = Ok None)
  /\ (usable st = false
      \/ (keychain_rejects st = false /\ present (keychain st key) = false) ->
      fst (getSecret key st)
      = Ok (if present (environ st key) then environ st key else None))
  /\ (forall v, fst (getSecret key st) = Ok (Some v) -> v <> [])
  /\ keychain (snd (getSecret key st)) = keychain st
  /\ environ (snd (getSecret key st)) = environ st.
Proof.
  rewrite getSecret_run. cbn [fst snd].
  split; [|split; [|split; [|split; [|split]]]]; try reflexivity.
  - intros v Hu Hr Hk Hv. unfold lookup. rewrite Hu, Hr, Hk.
    destruct v; [congruence | reflexivity].
  - intros Hu Hr. unfold lookup. rewrite Hu, Hr. reflexivity.
  - intros [Hu | [Hr Hk]]; unfold lookup.
    + rewrite Hu. reflexivity.
    + rewrite Hr, Hk. destruct (usable st); reflexivity.
  - intros v H. injection H as H. apply lookup_present in H.
    destruct v; [discriminate | discriminate].
Qed.

Lemma getSecret_precedence_witness :
  fst (getSecret AUTH_TOKEN
         (fresh_process true (only AUTH_TOKEN sample_token)
            (only AUTH_TOKEN (js "from-env"))))
  = Ok (Some sample_token)
  /\ fst (getSecret AUTH_TOKEN
            (fresh_process false (only AUTH_TOKEN sample_token)
               (only AUTH_TOKEN (js "from-env"))))
     = Ok (Some (js "from-env")).
Proof.
  split.
  - destruct (getSecret_precedence
                (fresh_process true (only AUTH_TOKEN sample_token)
                   (only AUTH_TOKEN (js "from-env"))) AUTH_TOKEN)
      as (Hring & _).
    apply Hring; [reflexivity | reflexivity | reflexivity | discriminate].
  - destruct (getSecret_precedence
                (fresh_process false (only AUTH_TOKEN sample_token)
                   (only AUTH_TOKEN (js "from-env"))) AUTH_TOKEN)
      as (_ & _ & Henv & _).
    rewrite Henv by (left; reflexivity). reflexivity.
Defined.

(** X4.  [hasSecret] answers [true] exactly when [getSecret] would return
    a secret, and leaves the same state behind. *)
Theorem hasSecret_agrees_with_getSecret (st : State) (key : SecretKey) :
  hasSecret key st
  = (Ok (found (fst (getSecret key st))), snd (getSecret key st)).
Proof.
  rewrite hasSecret_run, getSecret_run. cbn [fst snd found].
  destruct (lookup st key) as [v|] eqn:E; [|reflexivity].
  change (present (Some v)) with (truthy (Str v)).
  rewrite (lookup_present _ _ E). reflexivity.
Qed.

Lemma deleteSecret_deleted st key :
  fst (deleteSecret key st) = Ok true ->
  usable st = true /\ keychain_rejects st = false
  /\ snd (deleteSecret key st) = remove_entry key (initialized_state st).
Proof.
  rewrite deleteSecret_run.
  destruct (usable st); [|discriminate].
  destruct (keychain_rejects st); [discriminate|]. simpl.
  destruct (keychain st key); [|discriminate]. intros _. repeat split.
Qed.

Lemma deleteSecret_not_deleted st key :
  fst (deleteSecret key st) = Ok false ->
  snd (deleteSecret key st) = initialized_state st.
Proof.
  rewrite deleteSecret_run.
  destruct (usable st && negb (keychain_rejects st)); [|reflexivity].
  destruct (keychain st key); [discriminate | reflexivity].
Qed.

(** X5.  [deleteSecret] removes the keyring entry and nothing else.  After
    a successful deletion the keyring holds no entry of that name, the
    environment is as before, so that [getSecret] now returns the
    environment variable of that name if it is non-empty, and the other
    names are found as before.  A failed deletion changes no entry.
    Deleting again always reports [false], and [deleteSecret] never
    throws. *)
Theorem deleteSecret_removes_the_keyring_entry_only (st : State)
    (key : SecretKey) :
  (fst (deleteSecret key st) = Ok true ->
   keychain (snd (deleteSecret key st)) key = None
   /\ environ (snd (deleteSecret key st)) = environ st
   /\ fst (getSecret key (snd (deleteSecret key st)))
      = Ok (if present (environ st key) then environ st key else None)
   /\ (forall other, other <> key ->
         fst (getSecret other (snd (deleteSecret key st)))
         = fst (getSecret other st)))
  /\ (fst (deleteSecret key st) = Ok false ->
      keychain (snd (deleteSecret key st)) = keychain st
      /\ environ (snd (deleteSecret key st)) = environ st)
  /\ fst (deleteSecret key (snd (deleteSecret key st))) = Ok false
  /\ (exists b, fst (deleteSecret key st) = Ok b).
Proof.
  split; [|split; [|split]].
  - intros H. destruct (deleteSecret_deleted _ _ H) as (Hu & Hr & ->).
    split; [|split; [|split]].
    + cbn [remove_entry keychain]. rewrite SecretKey_eqb_refl. reflexivity.
    + reflexivity.
    + rewrite getSecret_run. cbn [fst].
      rewrite lookup_remove_entry, SecretKey_eqb_refl by assumption.
      reflexivity.
    + intros other Hne. rewrite !getSecret_run. cbn [fst].
      rewrite lookup_remove_entry, SecretKey_eqb_neq by assumption.
      reflexivity.
  - intros H. rewrite (deleteSecret_not_deleted _ _ H). split; reflexivity.
  - rewrite (deleteSecret_run st).
    destruct (usable st && negb (keychain_rejects st)) eqn:E.
    + destruct (keychain st key) eqn:Ek; cbn [snd]; rewrite deleteSecret_run.
      * unfold usable. cbn [remove_entry initialized_state initialized
          keytarAvailable keytar keychain_rejects keychain].
        rewrite SecretKey_eqb_refl.
        match goal with
        | |- fst (if ?c then _ else _) = _ => destruct c; reflexivity
        end.
      * change (usable (initialized_state st))
          with (keytarAvailable (initialized_state st)
                && keytar (initialized_state st)).
        rewrite usable_initialized_state.
        change (keychain_rejects (initialized_state st))
          with (keychain_rejects st).
        change (keychain (initialized_state st)) with (keychain st).
        rewrite E, Ek. reflexivity.
    + cbn [snd]. rewrite deleteSecret_run.
      change (usable (initialized_state st))
        with (keytarAvailable (initialized_state st)
              && keytar (initialized_state st)).
      rewrite usable_initialized_state.
      change (keychain_rejects (initialized_state st))
        with (keychain_rejects st).
      rewrite E. reflexivity.
  - rewrite deleteSecret_run.
    destruct (usable st && negb (keychain_rejects st));
      [destruct (keychain st key)|]; eexists; reflexivity.
Qed.

Lemma deleteSecret_removes_the_keyring_entry_only_witness :
  fst (deleteSecret AUTH_TOKEN
         (fresh_process true (only AUTH_TOKEN sample_token)
            (only AUTH_TOKEN (js "from-env")))) = Ok true
  /\ fst (getSecret AUTH_TOKEN
            (snd (deleteSecret AUTH_TOKEN
                    (fresh_process true (only AUTH_TOKEN sample_token)
                       (only AUTH_TOKEN (js "from-env"))))))
     = Ok (Some (js "from-env"))
  /\ keychain
       (snd (deleteSecret AUTH_TOKEN (fresh_process false nothing nothing)))
     = nothing.
Proof.
  split; [reflexivity|]. split.
  - destruct (deleteSecret_removes_the_keyring_entry_only
                (fresh_process true (only AUTH_TOKEN sample_token)
                   (only AUTH_TOKEN (js "from-env"))) AUTH_TOKEN)
      as (Hdel & _).
    destruct (Hdel eq_refl) as (_ & _ & Hget & _). rewrite Hget. reflexivity.
  - destruct (deleteSecret_removes_the_keyring_entry_only
                (fresh_process false nothing nothing) AUTH_TOKEN)
      as (_ & Hkeep & _).
    destruct (Hkeep eq_refl) as [Hk _]. exact Hk.
Defined.

(** ** The keyring: the availability probe *)

Lemma isKeytarAvailable_run st :
  isKeytarAvailable st
  = (Ok (keytarAvailable (initialized_state st)), initialized_state st).
Proof.
  unfold isKeytarAvailable, Keyring.bind. rewrite initialize_run. reflexivity.
Qed.

Lemma initialized_state_with_installed b st :
  initialized st = true ->
  initialized_state (with_installed b st) = with_installed b st.
Proof.
  intros H. unfold initialized_state, with_installed; simpl. rewrite H.
  reflexivity.
Qed.

Lemma lookup_with_installed b st key :
  initialized st = true -> lookup (with_installed b st) key = lookup st key.
Proof.
  intros H. unfold lookup, usable; simpl. rewrite H. reflexivity.
Qed.

Lemma manager_initialized_state st :
  initialized st = true -> manager (initialized_state st) = manager st.
Proof. intros H. unfold manager, initialized_state; simpl. rewrite H. reflexivity. Qed.

Lemma listLoop_manager keys : forall acc st,
  initialized st = true ->
  manager (snd (listLoop keys acc st)) = manager st
  /\ keytar_installed (snd (listLoop keys acc st)) = keytar_installed st.
Proof.
  induction keys as [|key keys IH]; intros acc st Hini; cbn [listLoop].
  - split; reflexivity.
  - unfold Keyring.bind. rewrite hasSecret_run.
    destruct (IH (if present (lookup st key) then acc ++ [key] else acc)
                 (initialized_state st) eq_refl) as [Hm Hi].
    rewrite Hm, Hi. split; [apply manager_initialized_state, Hini | reflexivity].
Qed.

(** Every call leaves the manager as [initialize] alone would. *)
Lemma after_manager op st :
  manager (after op st) = manager (initialized_state st)
  /\ keytar_installed (after op st) = keytar_installed st.
Proof.
  destruct op as [key value|key|key|key| |]; unfold after.
  - rewrite setSecret_result.
    destruct (truthy (Str value) && usable st && negb (keychain_rejects st));
      split; reflexivity.
  - rewrite getSecret_run. split; reflexivity.
  - rewrite deleteSecret_run.
    destruct (usable st && negb (keychain_rejects st));
      [destruct (keychain st key)|]; split; reflexivity.
  - rewrite hasSecret_run. split; reflexivity.
  - rewrite isKeytarAvailable_run. split; reflexivity.
  - unfold listSecrets, Keyring.bind. rewrite initialize_run.
    apply (listLoop_manager allKeys [] (initialized_state st) eq_refl).
Qed.

Lemma isKeytarAvailable_initialized st :
  initialized st = true -> fst (isKeytarAvailable st) = Ok (keytarAvailable st).
Proof.
  intros H. rewrite isKeytarAvailable_run. cbn [fst initialized_state
    keytarAvailable]. rewrite H. reflexivity.
Qed.

Lemma afterAll_manager events : forall st,
  initialized st = true -> manager (afterAll events st) = manager st.
Proof.
  induction events as [|e events IH]; intros st H; [reflexivity|].
  unfold afterAll. cbn [fold_left]. fold (afterAll events (happen st e)).
  assert (Hm : manager (happen st e) = manager st).
  { destruct e as [op|b]; cbn [happen]; [|reflexivity].
    destruct (after_manager op st) as [Hm _]. rewrite Hm.
    apply manager_initialized_state. exact H. }
  rewrite IH; [exact Hm|].
  unfold manager in Hm. injection Hm as _ _ Hi. rewrite Hi. exact H.
Qed.

(** X6.  The keyring is probed by the first call only.  A call on a
    manager that is not initialized decides the availability by whether
    keytar can be imported, and every call leaves the manager
    initialized.  Once the first call has completed, no call probes
    again: whatever calls follow, and whether keytar is installed or
    removed in between, [isKeytarAvailable] answers what the first call
    found, and installing or removing keytar does not change what a
    lookup finds.  The first call sets [initialized] before it awaits the
    import: a call that runs while the import is awaited answers with the
    field as it was, false in a new manager, and looks secrets up in the
    environment only; the calls made once the import has settled answer
    by whether keytar could be imported. *)
Theorem keyring_probe_is_cached (st : State) (op : Operation)
    (events : list Event) :
  (initialized st = false ->
   initialize st = initialize_from_import (snd (initialize_until_import st))
   /\ fst (isKeytarAvailable st) = Ok (keytar_installed st))
  /\ initialized (after op st) = true
  /\ (initialized st = false ->
      let done := afterAll events (after op st) in
      fst (isKeytarAvailable done) = Ok (keytar_installed st)
      /\ forall b k, fst (getSecret k (with_installed b done))
                     = fst (getSecret k done))
  /\ (initialized st = false ->
      let waiting := snd (initialize_until_import st) in
      fst (isKeytarAvailable (after op waiting)) = Ok (keytarAvailable st)
      /\ (keytarAvailable st = false ->
          forall k, fst (getSecret k waiting)
                    = Ok (if present (environ st k) then environ st k
                          else None))
      /\ fst (isKeytarAvailable
                (snd (initialize_from_import (after op waiting))))
         = Ok (keytar_installed st)).
Proof.
  split; [|split; [|split]].
  - intros H. split.
    + destruct st as [inst rej kc env ent dr kt av ini]. simpl in H. subst ini.
      unfold initialize. run_M. reflexivity.
    + rewrite isKeytarAvailable_run. cbn [fst initialized_state
        keytarAvailable]. rewrite H. reflexivity.
  - destruct (after_manager op st) as [Hm _]. unfold manager in Hm.
    injection Hm as _ _ Hi. exact Hi.
  - intros H done.
    destruct (after_manager op st) as [Hm _]. unfold manager in Hm.
    injection Hm as _ Hav Hi.
    cbn [initialized_state keytarAvailable initialized] in Hav, Hi.
    rewrite H in Hav.
    pose proof (@afterAll_manager events (after op st) Hi) as Hd.
    fold done in Hd. unfold manager in Hd. injection Hd as _ Hav' Hi'.
    rewrite Hi in Hi'. rewrite Hav in Hav'.
    split.
    + rewrite (isKeytarAvailable_initialized _ Hi'). rewrite Hav'.
      reflexivity.
    + intros b k. rewrite !getSecret_run. cbn [fst].
      rewrite lookup_with_installed by exact Hi'. reflexivity.
  - intros H waiting.
    assert (Hw : manager waiting = (keytar st, keytarAvailable st, true)
                 /\ keytar_installed waiting = keytar_installed st
                 /\ environ waiting = environ st)
      by (repeat split).
    destruct Hw as (Hmw & Hiw & Hew).
    assert (Hini : initialized waiting = true) by reflexivity.
    destruct (after_manager op waiting) as [Hm Hi].
    rewrite manager_initialized_state in Hm by exact Hini.
    rewrite Hmw in Hm. unfold manager in Hm. injection Hm as Hkt Hav Hin.
    split; [|split].
    + rewrite isKeytarAvailable_initialized by exact Hin. rewrite Hav.
      reflexivity.
    + intros Hno k. rewrite getSecret_run. cbn [fst]. unfold lookup, usable.
      rewrite Hini. change (keytarAvailable waiting) with (keytarAvailable st).
      rewrite Hno. cbn [andb]. rewrite Hew.
      destruct (present (environ st k)); reflexivity.
    + rewrite Hiw in Hi. revert Hi Hin.
      generalize (after op waiting).
      intros [inst rej kc env ent dr kt av ini]. cbn [keytar_installed
        initialized]. intros -> ->.
      unfold initialize_from_import. run_M.
      destruct (keytar_installed st); reflexivity.
Qed.

Lemma keyring_probe_is_cached_witness :
  let st := fresh_process true (only AUTH_TOKEN sample_token) nothing in
  let waiting := snd (initialize_until_import st) in
  let done :=
    afterAll [Installed false; Call (HasSecret AUTH_TOKEN); Installed true]
      (after (GetSecret AUTH_TOKEN) st) in
  fst (isKeytarAvailable done) = Ok true
  /\ fst (getSecret AUTH_TOKEN (with_installed false done))
     = fst (getSecret AUTH_TOKEN done)
  /\ fst (isKeytarAvailable (after (GetSecret AUTH_TOKEN) waiting)) = Ok false
  /\ fst (getSecret AUTH_TOKEN waiting) = Ok None
  /\ fst (isKeytarAvailable
            (snd (initialize_from_import
                    (after (GetSecret AUTH_TOKEN) waiting)))) = Ok true.
Proof.
  cbv zeta.
  destruct (keyring_probe_is_cached
              (fresh_process true (only AUTH_TOKEN sample_token) nothing)
              (GetSecret AUTH_TOKEN)
              [Installed false; Call (HasSecret AUTH_TOKEN); Installed true])
    as (_ & _ & Hdone & Hwindow).
  destruct (Hdone eq_refl) as (Hanswer & Hlookup).
  destruct (Hwindow eq_refl) as (Hfirst & Henv & Hlater).
  split; [exact Hanswer|]. split; [exact (Hlookup false AUTH_TOKEN)|].
  split; [exact Hfirst|]. split; [|exact Hlater].
  exact (Henv eq_refl AUTH_TOKEN).
Defined.

(** ** The keyring: listing *)

Lemma listLoop_run keys : forall acc st,
  fst (listLoop keys acc st)
  = Ok (acc ++ filter (fun k => present (lookup st k)) keys).
Proof.
  induction keys as [|key keys IH]; intros acc st; cbn [listLoop filter].
  - rewrite app_nil_r. reflexivity.
  - unfold Keyring.bind. rewrite hasSecret_run, IH.
    rewrite (filter_ext _ (fun k => present (lookup st k)))
      by (intros k; rewrite lookup_initialized_state; reflexivity).
    destruct (present (lookup st key)); [rewrite <- app_assoc|]; reflexivity.
Qed.

(** X7.  [listSecrets] returns, in the fixed order of the four names and
    without repetition, exactly the names for which [getSecret] would
    return a secret. *)
Theorem listSecrets_lists_what_is_found (st : State) :
  fst (listSecrets st)
  = Ok (filter (fun k => found (fst (getSecret k st))) allKeys)
  /\ (forall names, fst (listSecrets st) = Ok names ->
        NoDup names
        /\ forall k, In k names <-> exists v, fst (getSecret k st) = Ok (Some v)).
Proof.
  assert (E : fst (listSecrets st)
              = Ok (filter (fun k => found (fst (getSecret k st))) allKeys)).
  { unfold listSecrets, Keyring.bind. rewrite initialize_run, listLoop_run.
    cbn [app]. f_equal. apply filter_ext. intros k.
    rewrite lookup_initialized_state, getSecret_run. cbn [fst found].
    destruct (lookup st k) as [v|] eqn:Ek; [|reflexivity].
    change (present (Some v)) with (truthy (Str v)).
    apply (lookup_present _ _ Ek). }
  split; [exact E|].
  intros names H. rewrite E in H.
  assert (Hn : names = filter (fun k => found (fst (getSecret k st))) allKeys)
    by congruence.
  clear H. subst names. split.
  - apply NoDup_filter. unfold allKeys.
    repeat constructor; simpl; intuition discriminate.
  - intros k. rewrite filter_In. split.
    + intros [_ Hf]. destruct (fst (getSecret k st)) as [[v|]|];
        try discriminate. exists v. reflexivity.
    + intros [v Hv]. split; [destruct k; simpl; tauto|].
      rewrite Hv. reflexivity.
Qed.

Lemma listSecrets_lists_what_is_found_witness :
  fst (listSecrets (fresh_process true (only AUTH_TOKEN sample_token)
                      (only GEMINI_API_KEY (js "g-key"))))
  = Ok [GEMINI_API_KEY; AUTH_TOKEN]
  /\ NoDup [GEMINI_API_KEY; AUTH_TOKEN].
Proof.
  split; [reflexivity|].
  destruct (listSecrets_lists_what_is_found
              (fresh_process true (only AUTH_TOKEN sample_token)
                 (only GEMINI_API_KEY (js "g-key")))) as [_ H].
  apply (H [GEMINI_API_KEY; AUTH_TOKEN]). reflexivity.
Defined.

(** ** Buffers of ASCII strings *)

Lemma bytesEqual_eq a : forall b, bytesEqual a b = true <-> a = b.
Proof.
  induction a as [|x a IH]; intros [|y b]; simpl; split; intros H;
    try discriminate; try reflexivity.
  - apply andb_true_iff in H as [Hx Hab]. apply N.eqb_eq in Hx.
    apply IH in Hab. congruence.
  - injection H as -> ->. rewrite N.eqb_refl. apply IH. reflexivity.
Qed.

Lemma timingSafeEqual_true a b : timingSafeEqual a b = Ok true <-> a = b.
Proof.
  unfold timingSafeEqual. split.
  - destruct (List.length a =? List.length b); [|discriminate].
    intros H. apply bytesEqual_eq. congruence.
  - intros ->. rewrite Nat.eqb_refl. f_equal. apply bytesEqual_eq. reflexivity.
Qed.

Lemma timingSafeEqual_same_length a b :
  List.length a = List.length b ->
  timingSafeEqual a b = Ok (bytesEqual a b).
Proof. intros H. unfold timingSafeEqual. rewrite H, Nat.eqb_refl. reflexivity. Qed.

(** The encoding of a string that begins with a code unit above 127
    begins with a byte above 127. *)
Lemma Buffer_from_high c s :
  isAscii c = false ->
  exists b rest, Buffer_from (c :: s) = b :: rest /\ isAscii b = false.
Proof.
  unfold isAscii. intros Hc. cbn [Buffer_from]. rewrite Hc.
  assert (Hhigh : forall x y : N, (128 <= x)%N -> ((x + y <? 128)%N = false))
    by (intros x y Hx; apply N.ltb_ge; lia).
  destruct (c <? 2048)%N.
  { eexists _, _. split; [reflexivity|]. apply Hhigh. lia. }
  destruct (isHighSurrogate c).
  { destruct s as [|d s].
    - eexists _, _. split; reflexivity.
    - destruct (isLowSurrogate d).
      + eexists _, _. split; [reflexivity|]. apply Hhigh. lia.
      + eexists _, _. split; reflexivity. }
  destruct (isLowSurrogate c).
  { eexists _, _. split; reflexivity. }
  eexists _, _. split; [reflexivity|]. apply Hhigh. lia.
Qed.

Lemma Buffer_from_ascii s : forallb isAscii s = true -> Buffer_from s = s.
Proof.
  induction s as [|c s IH]; [reflexivity|]. cbn [forallb].
  intros H. apply andb_true_iff in H as [Hc Hs]. unfold isAscii in Hc.
  cbn [Buffer_from]. rewrite Hc, IH by exact Hs. reflexivity.
Qed.

(** Only an ASCII string encodes to ASCII bytes, and then to itself. *)
Lemma Buffer_from_ascii_only c : forall t,
  forallb isAscii t = true -> Buffer_from c = t -> c = t.
Proof.
  induction c as [|x c IH]; intros t Ht H.
  - simpl in H. exact H.
  - destruct (isAscii x) eqn:Hx.
    + cbn [Buffer_from] in H. unfold isAscii in Hx. rewrite Hx in H.
      destruct t as [|y t]; [discriminate|]. injection H as -> H.
      simpl in Ht. apply andb_true_iff in Ht as [_ Ht].
      f_equal. apply IH; assumption.
    + destruct (@Buffer_from_high x c Hx) as (b & rest & Hb & Hhigh).
      rewrite Hb in H. subst t. simpl in Ht. rewrite Hhigh in Ht.
      discriminate.
Qed.

Lemma hexDigit_lower d : (d < 16)%N -> isLowerHex (hexDigit d) = true.
Proof.
  intros Hd. unfold hexDigit, isLowerHex, in_range.
  destruct (d <? 10)%N eqn:E.
  - apply N.ltb_lt in E.
    replace (48 <=? 48 + d)%N with true by (symmetry; apply N.leb_le; lia).
    replace (48 + d <=? 57)%N with true by (symmetry; apply N.leb_le; lia).
    reflexivity.
  - apply N.ltb_ge in E.
    replace (97 <=? 87 + d)%N with true by (symmetry; apply N.leb_le; lia).
    replace (87 + d <=? 102)%N with true by (symmetry; apply N.leb_le; lia).
    apply orb_true_r.
Qed.

Lemma toHex_lower b :
  Forall (fun x => (x < 256)%N) b -> forallb isLowerHex (toHex b) = true.
Proof.
  induction 1 as [|x b Hx _ IH]; simpl; [reflexivity|].
  rewrite IH, !hexDigit_lower; [reflexivity| |].
  - apply N.mod_lt; discriminate.
  - apply N.Div0.div_lt_upper_bound. exact Hx.
Qed.

Lemma lowerHex_ascii s : forallb isLowerHex s = true -> forallb isAscii s = true.
Proof.
  rewrite !forallb_forall. intros H c Hc. specialize (H c Hc).
  unfold isLowerHex, in_range in H. unfold isAscii. apply N.ltb_lt.
  apply orb_true_iff in H as [H|H]; apply andb_true_iff in H as [_ H];
    apply N.leb_le in H; lia.
Qed.

Lemma fresh_token_format st :
  List.length (toHex (freshBytes st TokenAuth.TOKEN_BYTES)) = 64
  /\ forallb isLowerHex (toHex (freshBytes st TokenAuth.TOKEN_BYTES)) = true.
Proof.
  split.
  - rewrite toHex_length. unfold freshBytes. rewrite length_map, length_seq.
    reflexivity.
  - apply toHex_lower, freshBytes_small.
Qed.

(** ** Tokens: creating, validating, regenerating *)

Lemma lookup_after_setSecret s key value k :
  lookup (snd (setSecret key value s)) k
  = if truthy (Str value) && usable s && negb (keychain_rejects s)
    then (if SecretKey_eqb k key then Some value else lookup s k)
    else lookup s k.
Proof.
  rewrite setSecret_result.
  destruct (truthy (Str value)) eqn:Hv; cbn [andb];
    [|apply lookup_initialized_state].
  destruct (usable s) eqn:Hu; cbn [andb]; [|apply lookup_initialized_state].
  destruct (keychain_rejects s) eqn:Hr; cbn [negb];
    [apply lookup_initialized_state|].
  cbn [snd]. apply lookup_store_entry; assumption.
Qed.

Lemma getOrCreateToken_run st :
  getOrCreateToken st =
  match lookup st AUTH_TOKEN with
  | Some t => (Ok t, initialized_state st)
  | None =>
      let fresh := toHex (freshBytes st TOKEN_BYTES) in
      (Ok fresh,
       snd (setSecret AUTH_TOKEN fresh
              (after_draw (initialized_state st) TOKEN_BYTES)))
  end.
Proof.
  unfold getOrCreateToken, Keyring.bind. rewrite getSecret_run.
  destruct (lookup st AUTH_TOKEN) as [t|] eqn:Ht; unfold if_present.
  - rewrite (lookup_present _ _ Ht). reflexivity.
  - change (generateToken (initialized_state st))
      with (Ok (toHex (freshBytes st TOKEN_BYTES)),
            after_draw (initialized_state st) TOKEN_BYTES).
    cbv beta iota zeta.
    destruct (setSecret AUTH_TOKEN (toHex (freshBytes st TOKEN_BYTES))
                (after_draw (initialized_state st) TOKEN_BYTES))
      as [[b|e] st'] eqn:Hset; [reflexivity|].
    rewrite setSecret_result in Hset.
    destruct (_ && _ && _) in Hset; discriminate.
Qed.

Lemma regenerateToken_run st :
  regenerateToken st =
  (Ok (toHex (freshBytes st TOKEN_BYTES)),
   snd (setSecret AUTH_TOKEN (toHex (freshBytes st TOKEN_BYTES))
          (after_draw st TOKEN_BYTES))).
Proof.
  unfold regenerateToken, Keyring.bind.
  change (generateToken st)
    with (Ok (toHex (freshBytes st TOKEN_BYTES)), after_draw st TOKEN_BYTES).
  cbv beta iota zeta.
  destruct (setSecret AUTH_TOKEN (toHex (freshBytes st TOKEN_BYTES))
              (after_draw st TOKEN_BYTES)) as [[b|e] st'] eqn:Hset;
    [reflexivity|].
  rewrite setSecret_result in Hset.
  destruct (_ && _ && _) in Hset; discriminate.
Qed.

(** X8.  Tokens come out of the generator as 64 characters out of
    [0-9a-f]: this holds for the token [getOrCreateToken] returns when
    none can be retrieved and for every token [regenerateToken] returns.
    When a token can be retrieved, [getOrCreateToken] returns that token
    and draws no random byte. *)
Theorem generated_tokens_are_64_hex (st : State) :
  (fst (getSecret AUTH_TOKEN st) = Ok None ->
   exists t, fst (getOrCreateToken st) = Ok t
             /\ List.length t = 64 /\ forallb isLowerHex t = true)
  /\ (exists t, fst (regenerateToken st) = Ok t
                /\ List.length t = 64 /\ forallb isLowerHex t = true)
  /\ (forall t, fst (getSecret AUTH_TOKEN st) = Ok (Some t) ->
        fst (getOrCreateToken st) = Ok t
        /\ drawn (snd (getOrCreateToken st)) = drawn st).
Proof.
  rewrite getSecret_run, getOrCreateToken_run, regenerateToken_run.
  cbn [fst]. destruct (fresh_token_format st) as [Hlen Hhex].
  split; [|split].
  - intros H. injection H as ->. eexists. split; [reflexivity|].
    split; assumption.
  - eexists. split; [reflexivity|]. split; assumption.
  - intros t H. injection H as ->. split; reflexivity.
Qed.

Lemma generated_tokens_are_64_hex_witness :
  (exists t, fst (getOrCreateToken (fresh_process true nothing nothing)) = Ok t
             /\ List.length t = 64 /\ forallb isLowerHex t = true)
  /\ fst (getOrCreateToken with_token) = Ok sample_token.
Proof.
  split.
  - destruct (generated_tokens_are_64_hex (fresh_process true nothing nothing))
      as (Hnone & _ & _).
    apply Hnone. reflexivity.
  - destruct (generated_tokens_are_64_hex with_token) as (_ & _ & Hsome).
    apply (Hsome sample_token). reflexivity.
Defined.

Lemma Ok_inj {A} (a b : A) : Ok a = Ok b -> a = b.
Proof. congruence. Qed.

Lemma usable_after_draw st n :
  usable (after_draw (initialized_state st) n) = usable st.
Proof.
  unfold usable at 1. cbn [after_draw initialized initialized_state
    keytarAvailable keytar]. apply (usable_initialized_state st).
Qed.

Lemma lookup_after_draw st n k :
  lookup (after_draw (initialized_state st) n) k = lookup st k.
Proof. apply (lookup_initialized_state st k). Qed.

Lemma validateToken_value st c :
  fst (validateToken c st) =
  if negb (truthy (Str c)) then Ok false
  else
    match lookup st AUTH_TOKEN with
    | None => Ok false
    | Some stored => timingSafeEqual (Buffer_from c) (Buffer_from stored)
    end.
Proof.
  rewrite validateToken_run. destruct (negb (truthy (Str c))); [reflexivity|].
  destruct (lookup st AUTH_TOKEN); reflexivity.
Qed.

Lemma fresh_token_truthy st : truthy (Str (toHex (freshBytes st TOKEN_BYTES))) = true.
Proof. reflexivity. Qed.

(** X9.  Does the token [getOrCreateToken] hands out authenticate?  It
    does when a token could be retrieved beforehand, and when the keyring
    is in use and accepts the new token.  When no token could be
    retrieved and the keyring is not in use or rejects, the token handed
    out was not stored and [validateToken] answers [false] for it. *)
Theorem created_token_validates (st : State) (t : JsString) :
  fst (getOrCreateToken st) = Ok t ->
  (found (fst (getSecret AUTH_TOKEN st)) = true
   \/ (usable st = true /\ keychain_rejects st = false) ->
   fst (validateToken t (snd (getOrCreateToken st))) = Ok true)
  /\ (found (fst (getSecret AUTH_TOKEN st)) = false ->
      usable st = false \/ keychain_rejects st = true ->
      fst (validateToken t (snd (getOrCreateToken st))) = Ok false).
Proof.
  rewrite getSecret_run, getOrCreateToken_run. cbn [fst found].
  destruct (lookup st AUTH_TOKEN) as [t0|] eqn:Ht0; cbn [fst snd].
  - intros H. injection H as <-. split; [|discriminate].
    intros _. rewrite validateToken_value, lookup_initialized_state, Ht0.
    rewrite (lookup_present _ _ Ht0). cbn [negb].
    apply timingSafeEqual_true. reflexivity.
  - intros H. apply Ok_inj in H. subst t.
    assert (L : lookup (snd (setSecret AUTH_TOKEN (toHex (freshBytes st TOKEN_BYTES))
                               (after_draw (initialized_state st) TOKEN_BYTES)))
                  AUTH_TOKEN
                = if usable st && negb (keychain_rejects st)
                  then Some (toHex (freshBytes st TOKEN_BYTES)) else None).
    { rewrite lookup_after_setSecret, usable_after_draw, lookup_after_draw, Ht0.
      rewrite fresh_token_truthy. cbn [andb SecretKey_eqb].
      change (keychain_rejects (after_draw (initialized_state st) TOKEN_BYTES))
        with (keychain_rejects st).
      reflexivity. }
    rewrite validateToken_value, L, fresh_token_truthy. cbn [negb].
    split.
    + intros [H | [Hu Hr]]; [discriminate|]. rewrite Hu, Hr. cbn [andb negb].
      apply timingSafeEqual_true. reflexivity.
    + intros _ [Hu | Hr]; [rewrite Hu | rewrite Hr, andb_false_r]; reflexivity.
Qed.

Lemma created_token_validates_witness :
  fst (validateToken sample_token (snd (getOrCreateToken with_token))) = Ok true
  /\ fst (validateToken
            (toHex (freshBytes (fresh_process false nothing nothing) TOKEN_BYTES))
            (snd (getOrCreateToken (fresh_process false nothing nothing))))
     = Ok false.
Proof.
  split.
  - apply (@created_token_validates with_token sample_token eq_refl).
    left. reflexivity.
  - apply (@created_token_validates (fresh_process false nothing nothing)
             (toHex (freshBytes (fresh_process false nothing nothing) TOKEN_BYTES))
             eq_refl); [reflexivity | left; reflexivity].
Defined.

(** X10.  Against a stored token made of ASCII characters, as every
    generated token is, [validateToken] answers [true] for the stored
    token and for no other candidate.  Without a stored token it answers
    [false] for every candidate, and the empty candidate is turned down
    before the keyring is consulted. *)
Theorem validateToken_accepts_exactly_the_stored_token (st : State) :
  (forall stored c,
     fst (getSecret AUTH_TOKEN st) = Ok (Some stored) ->
     forallb isAscii stored = true ->
     (fst (validateToken c st) = Ok true <-> c = stored))
  /\ (fst (getSecret AUTH_TOKEN st) = Ok None ->
      forall c, fst (validateToken c st) = Ok false)
  /\ validateToken [] st = (Ok false, st).
Proof.
  rewrite getSecret_run. cbn [fst]. split; [|split]; [| |reflexivity].
  - intros stored c H Hascii. injection H as H.
    rewrite validateToken_value, H.
    rewrite (Buffer_from_ascii _ Hascii). split.
    + destruct (negb (truthy (Str c))); [discriminate|].
      intros Heq. apply timingSafeEqual_true in Heq.
      apply (Buffer_from_ascii_only _ Hascii Heq).
    + intros ->. rewrite (lookup_present _ _ H). cbn [negb].
      apply timingSafeEqual_true. apply Buffer_from_ascii, Hascii.
  - intros H c. injection H as H. rewrite validateToken_value, H.
    destruct (negb (truthy (Str c))); reflexivity.
Qed.

Lemma validateToken_accepts_exactly_the_stored_token_witness :
  fst (validateToken sample_token with_token) = Ok true
  /\ fst (validateToken (js "guess") (fresh_process true nothing nothing))
     = Ok false.
Proof.
  destruct (validateToken_accepts_exactly_the_stored_token with_token)
    as (Hexact & _).
  destruct (validateToken_accepts_exactly_the_stored_token
              (fresh_process true nothing nothing)) as (_ & Hnone & _).
  split.
  - apply (Hexact sample_token sample_token); reflexivity.
  - apply Hnone. reflexivity.
Defined.

(** X11.  [regenerateToken] on a keyring that is in use and accepts the
    new token: the new token is the stored one, it validates, and every
    other candidate of the same byte length, the previous token among
    them, is answered [false].  When the keyring is not in use or
    rejects, nothing is stored: the token that can be retrieved is the
    one that could be retrieved before, every candidate is answered as it
    was before the call, and the new token is accepted only if it is
    that very token. *)
Theorem regenerateToken_replaces_the_token (st : State) :
  (usable st = true -> keychain_rejects st = false ->
   exists new,
     fst (regenerateToken st) = Ok new
     /\ fst (getSecret AUTH_TOKEN (snd (regenerateToken st))) = Ok (Some new)
     /\ fst (validateToken new (snd (regenerateToken st))) = Ok true
     /\ forall c, c <> new ->
          List.length (Buffer_from c) = List.length (Buffer_from new) ->
          fst (validateToken c (snd (regenerateToken st))) = Ok false)
  /\ (usable st = false \/ keychain_rejects st = true ->
      exists new,
        fst (regenerateToken st) = Ok new
        /\ fst (getSecret AUTH_TOKEN (snd (regenerateToken st)))
           = fst (getSecret AUTH_TOKEN st)
        /\ (forall c, fst (validateToken c (snd (regenerateToken st)))
                      = fst (validateToken c st))
        /\ (fst (validateToken new (snd (regenerateToken st))) = Ok true <->
            fst (getSecret AUTH_TOKEN st) = Ok (Some new))).
Proof.
  rewrite regenerateToken_run. cbn [fst snd].
  assert (L : lookup (snd (setSecret AUTH_TOKEN (toHex (freshBytes st TOKEN_BYTES))
                             (after_draw st TOKEN_BYTES))) AUTH_TOKEN
              = if usable st && negb (keychain_rejects st)
                then Some (toHex (freshBytes st TOKEN_BYTES))
                else lookup st AUTH_TOKEN).
  { rewrite lookup_after_setSecret, fresh_token_truthy. reflexivity. }
  destruct (fresh_token_format st) as [_ Hhex]. apply lowerHex_ascii in Hhex.
  split.
  - intros Hu Hr. rewrite Hu, Hr in L. cbn [andb negb] in L.
    eexists. split; [reflexivity|]. split; [|split].
    + rewrite getSecret_run. cbn [fst]. rewrite L. reflexivity.
    + rewrite validateToken_value, L, fresh_token_truthy. cbn [negb].
      apply timingSafeEqual_true. reflexivity.
    + intros c Hne Hlen. rewrite validateToken_value, L.
      destruct (negb (truthy (Str c))); [reflexivity|].
      rewrite timingSafeEqual_same_length by exact Hlen.
      destruct (bytesEqual (Buffer_from c)
                  (Buffer_from (toHex (freshBytes st TOKEN_BYTES)))) eqn:E;
        [|reflexivity].
      apply bytesEqual_eq in E. rewrite (Buffer_from_ascii _ Hhex) in E.
      apply (Buffer_from_ascii_only _ Hhex) in E. contradiction.
  - intros H.
    assert (L' : lookup (snd (setSecret AUTH_TOKEN
                                (toHex (freshBytes st TOKEN_BYTES))
                                (after_draw st TOKEN_BYTES))) AUTH_TOKEN
                 = lookup st AUTH_TOKEN).
    { rewrite L. destruct H as [Hu | Hr];
        [rewrite Hu | rewrite Hr, andb_false_r]; reflexivity. }
    eexists. split; [reflexivity|]. split; [|split].
    + rewrite !getSecret_run. cbn [fst]. rewrite L'. reflexivity.
    + intros c. rewrite !validateToken_value, L'. reflexivity.
    + rewrite validateToken_value, L', fresh_token_truthy, getSecret_run.
      cbn [negb fst]. destruct (lookup st AUTH_TOKEN) as [stored|].
      * rewrite timingSafeEqual_true, (Buffer_from_ascii _ Hhex). split.
        -- intros E. symmetry in E.
           apply (Buffer_from_ascii_only _ Hhex) in E. congruence.
        -- intros E. apply Ok_inj in E. injection E as ->.
           symmetry. apply Buffer_from_ascii, Hhex.
      * split; intros E; discriminate E.
Qed.

Lemma regenerateToken_replaces_the_token_witness :
  fst (validateToken sample_token (snd (regenerateToken with_token))) = Ok false
  /\ fst (getSecret AUTH_TOKEN
            (snd (regenerateToken
                    (fresh_process false nothing (only AUTH_TOKEN sample_token)))))
     = Ok (Some sample_token).
Proof.
  split.
  - destruct (regenerateToken_replaces_the_token with_token) as (Hnew & _).
    destruct (Hnew eq_refl eq_refl) as (new & Hret & _ & _ & Hother).
    apply Ok_inj in Hret. subst new. apply Hother.
    + intros E. vm_compute in E. discriminate E.
    + vm_compute. reflexivity.
  - destruct (regenerateToken_replaces_the_token
                (fresh_process false nothing (only AUTH_TOKEN sample_token)))
      as (_ & Hkeep).
    destruct (Hkeep (or_introl eq_refl)) as (new & _ & Hsame & _).
    rewrite Hsame. reflexivity.
Defined.

Lemma getTokenForDisplay_value st :
  fst (getTokenForDisplay st) =
  match lookup st AUTH_TOKEN with
  | None => Ok None
  | Some t =>
      Ok (Some (if List.length t <=? 8 then t else firstn 8 t ++ ellipsis))
  end.
Proof.
  unfold getTokenForDisplay, Keyring.bind. rewrite getSecret_run.
  destruct (lookup st AUTH_TOKEN) as [t|] eqn:Ht; unfold if_present;
    [|reflexivity].
  rewrite (lookup_present _ _ Ht). destruct (List.length t <=? 8); reflexivity.
Qed.

(** X12.  What [getTokenForDisplay] shows of a token: never more than 11
    characters, always the token's own first 8; a token of more than 8
    characters is shown as those 8 followed by three dots, a shorter one
    in full.  Without a token the answer is [null]. *)
Theorem display_shows_eight_characters (st : State) :
  (fst (getSecret AUTH_TOKEN st) = Ok None ->
   fst (getTokenForDisplay st) = Ok None)
  /\ (forall t, fst (getSecret AUTH_TOKEN st) = Ok (Some t) ->
        exists d, fst (getTokenForDisplay st) = Ok (Some d)
                  /\ List.length d <= 11
                  /\ firstn 8 d = firstn 8 t
                  /\ (8 < List.length t ->
                      d = firstn 8 t ++ js "..." /\ List.length d = 11)
                  /\ (List.length t <= 8 -> d = t)).
Proof.
  rewrite getSecret_run, getTokenForDisplay_value. cbn [fst]. split.
  - intros H. injection H as ->. reflexivity.
  - intros t H. injection H as ->. eexists. split; [reflexivity|].
    destruct (List.length t <=? 8) eqn:E.
    + apply Nat.leb_le in E. repeat split; try lia; reflexivity.
    + apply Nat.leb_gt in E.
      assert (Hlen : List.length (firstn 8 t ++ ellipsis) = 11).
      { rewrite length_app, firstn_length_le by lia. reflexivity. }
      split; [lia|]. split; [|split; [|lia]].
      * rewrite firstn_app, firstn_firstn, firstn_length_le by lia.
        cbn [Nat.sub Nat.min firstn]. apply app_nil_r.
      * intros _. split; [reflexivity | exact Hlen].
Qed.

Lemma display_shows_eight_characters_witness :
  fst (getTokenForDisplay (fresh_process true nothing nothing)) = Ok None
  /\ fst (getTokenForDisplay with_token) = Ok (Some (js "00112233...")).
Proof.
  split.
  - apply (display_shows_eight_characters (fresh_process true nothing nothing)).
    reflexivity.
  - destruct (display_shows_eight_characters with_token) as (_ & Hsome).
    destruct (Hsome sample_token eq_refl) as (d & Hd & _ & _ & Hlong & _).
    rewrite Hd. destruct Hlong as [-> _]; [simpl; lia | reflexivity].
Defined.

(** ** The encryption key: stability, presence, deletion *)

Lemma hasEncryptionKey_run st :
  hasEncryptionKey st = hasSecret ENCRYPTION_KEY_NAME st.
Proof.
  unfold hasEncryptionKey, Keyring.try_catch. rewrite hasSecret_run.
  reflexivity.
Qed.

Lemma deleteEncryptionKey_run st :
  deleteEncryptionKey st = deleteSecret ENCRYPTION_KEY_NAME st.
Proof.
  unfold deleteEncryptionKey, Keyring.try_catch, Keyring.bind, Keyring.ret.
  rewrite deleteSecret_run.
  destruct (usable st && negb (keychain_rejects st));
    [destruct (keychain st ENCRYPTION_KEY_NAME)|]; reflexivity.
Qed.

Lemma lookup_after_rotate st k :
  lookup (snd (rotateEncryptionKey st)) k = lookup st k.
Proof.
  rewrite rotateEncryptionKey_run.
  destruct (lookup st ENCRYPTION_KEY_NAME); cbn [snd];
    apply (lookup_initialized_state st k).
Qed.

Lemma lookup_after_getOrCreate st :
  lookup (snd (getOrCreateEncryptionKey st)) ENCRYPTION_KEY_NAME
  = match lookup st ENCRYPTION_KEY_NAME with
    | Some k => Some k
    | None => if usable st && negb (keychain_rejects st)
              then Some (toHex (freshBytes st DB_KEY_LENGTH)) else None
    end.
Proof.
  rewrite getOrCreateEncryptionKey_run.
  destruct (lookup st ENCRYPTION_KEY_NAME) as [k|] eqn:Hk; cbn [snd].
  - rewrite lookup_initialized_state. exact Hk.
  - rewrite lookup_after_setSecret, usable_after_draw, lookup_after_draw, Hk.
    change (truthy (Str (toHex (freshBytes st DB_KEY_LENGTH)))) with true.
    change (keychain_rejects (after_draw (initialized_state st) DB_KEY_LENGTH))
      with (keychain_rejects st).
    reflexivity.
Qed.

Lemma getOrCreateEncryptionKey_value st :
  fst (getOrCreateEncryptionKey st)
  = Ok (match lookup st ENCRYPTION_KEY_NAME with
        | Some k => k
        | None => toHex (freshBytes st DB_KEY_LENGTH)
        end).
Proof.
  rewrite getOrCreateEncryptionKey_run.
  destruct (lookup st ENCRYPTION_KEY_NAME); reflexivity.
Qed.

(** *** Rotation *)

Lemma hexDigit_inj a b :
  (a < 16)%N -> (b < 16)%N -> hexDigit a = hexDigit b -> a = b.
Proof.
  unfold hexDigit. intros Ha Hb.
  destruct (a <? 10)%N eqn:Ea; destruct (b <? 10)%N eqn:Eb;
    try apply N.ltb_lt in Ea; try apply N.ltb_lt in Eb;
    try apply N.ltb_ge in Ea; try apply N.ltb_ge in Eb; lia.
Qed.

Lemma toHex_inj : forall b1 b2,
  Forall (fun x => (x < 256)%N) b1 -> Forall (fun x => (x < 256)%N) b2 ->
  toHex b1 = toHex b2 -> b1 = b2.
Proof.
  induction b1 as [|x b1 IH]; intros [|y b2] H1 H2 H; try discriminate;
    [reflexivity|].
  inversion H1 as [|? ? Hx H1']; inversion H2 as [|? ? Hy H2']; subst.
  cbn [toHex flat_map app] in H. injection H as Hhi Hlo H.
  f_equal; [|apply IH; assumption].
  assert (Hdx : (x / 16 < 16)%N) by (apply N.Div0.div_lt_upper_bound; lia).
  assert (Hdy : (y / 16 < 16)%N) by (apply N.Div0.div_lt_upper_bound; lia).
  assert (Hmx : (x mod 16 < 16)%N) by (apply N.mod_lt; discriminate).
  assert (Hmy : (y mod 16 < 16)%N) by (apply N.mod_lt; discriminate).
  apply hexDigit_inj in Hhi; [|assumption|assumption].
  apply hexDigit_inj in Hlo; [|assumption|assumption].
  rewrite (N.div_mod' x 16), (N.div_mod' y 16). congruence.
Qed.

(** C3.  [rotateEncryptionKey] throws the error "No existing encryption key
    found - cannot rotate" when no key can be retrieved.  Otherwise it
    hands back the retrieved key as [oldKey] and, as [newKey], a well
    formed key made from the next 32 bytes of the random generator.
    Whether it returns or throws, it leaves the keyring entries and the
    environment as they were, and a lookup after it finds what a lookup
    before it found.  [confirmKeyRotation] is what persists: when it
    reports success the keyring entry is the key it was given.  After
    [getOrCreateEncryptionKey], [rotateEncryptionKey] and a successful
    [confirmKeyRotation(newKey)], the original key is the [oldKey] of the
    rotation and [getOrCreateEncryptionKey] returns [newKey]; that is the
    original key again only if the bytes drawn by the rotation encode to
    it, which for an original key that was generated means that the
    random generator has delivered the same 32 bytes twice. *)
Theorem rotation_is_two_phase :
  (forall st,
     fst (getSecret ENCRYPTION_KEY_NAME st) = Ok None ->
     fst (rotateEncryptionKey st) = Throw cannot_rotate)
  /\ (forall st k,
        fst (getSecret ENCRYPTION_KEY_NAME st) = Ok (Some k) ->
        exists r,
          fst (rotateEncryptionKey st) = Ok r /\ oldKey r = k
          /\ newKey r = toHex (freshBytes st DB_KEY_LENGTH)
          /\ validateKey (newKey r) = true
          /\ drawn (snd (rotateEncryptionKey st)) = drawn st + DB_KEY_LENGTH)
  /\ (forall st,
        keychain (snd (rotateEncryptionKey st)) = keychain st
        /\ environ (snd (rotateEncryptionKey st)) = environ st
        /\ fst (getSecret ENCRYPTION_KEY_NAME (snd (rotateEncryptionKey st)))
           = fst (getSecret ENCRYPTION_KEY_NAME st))
  /\ (forall st k,
        fst (confirmKeyRotation k st) = Ok true ->
        keychain (snd (confirmKeyRotation k st)) ENCRYPTION_KEY_NAME = Some k)
  /\ (forall s0 r,
        let s1 := snd (getOrCreateEncryptionKey s0) in
        fst (rotateEncryptionKey s1) = Ok r ->
        let s2 := snd (rotateEncryptionKey s1) in
        fst (confirmKeyRotation (newKey r) s2) = Ok true ->
        let s3 := snd (confirmKeyRotation (newKey r) s2) in
        fst (getOrCreateEncryptionKey s0) = Ok (oldKey r)
        /\ newKey r = toHex (freshBytes s1 DB_KEY_LENGTH)
        /\ fst (getOrCreateEncryptionKey s3) = Ok (newKey r)
        /\ (fst (getOrCreateEncryptionKey s3) = fst (getOrCreateEncryptionKey s0)
            <-> toHex (freshBytes s1 DB_KEY_LENGTH) = oldKey r)
        /\ (fst (getSecret ENCRYPTION_KEY_NAME s0) = Ok None ->
            (fst (getOrCreateEncryptionKey s3)
             = fst (getOrCreateEncryptionKey s0)
             <-> freshBytes s1 DB_KEY_LENGTH = freshBytes s0 DB_KEY_LENGTH))).
Proof.
  assert (Hconfirm : forall st k,
    fst (confirmKeyRotation k st) = Ok true ->
    lookup (snd (confirmKeyRotation k st)) ENCRYPTION_KEY_NAME = Some k
    /\ keychain (snd (confirmKeyRotation k st)) ENCRYPTION_KEY_NAME = Some k).
  { intros st k. rewrite confirmKeyRotation_run, setSecret_run.
    destruct (truthy (Str k)) eqn:Hk; [|discriminate].
    destruct (usable st) eqn:Hu; [|discriminate].
    destruct (keychain_rejects st) eqn:Hr; [discriminate|].
    simpl. intros _. split; [|reflexivity].
    unfold lookup, usable; simpl. unfold usable in Hu. rewrite Hr.
    destruct k; [discriminate|].
    destruct (initialized st), (keytarAvailable st), (keytar st),
      (keytar_installed st); simpl in *; try discriminate; reflexivity. }
  split; [|split; [|split; [|split]]].
  - intros st. rewrite getSecret_run, rotateEncryptionKey_run; simpl.
    intros H; injection H as ->. reflexivity.
  - intros st k. rewrite getSecret_run, rotateEncryptionKey_run. cbn [fst].
    intros H. apply Ok_inj in H. rewrite H. cbn [fst snd].
    eexists. split; [reflexivity|]. cbn [oldKey newKey].
    split; [reflexivity|]. split; [reflexivity|].
    split; [apply fresh_key_valid | reflexivity].
  - intros st.
    assert (L : lookup (snd (rotateEncryptionKey st)) ENCRYPTION_KEY_NAME
                = lookup st ENCRYPTION_KEY_NAME).
    { rewrite <- (lookup_initialized_state st), rotateEncryptionKey_run.
      destruct (lookup st ENCRYPTION_KEY_NAME); reflexivity. }
    rewrite !getSecret_run. cbn [fst]. rewrite L, rotateEncryptionKey_run.
    destruct (lookup st ENCRYPTION_KEY_NAME); repeat split.
  - intros st k H. apply Hconfirm, H.
  - intros s0 r s1 Hrot s2 Hconf s3.
    assert (Hlast : fst (getOrCreateEncryptionKey s3) = Ok (newKey r)).
    { subst s3. rewrite getOrCreateEncryptionKey_value.
      destruct (Hconfirm _ _ Hconf) as [-> _]. reflexivity. }
    assert (Hr : fst (getOrCreateEncryptionKey s0) = Ok (oldKey r)
                 /\ newKey r = toHex (freshBytes s1 DB_KEY_LENGTH)).
    { rewrite rotateEncryptionKey_run in Hrot.
      pose proof (lookup_after_getOrCreate s0) as L. fold s1 in L.
      rewrite getOrCreateEncryptionKey_value.
      destruct (lookup s1 ENCRYPTION_KEY_NAME) as [k|]; [|discriminate].
      cbn [fst] in Hrot. apply Ok_inj in Hrot. subst r. cbn [oldKey newKey].
      split; [|reflexivity].
      destruct (lookup s0 ENCRYPTION_KEY_NAME) as [k0|]; [congruence|].
      destruct (usable s0 && negb (keychain_rejects s0)); congruence. }
    destruct Hr as [Hold Hnew].
    split; [exact Hold|]. split; [exact Hnew|]. split; [exact Hlast|].
    assert (Hiff : fst (getOrCreateEncryptionKey s3)
                   = fst (getOrCreateEncryptionKey s0)
                   <-> toHex (freshBytes s1 DB_KEY_LENGTH) = oldKey r).
    { rewrite Hlast, Hold, Hnew. split; [apply Ok_inj | congruence]. }
    split; [exact Hiff|].
    intros Hnone. rewrite Hiff.
    rewrite getSecret_run in Hnone. cbn [fst] in Hnone. apply Ok_inj in Hnone.
    rewrite getOrCreateEncryptionKey_value, Hnone in Hold.
    apply Ok_inj in Hold. rewrite <- Hold. split.
    + apply toHex_inj; apply freshBytes_small.
    + congruence.
Qed.

Lemma rotation_is_two_phase_witness :
  fst (rotateEncryptionKey (fresh_process true nothing nothing))
  = Throw cannot_rotate
  /\ (exists r,
        fst (rotateEncryptionKey
               (fresh_process true (only DB_ENCRYPTION_KEY sample_token) nothing))
        = Ok r /\ oldKey r = sample_token)
  /\ keychain
       (snd (confirmKeyRotation sample_token (fresh_process true nothing nothing)))
       ENCRYPTION_KEY_NAME = Some sample_token
  /\ (let s0 := fresh_process true nothing nothing in
      let s1 := snd (getOrCreateEncryptionKey s0) in
      let r := {| oldKey := toHex (freshBytes s0 DB_KEY_LENGTH);
                  newKey := toHex (freshBytes s1 DB_KEY_LENGTH) |} in
      let s2 := snd (rotateEncryptionKey s1) in
      let s3 := snd (confirmKeyRotation (newKey r) s2) in
      fst (getOrCreateEncryptionKey s3) = Ok (newKey r)
      /\ fst (getOrCreateEncryptionKey s3)
         <> fst (getOrCreateEncryptionKey s0)).
Proof.
  destruct rotation_is_two_phase as (A & B & _ & D & E).
  split; [|split; [|split]].
  - apply A. reflexivity.
  - destruct (B (fresh_process true (only DB_ENCRYPTION_KEY sample_token)
                   nothing) sample_token eq_refl) as (r & Hr & Hold & _).
    exists r. split; assumption.
  - apply D. reflexivity.
  - cbv zeta.
    destruct (E (fresh_process true nothing nothing)
                {| oldKey := toHex (freshBytes (fresh_process true nothing nothing)
                                      DB_KEY_LENGTH);
                   newKey := toHex (freshBytes
                                      (snd (getOrCreateEncryptionKey
                                              (fresh_process true nothing nothing)))
                                      DB_KEY_LENGTH) |})
      as (_ & _ & E1 & _ & E2); [reflexivity | reflexivity |].
    split; [exact E1|].
    intros Hsame. apply (E2 eq_refl) in Hsame. vm_compute in Hsame.
    discriminate Hsame.
Defined.

(** X13.  [getOrCreateEncryptionKey] keeps returning the same key once a
    key is stored: when a key could be retrieved, or the keyring is in
    use and accepts the new key, a second call returns what the first
    returned.  Otherwise the key of the first call is lost: the second
    call makes its key from the next 32 random bytes. *)
Theorem key_is_stable_once_stored (st : State) :
  (found (fst (getSecret ENCRYPTION_KEY_NAME st)) = true
   \/ (usable st = true /\ keychain_rejects st = false) ->
   fst (getOrCreateEncryptionKey (snd (getOrCreateEncryptionKey st)))
   = fst (getOrCreateEncryptionKey st))
  /\ (found (fst (getSecret ENCRYPTION_KEY_NAME st)) = false ->
      usable st = false \/ keychain_rejects st = true ->
      fst (getOrCreateEncryptionKey (snd (getOrCreateEncryptionKey st)))
      = Ok (toHex (freshBytes (snd (getOrCreateEncryptionKey st)) DB_KEY_LENGTH))
      /\ drawn (snd (getOrCreateEncryptionKey st)) = drawn st + DB_KEY_LENGTH).
Proof.
  rewrite getSecret_run.
  rewrite (getOrCreateEncryptionKey_value (snd (getOrCreateEncryptionKey st))).
  rewrite lookup_after_getOrCreate, (getOrCreateEncryptionKey_value st).
  cbn [fst found].
  destruct (lookup st ENCRYPTION_KEY_NAME) as [k|] eqn:Hk.
  - split; [reflexivity | discriminate].
  - split.
    + intros [H | [Hu Hr]]; [discriminate|]. rewrite Hu, Hr. reflexivity.
    + intros _ H.
      assert (E : usable st && negb (keychain_rejects st) = false)
        by (destruct H as [-> | ->]; [reflexivity | apply andb_false_r]).
      rewrite E. split; [reflexivity|].
      rewrite getOrCreateEncryptionKey_run, Hk. cbv zeta. cbn [snd].
      rewrite setSecret_result, usable_after_draw.
      change (keychain_rejects (after_draw (initialized_state st) DB_KEY_LENGTH))
        with (keychain_rejects st).
      rewrite <- andb_assoc, E, andb_false_r. reflexivity.
Qed.

Lemma key_is_stable_once_stored_witness :
  fst (getOrCreateEncryptionKey
         (snd (getOrCreateEncryptionKey (fresh_process true nothing nothing))))
  = fst (getOrCreateEncryptionKey (fresh_process true nothing nothing))
  /\ drawn (snd (getOrCreateEncryptionKey (fresh_process false nothing nothing)))
     = 32.
Proof.
  split.
  - apply (key_is_stable_once_stored (fresh_process true nothing nothing)).
    right. split; reflexivity.
  - destruct (key_is_stable_once_stored (fresh_process false nothing nothing))
      as (_ & Hlost).
    destruct (Hlost eq_refl (or_introl eq_refl)) as [_ Hd]. exact Hd.
Defined.

(** X14.  [rotateEncryptionKey] succeeds exactly when [hasEncryptionKey]
    answers [true], and throws its "cannot rotate" error exactly when it
    answers [false].  When it succeeds, the old key it hands back is the
    key [getOrCreateEncryptionKey] returns, and the new key is well
    formed. *)
Theorem rotation_needs_a_key (st : State) :
  (fst (hasEncryptionKey st) = Ok true
   <-> exists r, fst (rotateEncryptionKey st) = Ok r)
  /\ (fst (hasEncryptionKey st) = Ok false
      <-> fst (rotateEncryptionKey st) = Throw cannot_rotate)
  /\ (forall r, fst (rotateEncryptionKey st) = Ok r ->
        fst (getOrCreateEncryptionKey st) = Ok (oldKey r)
        /\ validateKey (newKey r) = true).
Proof.
  rewrite hasEncryptionKey_run, hasSecret_run, rotateEncryptionKey_run,
    getOrCreateEncryptionKey_value. cbn [fst].
  destruct (lookup st ENCRYPTION_KEY_NAME) as [k|] eqn:Hk; cbn [fst].
  - change (present (Some k)) with (truthy (Str k)).
    rewrite (lookup_present _ _ Hk).
    split; [|split].
    + split; [intros _; eexists; reflexivity | reflexivity].
    + split; discriminate.
    + intros r H. apply Ok_inj in H. subst r. cbn [oldKey newKey].
      split; [reflexivity | apply fresh_key_valid].
  - split; [|split].
    + split; [discriminate | intros [r H]; discriminate].
    + split; reflexivity.
    + discriminate.
Qed.

(** X15.  Deleting the key.  After a successful
    [deleteEncryptionKey], with no key in the environment, no key is
    found any more: [hasEncryptionKey] answers [false],
    [rotateEncryptionKey] throws, and [getOrCreateEncryptionKey] makes a
    new key from fresh random bytes and stores it.  A key set in the
    environment survives the deletion and is what
    [getOrCreateEncryptionKey] then returns. *)
Theorem deleted_key_is_gone (st : State) :
  fst (deleteEncryptionKey st) = Ok true ->
  (present (environ st ENCRYPTION_KEY_NAME) = false ->
   fst (hasEncryptionKey (snd (deleteEncryptionKey st))) = Ok false
   /\ fst (rotateEncryptionKey (snd (deleteEncryptionKey st)))
      = Throw cannot_rotate
   /\ fst (getOrCreateEncryptionKey (snd (deleteEncryptionKey st)))
      = Ok (toHex (freshBytes st DB_KEY_LENGTH))
   /\ fst (getSecret ENCRYPTION_KEY_NAME
             (snd (getOrCreateEncryptionKey (snd (deleteEncryptionKey st)))))
      = Ok (Some (toHex (freshBytes st DB_KEY_LENGTH))))
  /\ (forall v, environ st ENCRYPTION_KEY_NAME = Some v -> v <> [] ->
        fst (getOrCreateEncryptionKey (snd (deleteEncryptionKey st))) = Ok v).
Proof.
  rewrite deleteEncryptionKey_run. intros H.
  destruct (deleteSecret_deleted _ _ H) as (Hu & Hr & ->).
  assert (L : lookup (remove_entry ENCRYPTION_KEY_NAME (initialized_state st))
                ENCRYPTION_KEY_NAME
              = if present (environ st ENCRYPTION_KEY_NAME)
                then environ st ENCRYPTION_KEY_NAME else None).
  { rewrite lookup_remove_entry by assumption. reflexivity. }
  assert (U : usable (remove_entry ENCRYPTION_KEY_NAME (initialized_state st))
              = true).
  { rewrite <- Hu, <- (usable_initialized_state st). reflexivity. }
  split.
  - intros Henv. rewrite Henv in L.
    rewrite hasEncryptionKey_run, hasSecret_run, rotateEncryptionKey_run,
      getOrCreateEncryptionKey_value, getSecret_run, lookup_after_getOrCreate.
    rewrite L, U. cbn [fst present].
    change (keychain_rejects
              (remove_entry ENCRYPTION_KEY_NAME (initialized_state st)))
      with (keychain_rejects st).
    rewrite Hr. repeat split.
  - intros v Hv Hne. rewrite getOrCreateEncryptionKey_value, L, Hv.
    destruct v; [congruence | reflexivity].
Qed.

Lemma deleted_key_is_gone_witness :
  fst (hasEncryptionKey
         (snd (deleteEncryptionKey
                 (fresh_process true (only DB_ENCRYPTION_KEY sample_token) nothing))))
  = Ok false
  /\ fst (getOrCreateEncryptionKey
            (snd (deleteEncryptionKey
                    (fresh_process true (only DB_ENCRYPTION_KEY sample_token)
                       (only DB_ENCRYPTION_KEY (js "from-env"))))))
     = Ok (js "from-env").
Proof.
  split.
  - apply (@deleted_key_is_gone
             (fresh_process true (only DB_ENCRYPTION_KEY sample_token) nothing)
             eq_refl). reflexivity.
  - destruct (@deleted_key_is_gone
                (fresh_process true (only DB_ENCRYPTION_KEY sample_token)
                   (only DB_ENCRYPTION_KEY (js "from-env"))) eq_refl)
      as [_ Henv].
    apply Henv; [reflexivity | discriminate].
Defined.

(** X16.  A rotation that is not confirmed leaves the old key in force:
    when [confirmKeyRotation] reports failure after
    [rotateEncryptionKey], [getOrCreateEncryptionKey] still returns the
    old key.  [confirmKeyRotation] never throws, and reports failure for
    the empty key. *)
Theorem failed_confirmation_keeps_the_old_key (st : State) :
  (forall r,
     fst (rotateEncryptionKey st) = Ok r ->
     fst (confirmKeyRotation (newKey r) (snd (rotateEncryptionKey st)))
     = Ok false ->
     fst (getOrCreateEncryptionKey
            (snd (confirmKeyRotation (newKey r) (snd (rotateEncryptionKey st)))))
     = Ok (oldKey r))
  /\ (forall k, exists b, fst (confirmKeyRotation k st) = Ok b)
  /\ fst (confirmKeyRotation [] st) = Ok false.
Proof.
  split; [|split].
  - intros r Hrot Hconf. rewrite confirmKeyRotation_run in *.
    rewrite (setSecret_not_stored _ _ _ Hconf).
    rewrite getOrCreateEncryptionKey_value, lookup_initialized_state,
      lookup_after_rotate.
    rewrite rotateEncryptionKey_run in Hrot.
    destruct (lookup st ENCRYPTION_KEY_NAME) as [k|]; [|discriminate].
    apply Ok_inj in Hrot. subst r. reflexivity.
  - intros k. rewrite confirmKeyRotation_run, setSecret_result.
    destruct (_ && _ && _); eexists; reflexivity.
  - rewrite confirmKeyRotation_run, setSecret_result. reflexivity.
Qed.

Lemma failed_confirmation_keeps_the_old_key_witness :
  fst (getOrCreateEncryptionKey
         (snd (confirmKeyRotation
                 (toHex (freshBytes
                           (fresh_process false nothing
                              (only DB_ENCRYPTION_KEY sample_token))
                           DB_KEY_LENGTH))
                 (snd (rotateEncryptionKey
                         (fresh_process false nothing
                            (only DB_ENCRYPTION_KEY sample_token)))))))
  = Ok sample_token.
Proof.
  destruct (failed_confirmation_keeps_the_old_key
              (fresh_process false nothing (only DB_ENCRYPTION_KEY sample_token)))
    as (Hkeep & _).
  apply (Hkeep {| oldKey := sample_token;
                  newKey := toHex (freshBytes
                                     (fresh_process false nothing
                                        (only DB_ENCRYPTION_KEY sample_token))
                                     DB_KEY_LENGTH) |});
    reflexivity.
Defined.

Lemma rotation_needs_a_key_witness :
  (exists r, fst (rotateEncryptionKey
                    (fresh_process true (only DB_ENCRYPTION_KEY sample_token)
                       nothing)) = Ok r)
  /\ fst (rotateEncryptionKey (fresh_process true nothing nothing))
     = Throw cannot_rotate.
Proof.
  split.
  - apply (rotation_needs_a_key
             (fresh_process true (only DB_ENCRYPTION_KEY sample_token) nothing)).
    reflexivity.
  - apply (rotation_needs_a_key (fresh_process true nothing nothing)).
    reflexivity.
Defined.

(** ** Secret and context spans *)

Lemma scan_ext R1 R2 :
  (forall prev i s, matchHere R1 prev i s = matchHere R2 prev i s) ->
  forall s skip i prev, scan R1 skip i prev s = scan R2 skip i prev s.
Proof.
  intros H. induction s as [|ch s IH]; intros skip i prev;
    destruct skip as [|k]; cbn [scan]; rewrite ?H; try reflexivity.
  - destruct (matchHere R2 prev i (ch :: s)) as [[|k]|]; rewrite ?IH;
      reflexivity.
  - apply IH.
Qed.

Lemma SECRET_SPAN_here prev i s :
  matchHere SECRET_SPAN prev i s
  = matchHere (spanRegex SECRET_OPEN SECRET_CLOSE) prev i s.
Proof. reflexivity. Qed.

Lemma replace_secret_spans segments tail :
  wellDelimited SECRET_OPEN SECRET_CLOSE segments tail ->
  String_replace (assemble SECRET_OPEN SECRET_CLOSE segments tail)
    SECRET_SPAN REDACTED
  = outside REDACTED segments tail.
Proof.
  intros H. unfold String_replace, pieces.
  rewrite (scan_ext _ _ SECRET_SPAN_here).
  apply replace_spans; [reflexivity | reflexivity | exact H].
Qed.

Lemma replace_context_spans segments tail :
  wellDelimited CONTEXT_OPEN CONTEXT_CLOSE segments tail ->
  String_replace (assemble CONTEXT_OPEN CONTEXT_CLOSE segments tail)
    CONTEXT_SPAN []
  = outside [] segments tail.
Proof.
  intros H. unfold String_replace, pieces.
  change CONTEXT_SPAN with (spanRegex CONTEXT_OPEN CONTEXT_CLOSE).
  apply replace_spans; [reflexivity | reflexivity | exact H].
Qed.

(** X17.  Secret spans become the marker.  Let the content be text
    interleaved with secret spans, no text part containing [<secret>] and
    no span body containing [</secret>]; let the content hold no context
    or private span, and let the pattern pass count no match in the
    content with its spans replaced by [[REDACTED]].  Then the result is
    the content with each span replaced by [[REDACTED]], trimmed at its
    two ends: the secret bodies are gone, the text around them is
    kept. *)
Theorem secret_spans_redacted (host : Host)
    (segments : list (JsString * JsString)) (tail : JsString) :
  let C := assemble SECRET_OPEN SECRET_CLOSE segments tail in
  let marked := outside REDACTED segments tail in
  wellDelimited SECRET_OPEN SECRET_CLOSE segments tail ->
  String_match C CONTEXT_SPAN = None ->
  String_match C PRIVATE_SPAN = None ->
  (exists t, redactSecrets host (Str marked)
             = Ok {| redacted := t; count := 0 |}) ->
  stripMemoryTagsFromPrompt host (Str C) = Ok (trim marked)
  /\ stripMemoryTagsFromJson host (Str C) = Ok (trim marked).
Proof.
  intros C marked Hwf Hctx Hpriv [t Hred].
  assert (Ht : t = Str marked)
    by (apply (zero_count_keeps_text _ _ Hred); reflexivity).
  subst t.
  unfold stripMemoryTagsFromPrompt, stripMemoryTagsFromJson.
  rewrite stripTagsInternal_string. cbv zeta.
  rewrite (@replace_without_match C CONTEXT_SPAN [] Hctx).
  rewrite (@replace_without_match C PRIVATE_SPAN [] Hpriv).
  unfold C. rewrite (replace_secret_spans Hwf). fold marked.
  rewrite Hred. split; reflexivity.
Qed.

Lemma secret_spans_redacted_witness :
  assemble SECRET_OPEN SECRET_CLOSE [(js "My API key is ", js "sk-abc123")] []
  = js "My API key is <secret>sk-abc123</secret>"
  /\ stripMemoryTagsFromPrompt defaultHost
       (Str (js "My API key is <secret>sk-abc123</secret>"))
     = Ok (js "My API key is [REDACTED]").
Proof.
  split; [reflexivity|].
  apply (@secret_spans_redacted defaultHost
           [(js "My API key is ", js "sk-abc123")] []).
  - split; [repeat constructor | reflexivity].
  - reflexivity.
  - reflexivity.
  - eexists. vm_compute. reflexivity.
Defined.

(** X18.  Context spans are deleted.  Let the content be text
    interleaved with context spans, no text part containing
    [<claude-mem-context>] and no span body containing
    [</claude-mem-context>]; let what lies outside the spans hold no
    private or secret span and no pattern match.  Then the result is
    exactly what lies outside the spans, trimmed at its two ends. *)
Theorem context_spans_removed (host : Host)
    (segments : list (JsString * JsString)) (tail : JsString) :
  let C := assemble CONTEXT_OPEN CONTEXT_CLOSE segments tail in
  let kept := outside [] segments tail in
  wellDelimited CONTEXT_OPEN CONTEXT_CLOSE segments tail ->
  String_match kept PRIVATE_SPAN = None ->
  String_match kept SECRET_SPAN = None ->
  (exists t, redactSecrets host (Str kept)
             = Ok {| redacted := t; count := 0 |}) ->
  stripMemoryTagsFromPrompt host (Str C) = Ok (trim kept)
  /\ stripMemoryTagsFromJson host (Str C) = Ok (trim kept).
Proof.
  intros C kept Hwf Hpriv Hsec [t Hred].
  assert (Ht : t = Str kept)
    by (apply (zero_count_keeps_text _ _ Hred); reflexivity).
  subst t.
  unfold stripMemoryTagsFromPrompt, stripMemoryTagsFromJson.
  rewrite stripTagsInternal_string. cbv zeta.
  unfold C. rewrite (replace_context_spans Hwf). fold kept.
  rewrite (@replace_without_match kept PRIVATE_SPAN [] Hpriv).
  rewrite (@replace_without_match kept SECRET_SPAN REDACTED Hsec).
  rewrite Hred. split; reflexivity.
Qed.

Lemma context_spans_removed_witness :
  assemble CONTEXT_OPEN CONTEXT_CLOSE
    [(js "start ", js "old
observations")] (js " end")
  = js "start <claude-mem-context>old
observations</claude-mem-context> end"
  /\ stripMemoryTagsFromPrompt defaultHost
       (Str (js "start <claude-mem-context>old
observations</claude-mem-context> end"))
     = Ok (js "start  end").
Proof.
  split; [reflexivity|].
  apply (@context_spans_removed defaultHost
           [(js "start ", js "old
observations")] (js " end")).
  - split; [repeat constructor | reflexivity].
  - reflexivity.
  - reflexivity.
  - eexists. vm_compute. reflexivity.
Defined.

(** ** The patterns in force *)

(** X19.  The eleven default patterns are always in force, first and in
    their order, whatever the settings hold; at most 50 custom patterns
    follow them.  When the setting cannot be loaded, is not a string, or
    is blank, the default patterns are all there is. *)
Theorem default_patterns_always_apply (host : Host) :
  (exists custom,
     getRedactionPatterns host = DEFAULT_REDACTION_PATTERNS ++ custom
     /\ List.length custom <= MAX_CUSTOM_PATTERNS)
  /\ ((forall s, load_REDACT_PATTERNS host <> Ok (Str s))
      \/ (exists s, load_REDACT_PATTERNS host = Ok (Str s) /\ trim s = []) ->
      getRedactionPatterns host = DEFAULT_REDACTION_PATTERNS).
Proof.
  unfold getRedactionPatterns. split.
  - destruct (load_REDACT_PATTERNS host) as [[| | | | |s|]|];
      try (exists []; split; [symmetry; apply app_nil_r | simpl; lia]).
    destruct (truthy (Str s) && truthy (Str (trim s)));
      [|exists []; split; [symmetry; apply app_nil_r | simpl; lia]].
    eexists. split; [reflexivity|].
    unfold compileUserPatterns. rewrite compile_loop. cbn [app].
    etransitivity; [apply flat_map_accepted_length|]. apply firstn_le_length.
  - intros [Hno | (s & Hs & Hblank)].
    + destruct (load_REDACT_PATTERNS host) as [[| | | | |s|]|]; try reflexivity.
      exfalso. apply (Hno s). reflexivity.
    + rewrite Hs, Hblank, andb_false_r. reflexivity.
Qed.

Lemma default_patterns_always_apply_witness :
  getRedactionPatterns (literal_host (Number 7)) = DEFAULT_REDACTION_PATTERNS
  /\ getRedactionPatterns (literal_host (Str (js "  ")))
     = DEFAULT_REDACTION_PATTERNS.
Proof.
  split.
  - apply (default_patterns_always_apply (literal_host (Number 7))).
    left. intros s H. discriminate H.
  - apply (default_patterns_always_apply (literal_host (Str (js "  ")))).
    right. exists (js "  "). split; reflexivity.
Defined.

(** ** The marker in the output *)

Lemma occurs_here p y : occurs p (p ++ y) = true.
Proof.
  destruct p as [|c p]; [destruct y; reflexivity|].
  pose proof (startsWith_app (c :: p) y) as H. cbn [app] in H.
  cbn [app occurs]. rewrite H. reflexivity.
Qed.

Lemma occurs_cons p c y : occurs p y = true -> occurs p (c :: y) = true.
Proof. intros H. cbn [occurs]. rewrite H. apply orb_true_r. Qed.

Lemma rebuild_has_replacement repl ps :
  matchedTexts ps <> [] -> occurs repl (rebuild repl ps) = true.
Proof.
  induction ps as [|[c|i m] ps IH]; cbn [matchedTexts rebuild]; intros H.
  - congruence.
  - apply occurs_cons, IH, H.
  - apply occurs_here.
Qed.

Lemma redactStep_marker acc R :
  (0 < snd acc -> occurs REDACTED (fst acc) = true) ->
  0 < snd (redactStep acc R) ->
  occurs REDACTED (fst (redactStep acc R)) = true.
Proof.
  destruct acc as [text n]. unfold redactStep, String_match, String_replace.
  destruct (matchedTexts (pieces (clone R) text)) eqn:E; cbn [fst snd].
  - trivial.
  - intros _ _. apply rebuild_has_replacement. rewrite E. discriminate.
Qed.

Lemma redactLoop_marker ps : forall acc,
  (0 < snd acc -> occurs REDACTED (fst acc) = true) ->
  0 < snd (fold_left redactStep ps acc) ->
  occurs REDACTED (fst (fold_left redactStep ps acc)) = true.
Proof.
  induction ps as [|R ps IH]; intros acc Hacc; cbn [fold_left]; [exact Hacc|].
  apply IH. apply redactStep_marker, Hacc.
Qed.

(** X20.  Whenever [redactSecrets] counts a redaction, the text it
    returns contains the marker [[REDACTED]]. *)
Theorem counted_redaction_leaves_the_marker (host : Host) (s : JsString)
    (r : Redaction) :
  redactSecrets host (Str s) = Ok r ->
  0 < count r ->
  exists t, redacted r = Str t /\ occurs REDACTED t = true.
Proof.
  destruct s as [|a s].
  - rewrite redactSecrets_empty. intros H. apply Ok_inj in H. subst r.
    cbn [count]. lia.
  - rewrite redactSecrets_string by discriminate.
    intros H. apply Ok_inj in H. subst r. cbn [count redacted]. intros Hc.
    eexists. split; [reflexivity|].
    apply redactLoop_marker; [cbn [snd]; lia | exact Hc].
Qed.

Lemma counted_redaction_leaves_the_marker_witness :
  redactSecrets defaultHost (Str sk_sample)
  = Ok {| redacted := Str (js "key: [REDACTED]"); count := 1 |}
  /\ occurs REDACTED (js "key: [REDACTED]") = true.
Proof.
  split; [vm_compute; reflexivity|].
  destruct (@counted_redaction_leaves_the_marker defaultHost sk_sample
              {| redacted := Str (js "key: [REDACTED]"); count := 1 |})
    as (t & Ht & Hocc); [vm_compute; reflexivity | cbn [count]; lia|].
  cbn [redacted] in Ht. injection Ht as <-. exact Hocc.
Defined.

(** ** What the strip functions return on a string *)

Lemma trimStart_no_leading s : noLeadingSpace (trimStart s).
Proof.
  induction s as [|c s IH]; simpl; [exact I|].
  destruct (isWhiteSpace c) eqn:Hc; [exact IH | exact Hc].
Qed.

Lemma trim_rev s : rev (trim s) = trimStart (rev (trimStart s)).
Proof. unfold trim, trimEnd. apply rev_involutive. Qed.

Lemma trim_no_leading s : noLeadingSpace (trim s).
Proof.
  unfold trim. rewrite <- trimStart_trimEnd by apply trimStart_idem.
  apply trimStart_no_leading.
Qed.

Lemma redactSecrets_is_text host s :
  exists t n, redactSecrets host (Str s) = Ok {| redacted := Str t; count := n |}.
Proof.
  destruct s as [|a s].
  - rewrite redactSecrets_empty. eexists _, _. reflexivity.
  - rewrite redactSecrets_string by discriminate. eexists _, _. reflexivity.
Qed.

(** X21.  On every string, whatever it contains and however many tags,
    [stripMemoryTagsFromPrompt] and [stripMemoryTagsFromJson] return
    without throwing, return the same text, and that text neither begins
    nor ends with white space. *)
Theorem strip_returns_trimmed_text (host : Host) (s : JsString) :
  exists O,
    stripMemoryTagsFromPrompt host (Str s) = Ok O
    /\ stripMemoryTagsFromJson host (Str s) = Ok O
    /\ noLeadingSpace O
    /\ noLeadingSpace (rev O)
    /\ trim O = O.
Proof.
  unfold stripMemoryTagsFromPrompt, stripMemoryTagsFromJson.
  rewrite stripTagsInternal_string. cbv zeta.
  destruct (redactSecrets_is_text host
              (String_replace
                 (String_replace (String_replace s CONTEXT_SPAN [])
                    PRIVATE_SPAN []) SECRET_SPAN REDACTED)) as (t & n & ->).
  cbn [redacted]. exists (trim t). repeat split.
  - apply trim_no_leading.
  - rewrite trim_rev. apply trimStart_no_leading.
  - apply trim_idem.
Qed.

(** ** Counting tags *)

Lemma startsWith_split p : forall s,
  startsWith p s = true -> exists z, s = p ++ z.
Proof.
  induction p as [|c p IH]; intros s H; [exists s; reflexivity|].
  destruct s as [|d s]; [discriminate|]. simpl in H.
  apply andb_true_iff in H as [Hd Hs]. apply N.eqb_eq in Hd. subst d.
  destruct (IH s Hs) as [z ->]. exists z. reflexivity.
Qed.

Lemma literal_here p prev i s :
  matchHere (litRegex p) prev i s
  = if startsWith p s then Some (List.length p) else None.
Proof.
  unfold matchHere, litRegex. cbn [source flags ignoreCase flags_g].
  destruct (startsWith p s) eqn:E.
  - destruct (startsWith_split _ _ E) as [z ->]. rewrite literal_hit.
    cbn [endIndex]. f_equal. lia.
  - rewrite literal_miss by exact E. reflexivity.
Qed.

Lemma occurrences_inside c q : forall q' z,
  forallb (fun d => negb (d =? c)%N) q' = true ->
  occurrences (c :: q) (q' ++ z) = occurrences (c :: q) z.
Proof.
  induction q' as [|d q' IH]; intros z H; [reflexivity|].
  simpl in H. apply andb_true_iff in H as [Hd Hq'].
  cbn [app occurrences startsWith]. apply negb_true_iff in Hd. rewrite Hd.
  cbn [andb]. apply IH, Hq'.
Qed.

Lemma occurrences_after p z :
  headUnique p = true -> occurrences p (p ++ z) = S (occurrences p z).
Proof.
  destruct p as [|c q]; [discriminate|]. intros H. simpl in H.
  pose proof (startsWith_app (c :: q) z) as Hs. cbn [app] in Hs.
  cbn [app occurrences]. rewrite Hs.
  cbn [Nat.add]. f_equal. exact (@occurrences_inside c q q z H).
Qed.

Lemma count_literal p :
  headUnique p = true ->
  forall n s i prev,
    List.length s <= n ->
    List.length (matchedTexts (scan (litRegex p) 0 i prev s)) = occurrences p s.
Proof.
  intros Hp. assert (Hne : p <> []) by (destruct p; [discriminate | discriminate]).
  induction n as [|n IH]; intros s i prev Hn.
  - destruct s; [|simpl in Hn; lia]. cbn [scan]. rewrite literal_here.
    destruct p; [congruence | reflexivity].
  - destruct (startsWith p s) eqn:E.
    + destruct (startsWith_split _ _ E) as [z ->].
      rewrite scan_hit; [|exact Hne|].
      2:{ rewrite literal_here, E. reflexivity. }
      cbn [matchedTexts List.length]. rewrite occurrences_after by exact Hp.
      f_equal. apply IH. rewrite length_app in Hn.
      destruct p; [congruence | simpl in Hn; lia].
    + destruct s as [|ch s].
      * cbn [scan]. rewrite literal_here, E. cbn [occurrences]. rewrite E.
        reflexivity.
      * cbn [scan]. rewrite literal_here, E. cbn [matchedTexts occurrences].
        rewrite E. apply IH. simpl in Hn. lia.
Qed.

Lemma matchCount_length s R :
  matchCount s R = List.length (matchedTexts (pieces R s)).
Proof.
  unfold matchCount, String_match.
  destruct (matchedTexts (pieces R s)); reflexivity.
Qed.

Lemma matchCount_literal p s :
  headUnique p = true -> matchCount s (litRegex p) = occurrences p s.
Proof.
  intros Hp. rewrite matchCount_length. unfold pieces.
  apply (@count_literal p Hp (List.length s)). apply Nat.le_refl.
Qed.

(** X22.  [countTags] returns the number of places at which
    [<private>] begins, plus those at which [<claude-mem-context>]
    begins, plus those at which [<secret>] begins; closing tags and
    unclosed tags make no difference to it. *)
Theorem countTags_counts_opening_tags (s : JsString) :
  countTags (Str s)
  = Ok (occurrences PRIVATE_OPEN s + occurrences CONTEXT_OPEN s
        + occurrences SECRET_OPEN s).
Proof.
  unfold countTags.
  change (openTag "<private>") with (litRegex PRIVATE_OPEN).
  change (openTag "<claude-mem-context>") with (litRegex CONTEXT_OPEN).
  change (openTag "<secret>") with (litRegex SECRET_OPEN).
  rewrite !matchCount_literal by reflexivity. reflexivity.
Qed.

(** ** A key that stands alone *)

Lemma greedy_run_taken (ok : CodeUnit -> bool) :
  forall s fuel min prev i,
    forallb ok s = true -> min <= List.length s -> List.length s < fuel ->
    RepeatMatcher fuel (stepChar ok) min None true
      {| prevChar := prev; rest := s; endIndex := i |} (fun y => Some y)
    = Some {| prevChar := lastOr prev s; rest := [];
              endIndex := i + List.length s |}.
Proof.
  induction s as [|a s IH]; intros fuel min prev i Hall Hmin Hfuel;
    simpl in *.
  - destruct fuel as [|f]; [lia|]. assert (min = 0) by lia; subst.
    simpl. rewrite Nat.add_0_r. reflexivity.
  - destruct fuel as [|f]; [lia|].
    apply andb_true_iff in Hall as [Ha Hs].
    destruct min as [|m]; simpl; unfold stepChar at 1; simpl; rewrite Ha.
    + assert (E : (S i =? i) = false) by (apply Nat.eqb_neq; lia).
      rewrite E. rewrite (IH f 0 (Some a) (S i) Hs) by lia.
      f_equal. f_equal. lia.
    + rewrite (IH f m (Some a) (S i) Hs) by lia.
      f_equal. f_equal. lia.
Qed.

Lemma OPENAI_KEY_here t :
  20 <= List.length t -> forallb alnumClass t = true ->
  matchHere OPENAI_KEY None 0 (js "sk-" ++ t) = Some (List.length (js "sk-" ++ t)).
Proof.
  intros Hlen Hall. unfold matchHere, OPENAI_KEY.
  cbn [source flags ignoreCase flags_g]. rewrite seqs_cons.
  change (compile false wordB
            {| prevChar := None; rest := js "sk-" ++ t; endIndex := 0 |})
    with (fun c : Continuation =>
            c {| prevChar := None; rest := js "sk-" ++ t; endIndex := 0 |}).
  cbv beta. rewrite seqs_cons. unfold lit. rewrite literal_hit.
  change (compile false (seqs [atLeast 20 alnum]))
    with (fun (x : MatchState) (c : Continuation) =>
            RepeatMatcher (S (20 + List.length (rest x))) (stepChar alnumClass)
              20 None true x c).
  cbv beta. cbn [rest]. rewrite greedy_run_taken by (assumption || lia).
  cbn [endIndex]. rewrite length_app. f_equal; lia.
Qed.

Lemma OPENAI_KEY_at_end prev i : matchHere OPENAI_KEY prev i [] = None.
Proof. destruct prev as [a|]; [destruct (isWordChar a) eqn:E|]; unfold matchHere; cbn; rewrite ?E; reflexivity. Qed.

Lemma OPENAI_KEY_pieces t :
  20 <= List.length t -> forallb alnumClass t = true ->
  pieces OPENAI_KEY (js "sk-" ++ t) = [Matched 0 (js "sk-" ++ t)].
Proof.
  intros Hlen Hall. unfold pieces.
  rewrite <- (app_nil_r (js "sk-" ++ t)) at 1.
  rewrite scan_hit; [|discriminate|].
  2:{ rewrite app_nil_r. apply OPENAI_KEY_here; assumption. }
  cbn [scan]. rewrite OPENAI_KEY_at_end. reflexivity.
Qed.

(** X23.  Under the default patterns, a text that is nothing but [sk-]
    followed by twenty or more letters and digits comes back as the
    marker alone, with a count of 1, however long the key is. *)
Theorem standalone_key_is_redacted (host : Host) (t : JsString) :
  getRedactionPatterns host = DEFAULT_REDACTION_PATTERNS ->
  20 <= List.length t ->
  forallb alnumClass t = true ->
  redactSecrets host (Str (js "sk-" ++ t))
  = Ok {| redacted := Str REDACTED; count := 1 |}.
Proof.
  intros Hpat Hlen Hall. rewrite redactSecrets_string by discriminate.
  rewrite Hpat. unfold redactLoop.
  change DEFAULT_REDACTION_PATTERNS
    with (OPENAI_KEY :: tl DEFAULT_REDACTION_PATTERNS).
  cbn [fold_left].
  assert (Hstep : redactStep (js "sk-" ++ t, 0) OPENAI_KEY = (REDACTED, 1)).
  { unfold redactStep, String_match, String_replace.
    change (clone OPENAI_KEY) with OPENAI_KEY.
    rewrite OPENAI_KEY_pieces by assumption. reflexivity. }
  assert (Hloop : fold_left redactStep (tl DEFAULT_REDACTION_PATTERNS)
                    (redactStep (js "sk-" ++ t, 0) OPENAI_KEY)
                  = (REDACTED, 1)).
  { etransitivity; [apply f_equal; exact Hstep | vm_compute; reflexivity]. }
  f_equal. f_equal.
  - f_equal. exact (f_equal fst Hloop).
  - exact (f_equal snd Hloop).
Qed.

Lemma standalone_key_is_redacted_witness :
  redactSecrets defaultHost (Str (js "sk-abcdefghij0123456789ABCDE"))
  = Ok {| redacted := Str REDACTED; count := 1 |}.
Proof.
  apply (@standalone_key_is_redacted defaultHost
           (js "abcdefghij0123456789ABCDE")).
  - reflexivity.
  - simpl. lia.
  - vm_compute. reflexivity.
Defined.

(** ** Text in which nothing can match *)

Lemma inAlphabet_noneOf alpha ok a :
  noneOf alpha ok = true -> inAlphabet alpha a = true -> ok a = false.
Proof.
  unfold noneOf, inAlphabet. induction alpha as [|b alpha IH]; simpl;
    [discriminate|].
  intros H Ha. apply andb_true_iff in H as [Hb H].
  apply orb_true_iff in Ha as [Ha | Ha].
  - apply N.eqb_eq in Ha. subst b. apply negb_true_iff. exact Hb.
  - apply IH; assumption.
Qed.

Lemma RepeatMatcher_dead_end m :
  forward m -> (forall x, m x (fun _ => None) = None) ->
  forall fuel min max greedy x,
    RepeatMatcher fuel m min max greedy x (fun _ => None) = None.
Proof.
  intros Hf Hm. induction fuel as [|f IH]; intros min max greedy x;
    [reflexivity|].
  cbn [RepeatMatcher].
  assert (Hd : m x (fun y =>
                 if (min =? 0) && (endIndex y =? endIndex x) then None
                 else RepeatMatcher f m (pred min) (option_map pred max)
                        greedy y (fun _ => None)) = None).
  { rewrite (Hf x _ (fun _ => None)); [apply Hm|].
    intros y _. destruct ((min =? 0) && (endIndex y =? endIndex x));
      [reflexivity | apply IH]. }
  rewrite Hd. destruct max as [[|k]|]; destruct (negb (min =? 0));
    destruct (negb greedy); reflexivity.
Qed.

(** A matcher whose continuation always fails fails. *)
Lemma dead_end ic r : forall x, compile ic r x (fun _ => None) = None.
Proof.
  induction r as [ | ch | | inv atoms | r1 IH1 r2 IH2 | r1 IH1 r2 IH2
                   | r1 IH1 min max greedy | cap r1 IH1 | neg r1 IH1 | neg
                   | | ]; intros x; cbn [compile].
  - reflexivity.
  - unfold stepChar. destruct (rest x); [reflexivity|].
    destruct (_ =? _)%N; reflexivity.
  - unfold stepChar. destruct (rest x); [reflexivity|].
    destruct (negb _); reflexivity.
  - unfold stepChar. destruct (rest x); [reflexivity|].
    destruct (xorb _ _); reflexivity.
  - rewrite (@compile_forward ic r1 x _ (fun _ => None)); [apply IH1|].
    intros y _. apply IH2.
  - rewrite IH1. apply IH2.
  - apply RepeatMatcher_dead_end; [apply compile_forward | exact IH1].
  - apply IH1.
  - destruct (compile ic r1 x _); destruct neg; reflexivity.
  - destruct (xorb _ _); reflexivity.
  - destruct (prevChar x); reflexivity.
  - destruct (rest x); reflexivity.
Qed.

Lemma reaches_plainText alpha x y :
  reaches x y -> plainText alpha (rest x) = true ->
  plainText alpha (rest y) = true.
Proof.
  intros (w & H & _) Hx. unfold plainText in *. rewrite H, forallb_app in Hx.
  apply andb_true_iff in Hx. apply Hx.
Qed.

Lemma stepChar_blocked alpha ok x c :
  noneOf alpha ok = true -> plainText alpha (rest x) = true ->
  stepChar ok x c = None.
Proof.
  intros Hno Hx. unfold stepChar. destruct (rest x) as [|a s]; [reflexivity|].
  cbn [plainText forallb] in Hx. apply andb_true_iff in Hx as [Ha _].
  rewrite (@inAlphabet_noneOf alpha ok a Hno Ha). reflexivity.
Qed.

(** The static reading is sound: a pattern that needs a character outside
    [alpha] matches nowhere in a text over [alpha], whatever follows the
    pattern. *)
Lemma needsOutside_blocks ic alpha r :
  needsOutside ic alpha r = true ->
  forall x c, plainText alpha (rest x) = true -> compile ic r x c = None.
Proof.
  induction r as [ | ch | | inv atoms | r1 IH1 r2 IH2 | r1 IH1 r2 IH2
                   | r1 IH1 min max greedy | cap r1 IH1 | neg r1 IH1 | neg
                   | | ]; cbn [needsOutside compile]; intros Hn x c Hx;
    try discriminate.
  - apply (@stepChar_blocked alpha _ x c Hn Hx).
  - apply (@stepChar_blocked alpha _ x c Hn Hx).
  - apply (@stepChar_blocked alpha _ x c Hn Hx).
  - apply orb_true_iff in Hn as [Hn | Hn].
    + apply IH1; assumption.
    + rewrite (@compile_forward ic r1 x _ (fun _ => None)); [apply dead_end|].
      intros y Hy. apply IH2; [exact Hn|].
      apply (@reaches_plainText alpha x y Hy Hx).
  - apply andb_true_iff in Hn as [Hn1 Hn2].
    rewrite (IH1 Hn1 x c Hx). apply IH2; assumption.
  - destruct min as [|min]; [discriminate|].
    destruct max as [[|k]|]; [discriminate| |]; cbn [RepeatMatcher Nat.eqb negb];
      apply IH1; assumption.
  - apply IH1; assumption.
  - destruct neg; [discriminate|]. rewrite (IH1 Hn x _ Hx). reflexivity.
Qed.

Lemma matchHere_plainText alpha R prev i s :
  unmatchable alpha R = true -> plainText alpha s = true ->
  matchHere R prev i s = None.
Proof.
  intros HR Hs. unfold matchHere.
  rewrite (@needsOutside_blocks _ alpha (source R) HR); [reflexivity|exact Hs].
Qed.

Lemma scan_plainText alpha R :
  unmatchable alpha R = true ->
  forall s i prev, plainText alpha s = true -> scan R 0 i prev s = map Kept s.
Proof.
  intros HR. induction s as [|a s IH]; intros i prev Hs; cbn [scan map];
    rewrite (@matchHere_plainText alpha R _ _ _ HR Hs); [reflexivity|].
  cbn [plainText forallb] in Hs. apply andb_true_iff in Hs as [_ Hs].
  f_equal. apply IH. exact Hs.
Qed.

Lemma matchedTexts_kept t : matchedTexts (map Kept t) = [].
Proof. induction t as [|a t IH]; [reflexivity | exact IH]. Qed.

Lemma match_plainText alpha R s :
  unmatchable alpha R = true -> plainText alpha s = true ->
  String_match s R = None.
Proof.
  intros HR Hs. unfold String_match, pieces.
  rewrite (@scan_plainText alpha R HR s 0 None Hs), matchedTexts_kept. reflexivity.
Qed.

Lemma replace_plainText alpha R s repl :
  unmatchable alpha R = true -> plainText alpha s = true ->
  String_replace s R repl = s.
Proof.
  intros HR Hs. apply replace_without_match.
  apply (@match_plainText alpha R s HR Hs).
Qed.

Lemma redactLoop_plainText alpha patterns : forall s n,
  forallb (unmatchable alpha) patterns = true -> plainText alpha s = true ->
  fold_left redactStep patterns (s, n) = (s, n).
Proof.
  induction patterns as [|R ps IH]; intros s n Hp Hs; [reflexivity|].
  cbn [forallb] in Hp. apply andb_true_iff in Hp as [HR Hp].
  cbn [fold_left]. unfold redactStep at 2. rewrite clone_id.
  rewrite (@match_plainText alpha R s HR Hs). apply IH; assumption.
Qed.

Lemma quiet_parts host alpha :
  quiet host alpha = true ->
  unmatchable alpha CONTEXT_SPAN = true
  /\ unmatchable alpha PRIVATE_SPAN = true
  /\ unmatchable alpha SECRET_SPAN = true
  /\ forallb (unmatchable alpha) (getRedactionPatterns host) = true.
Proof.
  unfold quiet. cbn [app forallb]. intros H.
  apply andb_true_iff in H as [H1 H]. apply andb_true_iff in H as [H2 H].
  apply andb_true_iff in H as [H3 H]. tauto.
Qed.

Lemma redactSecrets_plainText host alpha s :
  quiet host alpha = true -> plainText alpha s = true ->
  redactSecrets host (Str s) = Ok {| redacted := Str s; count := 0 |}.
Proof.
  intros Hq Hs. destruct (quiet_parts _ _ Hq) as (_ & _ & _ & Hp).
  destruct s as [|a s]; [apply redactSecrets_empty|].
  rewrite redactSecrets_string by discriminate. unfold redactLoop.
  rewrite (@redactLoop_plainText alpha _ (a :: s) 0 Hp Hs). reflexivity.
Qed.

Lemma In_trimStart c s : In c (trimStart s) -> In c s.
Proof.
  induction s as [|d s IH]; simpl; [tauto|].
  destruct (isWhiteSpace d); simpl; tauto.
Qed.

Lemma plainText_trim alpha s :
  plainText alpha s = true -> plainText alpha (trim s) = true.
Proof.
  unfold plainText. rewrite !forallb_forall. intros H c Hc. apply H.
  unfold trim, trimEnd in Hc. apply in_rev in Hc. apply In_trimStart in Hc.
  apply in_rev in Hc. apply In_trimStart in Hc. exact Hc.
Qed.

(** What the tag passes leave is handed to the pattern pass; when the
    outcome is a text over a quiet alphabet, the second run finds it
    unchanged. *)
Lemma strip_then_stable host alpha s out n :
  quiet host alpha = true ->
  redactSecrets host
    (Str (String_replace
            (String_replace (String_replace s CONTEXT_SPAN [])
               PRIVATE_SPAN []) SECRET_SPAN REDACTED))
  = Ok {| redacted := Str out; count := n |} ->
  plainText alpha out = true ->
  stripMemoryTagsFromPrompt host (Str s) = Ok (trim out)
  /\ stripMemoryTagsFromPrompt host (Str (trim out)) = Ok (trim out).
Proof.
  intros Hq Hred Hout. destruct (quiet_parts _ _ Hq) as (Hc & Hp & Hs & _).
  unfold stripMemoryTagsFromPrompt. rewrite !stripTagsInternal_string.
  cbv zeta. rewrite Hred. cbn [redacted]. split; [reflexivity|].
  assert (Ht := @plainText_trim alpha out Hout).
  rewrite (@replace_plainText alpha CONTEXT_SPAN (trim out) [] Hc Ht).
  rewrite (@replace_plainText alpha PRIVATE_SPAN (trim out) [] Hp Ht).
  rewrite (@replace_plainText alpha SECRET_SPAN (trim out) REDACTED Hs Ht).
  rewrite (@redactSecrets_plainText host alpha (trim out) Hq Ht).
  cbn [redacted]. rewrite trim_idem. reflexivity.
Qed.

Lemma stable_on_plainText host alpha C :
  quiet host alpha = true -> plainText alpha C = true ->
  stripMemoryTagsFromPrompt host (Str C) = Ok (trim C)
  /\ stripMemoryTagsFromPrompt host (Str (trim C)) = Ok (trim C).
Proof.
  intros Hq HC. destruct (quiet_parts _ _ Hq) as (Hc & Hp & Hs & _).
  apply (@strip_then_stable host alpha C C 0 Hq); [|exact HC].
  rewrite (@replace_plainText alpha CONTEXT_SPAN C [] Hc HC).
  rewrite (@replace_plainText alpha PRIVATE_SPAN C [] Hp HC).
  rewrite (@replace_plainText alpha SECRET_SPAN C REDACTED Hs HC).
  apply (@redactSecrets_plainText host alpha C Hq HC).
Qed.

Lemma stable_on_context_spans host alpha segments tail :
  quiet host alpha = true ->
  wellDelimited CONTEXT_OPEN CONTEXT_CLOSE segments tail ->
  plainText alpha (outside [] segments tail) = true ->
  stripMemoryTagsFromPrompt host
    (Str (assemble CONTEXT_OPEN CONTEXT_CLOSE segments tail))
  = Ok (trim (outside [] segments tail))
  /\ stripMemoryTagsFromPrompt host (Str (trim (outside [] segments tail)))
     = Ok (trim (outside [] segments tail)).
Proof.
  intros Hq Hwf Hk. destruct (quiet_parts _ _ Hq) as (_ & Hp & Hs & _).
  apply (@strip_then_stable host alpha _ _ 0 Hq); [|exact Hk].
  rewrite (replace_context_spans Hwf).
  rewrite (@replace_plainText alpha PRIVATE_SPAN _ [] Hp Hk).
  rewrite (@replace_plainText alpha SECRET_SPAN _ REDACTED Hs Hk).
  apply (@redactSecrets_plainText host alpha _ Hq Hk).
Qed.

Lemma stable_on_private_spans host alpha segments tail :
  quiet host alpha = true ->
  wellDelimited PRIVATE_OPEN PRIVATE_CLOSE segments tail ->
  String_match (assemble PRIVATE_OPEN PRIVATE_CLOSE segments tail)
    CONTEXT_SPAN = None ->
  plainText alpha (outside [] segments tail) = true ->
  stripMemoryTagsFromPrompt host
    (Str (assemble PRIVATE_OPEN PRIVATE_CLOSE segments tail))
  = Ok (trim (outside [] segments tail))
  /\ stripMemoryTagsFromPrompt host (Str (trim (outside [] segments tail)))
     = Ok (trim (outside [] segments tail)).
Proof.
  intros Hq Hwf Hctx Hk. destruct (quiet_parts _ _ Hq) as (_ & _ & Hs & _).
  apply (@strip_then_stable host alpha _ _ 0 Hq); [|exact Hk].
  rewrite (@replace_without_match _ CONTEXT_SPAN [] Hctx).
  rewrite (replace_private_spans Hwf).
  rewrite (@replace_plainText alpha SECRET_SPAN _ REDACTED Hs Hk).
  apply (@redactSecrets_plainText host alpha _ Hq Hk).
Qed.

Lemma stable_on_secret_spans host alpha segments tail :
  quiet host alpha = true ->
  wellDelimited SECRET_OPEN SECRET_CLOSE segments tail ->
  String_match (assemble SECRET_OPEN SECRET_CLOSE segments tail)
    CONTEXT_SPAN = None ->
  String_match (assemble SECRET_OPEN SECRET_CLOSE segments tail)
    PRIVATE_SPAN = None ->
  plainText alpha (outside REDACTED segments tail) = true ->
  stripMemoryTagsFromPrompt host
    (Str (assemble SECRET_OPEN SECRET_CLOSE segments tail))
  = Ok (trim (outside REDACTED segments tail))
  /\ stripMemoryTagsFromPrompt host
       (Str (trim (outside REDACTED segments tail)))
     = Ok (trim (outside REDACTED segments tail)).
Proof.
  intros Hq Hwf Hctx Hpriv Hk.
  apply (@strip_then_stable host alpha _ _ 0 Hq); [|exact Hk].
  rewrite (@replace_without_match _ CONTEXT_SPAN [] Hctx).
  rewrite (@replace_without_match _ PRIVATE_SPAN [] Hpriv).
  rewrite (replace_secret_spans Hwf).
  apply (@redactSecrets_plainText host alpha _ Hq Hk).
Qed.

(** ** A key inside a text *)

Lemma greedy_run_stops (ok : CodeUnit -> bool) :
  forall s z fuel min prev i,
    forallb ok s = true -> startsOutside ok z = true ->
    min <= List.length s -> List.length s < fuel ->
    RepeatMatcher fuel (stepChar ok) min None true
      {| prevChar := prev; rest := s ++ z; endIndex := i |} (fun y => Some y)
    = Some {| prevChar := lastOr prev s; rest := z;
              endIndex := i + List.length s |}.
Proof.
  induction s as [|a s IH]; intros z fuel min prev i Hall Hz Hmin Hfuel;
    simpl in *.
  - destruct fuel as [|f]; [lia|]. assert (min = 0) by lia; subst.
    cbn [RepeatMatcher Nat.eqb negb]. unfold stepChar at 1. cbn [rest].
    rewrite Nat.add_0_r. destruct z as [|b z]; [reflexivity|].
    cbn [startsOutside] in Hz. apply negb_true_iff in Hz. rewrite Hz.
    reflexivity.
  - destruct fuel as [|f]; [lia|].
    apply andb_true_iff in Hall as [Ha Hs].
    destruct min as [|m]; simpl; unfold stepChar at 1; simpl; rewrite Ha.
    + assert (E : (S i =? i) = false) by (apply Nat.eqb_neq; lia).
      rewrite E. rewrite (IH z f 0 (Some a) (S i) Hs Hz) by lia.
      f_equal. f_equal. lia.
    + rewrite (IH z f m (Some a) (S i) Hs Hz) by lia.
      f_equal. f_equal. lia.
Qed.

Lemma OPENAI_KEY_found prev i key post :
  match prev with Some a => isWordChar a | None => false end = false ->
  20 <= List.length key -> forallb alnumClass key = true ->
  startsOutside alnumClass post = true ->
  matchHere OPENAI_KEY prev i ((js "sk-" ++ key) ++ post)
  = Some (List.length (js "sk-" ++ key)).
Proof.
  intros Hprev Hlen Hall Hpost. unfold matchHere, OPENAI_KEY.
  cbn [source flags ignoreCase flags_g]. rewrite seqs_cons.
  rewrite <- !app_assoc.
  change (compile false wordB
            {| prevChar := prev; rest := js "sk-" ++ key ++ post;
               endIndex := i |})
    with (fun c : Continuation =>
            if xorb false
                 (xorb match prev with Some a => isWordChar a | None => false end
                       true)
            then c {| prevChar := prev; rest := js "sk-" ++ key ++ post;
                      endIndex := i |}
            else None).
  cbv beta. rewrite Hprev. cbn [xorb].
  rewrite seqs_cons. unfold lit. rewrite literal_hit.
  change (compile false (seqs [atLeast 20 alnum]))
    with (fun (x : MatchState) (c : Continuation) =>
            RepeatMatcher (S (20 + List.length (rest x))) (stepChar alnumClass)
              20 None true x c).
  cbv beta. cbn [rest].
  rewrite greedy_run_stops; try assumption.
  - cbn [endIndex]. rewrite length_app. f_equal. lia.
  - rewrite length_app. lia.
Qed.

Lemma differs_from_absent alpha a c :
  inAlphabet alpha a = true -> inAlphabet alpha c = false -> (a =? c)%N = false.
Proof.
  intros Ha Hc. destruct (N.eqb_spec a c) as [->|]; [|reflexivity].
  rewrite Ha in Hc. discriminate.
Qed.

Lemma no_sk_before alpha v z :
  inAlphabet alpha (cu "-") = false -> plainText alpha v = true -> v <> [] ->
  startsWith (js "sk-") (v ++ js "sk-" ++ z) = false.
Proof.
  intros Hdash Hv Hne.
  destruct v as [|a [|b [|c v]]]; [congruence| | |].
  - cbn. apply andb_false_r.
  - cbn. rewrite andb_false_r. apply andb_false_r.
  - cbn [plainText forallb] in Hv.
    apply andb_true_iff in Hv as [_ Hv]. apply andb_true_iff in Hv as [_ Hv].
    apply andb_true_iff in Hv as [Hc _].
    change (startsWith (js "sk-") ((a :: b :: c :: v) ++ js "sk-" ++ z))
      with ((a =? cu "s")%N && ((b =? cu "k")%N && ((c =? cu "-")%N && true))).
    rewrite (@differs_from_absent alpha c (cu "-") Hc Hdash).
    rewrite !andb_false_r. reflexivity.
Qed.

Lemma OPENAI_KEY_not_before alpha v z p j :
  inAlphabet alpha (cu "-") = false -> plainText alpha v = true -> v <> [] ->
  matchHere OPENAI_KEY p j (v ++ js "sk-" ++ z) = None.
Proof.
  intros Hdash Hv Hne. unfold matchHere, OPENAI_KEY.
  cbn [source flags ignoreCase flags_g]. rewrite seqs_cons.
  cbn [compile wordB]. destruct (xorb false _); [|reflexivity].
  rewrite seqs_cons. unfold lit.
  rewrite literal_miss; [reflexivity|].
  apply (@no_sk_before alpha v z Hdash Hv Hne).
Qed.

Lemma plainText_app alpha s t :
  plainText alpha (s ++ t) = plainText alpha s && plainText alpha t.
Proof. apply forallb_app. Qed.

Lemma matchedTexts_app ps qs :
  matchedTexts (ps ++ qs) = matchedTexts ps ++ matchedTexts qs.
Proof.
  induction ps as [|[c|i m] ps IH]; cbn [app matchedTexts];
    [reflexivity | exact IH | rewrite IH; reflexivity].
Qed.

Lemma OPENAI_KEY_pieces_in_text alpha pre key post :
  unmatchable alpha OPENAI_KEY = true ->
  inAlphabet alpha (cu "-") = false ->
  plainText alpha pre = true -> plainText alpha post = true ->
  endsOutsideWord pre = true ->
  20 <= List.length key -> forallb alnumClass key = true ->
  startsOutside alnumClass post = true ->
  pieces OPENAI_KEY (pre ++ (js "sk-" ++ key) ++ post)
  = map Kept pre ++ Matched (List.length pre) (js "sk-" ++ key)
                    :: map Kept post.
Proof.
  intros HR Hdash Hpre Hpost Hend Hlen Hall Hstart. unfold pieces.
  rewrite scan_misses.
  2:{ intros u v p j E Hne. rewrite <- app_assoc.
      apply (@OPENAI_KEY_not_before alpha v _ p j Hdash); [|exact Hne].
      rewrite E, plainText_app in Hpre.
      apply andb_true_iff in Hpre. apply Hpre. }
  f_equal. rewrite scan_hit; [|discriminate|].
  2:{ apply OPENAI_KEY_found; try assumption.
      unfold endsOutsideWord in Hend.
      destruct (lastOr None pre) as [a|]; [|reflexivity].
      apply negb_true_iff. exact Hend. }
  cbn [Nat.add]. f_equal.
  apply (@scan_plainText alpha OPENAI_KEY HR post _ _ Hpost).
Qed.

Lemma patterns_start_with_defaults host :
  exists custom,
    getRedactionPatterns host = DEFAULT_REDACTION_PATTERNS ++ custom.
Proof.
  unfold getRedactionPatterns.
  destruct (load_REDACT_PATTERNS host) as [[| | | | |s|]|];
    try (exists []; symmetry; apply app_nil_r).
  destruct (truthy (Str s) && truthy (Str (trim s)));
    [eexists; reflexivity | exists []; symmetry; apply app_nil_r].
Qed.

(** The first default pattern takes the key out of the text; over a
    quiet alphabet nothing else is found, neither by the later patterns
    nor by a second run. *)
Lemma redactSecrets_key_in_text host alpha pre key post :
  quiet host alpha = true ->
  inAlphabet alpha (cu "-") = false ->
  plainText alpha (pre ++ REDACTED ++ post) = true ->
  endsOutsideWord pre = true ->
  20 <= List.length key -> forallb alnumClass key = true ->
  startsOutside alnumClass post = true ->
  redactSecrets host (Str (pre ++ (js "sk-" ++ key) ++ post))
  = Ok {| redacted := Str (pre ++ REDACTED ++ post); count := 1 |}.
Proof.
  intros Hq Hdash Hout Hend Hlen Hall Hstart.
  destruct (quiet_parts _ _ Hq) as (_ & _ & _ & Hp).
  destruct (patterns_start_with_defaults host) as [custom Hpat].
  rewrite Hpat in Hp.
  change (DEFAULT_REDACTION_PATTERNS ++ custom)
    with (OPENAI_KEY :: (tl DEFAULT_REDACTION_PATTERNS ++ custom)) in Hp.
  cbn [forallb] in Hp. apply andb_true_iff in Hp as [HR Hp].
  assert (Hparts := Hout). rewrite !plainText_app in Hparts.
  apply andb_true_iff in Hparts as [Hpre Hparts].
  apply andb_true_iff in Hparts as [_ Hpost].
  assert (Hne : pre ++ (js "sk-" ++ key) ++ post <> [])
    by (destruct pre; discriminate).
  rewrite (redactSecrets_string host Hne). rewrite Hpat. unfold redactLoop.
  change (DEFAULT_REDACTION_PATTERNS ++ custom)
    with (OPENAI_KEY :: (tl DEFAULT_REDACTION_PATTERNS ++ custom)).
  cbn [fold_left].
  assert (Hstep : redactStep (pre ++ (js "sk-" ++ key) ++ post, 0) OPENAI_KEY
                  = (pre ++ REDACTED ++ post, 1)).
  { unfold redactStep, String_match, String_replace.
    change (clone OPENAI_KEY) with OPENAI_KEY.
    rewrite (@OPENAI_KEY_pieces_in_text alpha pre key post HR Hdash Hpre Hpost
               Hend Hlen Hall Hstart).
    rewrite matchedTexts_app, matchedTexts_kept. cbn [app matchedTexts].
    rewrite matchedTexts_kept. cbn [List.length Nat.add].
    rewrite rebuild_app, rebuild_kept. cbn [rebuild].
    rewrite rebuild_kept. reflexivity. }
  assert (Hloop : fold_left redactStep (tl DEFAULT_REDACTION_PATTERNS ++ custom)
                    (redactStep (pre ++ (js "sk-" ++ key) ++ post, 0)
                       OPENAI_KEY)
                  = (pre ++ REDACTED ++ post, 1)).
  { etransitivity; [apply f_equal; exact Hstep|].
    apply (@redactLoop_plainText alpha _ (pre ++ REDACTED ++ post) 1 Hp Hout). }
  f_equal. f_equal.
  - f_equal. exact (f_equal fst Hloop).
  - exact (f_equal snd Hloop).
Qed.

Lemma noneOf_char alpha ch :
  inAlphabet alpha ch = false -> noneOf alpha (fun a => (a =? ch)%N) = true.
Proof.
  unfold inAlphabet, noneOf. induction alpha as [|b alpha IH]; simpl;
    [reflexivity|].
  intros H. apply orb_false_iff in H as [Hb H].
  rewrite N.eqb_sym, Hb. exact (IH H).
Qed.

Lemma needsOutside_head alpha ch p r :
  noneOf alpha (fun a => (a =? ch)%N) = true ->
  needsOutside false alpha (RSeq (seqs (map RChar (ch :: p))) r) = true.
Proof.
  intros H. cbn [needsOutside]. apply orb_true_iff. left.
  destruct p as [|d p]; cbn [map seqs needsOutside].
  - exact H.
  - apply orb_true_iff. left. exact H.
Qed.

(** A text without [<] holds no tag span. *)
Lemma no_spans_without_lt alpha :
  inAlphabet alpha (cu "<") = false ->
  unmatchable alpha CONTEXT_SPAN = true
  /\ unmatchable alpha PRIVATE_SPAN = true
  /\ unmatchable alpha SECRET_SPAN = true.
Proof.
  intros H. apply noneOf_char in H. repeat split.
  - exact (@needsOutside_head alpha (cu "<") (js "claude-mem-context>") _ H).
  - exact (@needsOutside_head alpha (cu "<") (js "private>") _ H).
  - exact (@needsOutside_head alpha (cu "<") (js "secret>") _ H).
Qed.

Lemma plainText_self s : plainText s s = true.
Proof.
  unfold plainText. apply forallb_forall. intros c Hc.
  unfold inAlphabet. apply existsb_exists. exists c.
  split; [exact Hc | apply N.eqb_refl].
Qed.

Lemma absent_from_plainText alpha c s :
  inAlphabet alpha c = false -> plainText alpha s = true ->
  inAlphabet s c = false.
Proof.
  intros Hc. unfold inAlphabet at 1. induction s as [|a s IH];
    [reflexivity|].
  cbn [plainText forallb existsb]. intros H.
  apply andb_true_iff in H as [Ha Hs].
  rewrite N.eqb_sym, (@differs_from_absent alpha a c Ha Hc). exact (IH Hs).
Qed.

Lemma absent_from_run (ok : CodeUnit -> bool) c s :
  ok c = false -> forallb ok s = true -> inAlphabet s c = false.
Proof.
  intros Hc. unfold inAlphabet. induction s as [|a s IH]; [reflexivity|].
  cbn [forallb existsb]. intros H. apply andb_true_iff in H as [Ha Hs].
  rewrite (IH Hs), orb_false_r.
  destruct (N.eqb_spec c a) as [->|]; [|reflexivity].
  rewrite Ha in Hc. discriminate.
Qed.

Lemma inAlphabet_app s t c :
  inAlphabet (s ++ t) c = inAlphabet s c || inAlphabet t c.
Proof. apply existsb_app. Qed.

Lemma stable_on_key_in_text host alpha pre key post :
  quiet host alpha = true ->
  inAlphabet alpha (cu "-") = false ->
  inAlphabet alpha (cu "<") = false ->
  plainText alpha (pre ++ REDACTED ++ post) = true ->
  endsOutsideWord pre = true ->
  20 <= List.length key -> forallb alnumClass key = true ->
  startsOutside alnumClass post = true ->
  stripMemoryTagsFromPrompt host (Str (pre ++ (js "sk-" ++ key) ++ post))
  = Ok (trim (pre ++ REDACTED ++ post))
  /\ stripMemoryTagsFromPrompt host (Str (trim (pre ++ REDACTED ++ post)))
     = Ok (trim (pre ++ REDACTED ++ post)).
Proof.
  intros Hq Hdash Hlt Hout Hend Hlen Hall Hstart.
  assert (Hparts := Hout). rewrite !plainText_app in Hparts.
  apply andb_true_iff in Hparts as [Hpre Hparts].
  apply andb_true_iff in Hparts as [_ Hpost].
  set (C := pre ++ (js "sk-" ++ key) ++ post).
  assert (HC : inAlphabet C (cu "<") = false).
  { unfold C. rewrite !inAlphabet_app.
    rewrite (@absent_from_plainText alpha _ pre Hlt Hpre).
    rewrite (@absent_from_plainText alpha _ post Hlt Hpost).
    rewrite (@absent_from_run alnumClass (cu "<") key eq_refl Hall).
    reflexivity. }
  destruct (no_spans_without_lt _ HC) as (Hc & Hp & Hs).
  apply (@strip_then_stable host alpha C _ 1 Hq); [|exact Hout].
  rewrite (@replace_plainText C CONTEXT_SPAN C [] Hc (plainText_self C)).
  rewrite (@replace_plainText C PRIVATE_SPAN C [] Hp (plainText_self C)).
  rewrite (@replace_plainText C SECRET_SPAN C REDACTED Hs (plainText_self C)).
  apply (@redactSecrets_key_in_text host alpha pre key post); assumption.
Qed.



(* ------------------------------------------------------------------ *)
(** ** File permissions *)

Import FilePermissions FsSpec.
Open Scope N_scope.

Lemma JsString_eqb_eq a : forall b, JsString_eqb a b = true <-> a = b.
Proof.
  induction a as [|x a IH]; intros [|y b]; simpl; split; intros H;
    try discriminate; try reflexivity.
  - apply andb_true_iff in H as [Hx Ha]. apply N.eqb_eq in Hx.
    apply IH in Ha. congruence.
  - injection H as -> <-. rewrite N.eqb_refl. apply IH. reflexivity.
Qed.

Lemma Path_eqb_eq p : forall q, Path_eqb p q = true <-> p = q.
Proof.
  induction p as [|x p IH]; intros [|y q]; simpl; split; intros H;
    try discriminate; try reflexivity.
  - apply andb_true_iff in H as [Hx Hp]. apply JsString_eqb_eq in Hx.
    apply IH in Hp. congruence.
  - injection H as -> <-. apply andb_true_iff. split.
    + apply JsString_eqb_eq. reflexivity.
    + apply IH. reflexivity.
Qed.

Lemma Path_eqb_refl p : Path_eqb p p = true.
Proof. apply Path_eqb_eq. reflexivity. Qed.

Lemma Path_eqb_neq p q : p <> q -> Path_eqb p q = false.
Proof.
  intros H. destruct (Path_eqb p q) eqn:E; [|reflexivity].
  apply Path_eqb_eq in E. contradiction.
Qed.

Lemma find_mode_chmod p perm q : forall fs,
  find_mode q (map (chmodEntry p perm) fs)
  = if Path_eqb q p
    then option_map
           (fun m => N.lor (N.land m S_IFMT) (N.land perm (octal [7; 7; 7; 7])))
           (find_mode q fs)
    else find_mode q fs.
Proof.
  induction fs as [|[r m] fs IH]; [destruct (Path_eqb q p); reflexivity|].
  cbn [map find_mode]. unfold chmodEntry at 1. cbn [fst snd].
  destruct (Path_eqb r p) eqn:Erp.
  - apply Path_eqb_eq in Erp. subst r. cbn [find_mode].
    destruct (Path_eqb p q) eqn:Epq.
    + apply Path_eqb_eq in Epq. subst q. rewrite Path_eqb_refl. reflexivity.
    + rewrite IH. reflexivity.
  - cbn [find_mode]. destruct (Path_eqb r q) eqn:Erq.
    + apply Path_eqb_eq in Erq. subst q. rewrite Erp. reflexivity.
    + exact IH.
Qed.

Lemma map_fst_chmod p perm fs :
  map fst (map (chmodEntry p perm) fs) = map fst fs.
Proof.
  rewrite map_map. apply map_ext. intros [r m]. unfold chmodEntry.
  destruct (Path_eqb (fst (r, m)) p); reflexivity.
Qed.

Lemma chmodSync_run p perm w :
  chmodSync p perm w
  = match modeAt p w with
    | None => (Throw (Error "ENOENT"), w)
    | Some _ =>
        if denied w p then (Throw (Error "EPERM"), w)
        else (Ok tt, set_files (map (chmodEntry p perm) (files w)) w)
    end.
Proof. reflexivity. Qed.

(** *** Bits *)

Lemma land_through_chmod m a b c :
  N.land a c = 0%N ->
  N.land (N.lor (N.land m a) b) c = N.land b c.
Proof.
  intros H. rewrite N.land_lor_distr_l, <- N.land_assoc, H, N.land_0_r.
  apply N.lor_0_l.
Qed.

Lemma land_sub m a b : N.land a b = b -> N.land m a = 0%N -> N.land m b = 0%N.
Proof.
  intros Hab H. rewrite <- Hab, N.land_assoc, H. apply N.land_0_l.
Qed.

Lemma land_bit m k :
  (N.land m (2 ^ k) =? 0)%N = negb (N.testbit m k).
Proof.
  destruct (N.testbit m k) eqn:E; simpl.
  - apply N.eqb_neq. intros H.
    assert (Hb : N.testbit (N.land m (2 ^ k)) k = true).
    { rewrite N.land_spec, E, N.pow2_bits_eqb, N.eqb_refl. reflexivity. }
    rewrite H, N.bits_0 in Hb. discriminate.
  - apply N.eqb_eq. apply N.bits_inj. intros n.
    rewrite N.land_spec, N.pow2_bits_eqb, N.bits_0.
    destruct (N.eqb_spec k n) as [->|_]; [rewrite E|]; [reflexivity|].
    apply andb_false_r.
Qed.

Lemma land_ldiff a u c : N.land a c = 0%N -> N.land (N.ldiff a u) c = 0%N.
Proof.
  intros H. apply N.bits_inj. intros n.
  rewrite N.land_spec, N.ldiff_spec, N.bits_0.
  assert (Hn : N.testbit (N.land a c) n = false) by (rewrite H; apply N.bits_0).
  rewrite N.land_spec in Hn.
  destruct (N.testbit a n), (N.testbit c n), (N.testbit u n);
    simpl in *; congruence.
Qed.

Lemma checkPermissions_run p w :
  isWindows w = false ->
  checkPermissions p w
  = match modeAt p w with
    | Some mode => negb (N.testbit mode 5) && negb (N.testbit mode 2)
    | None => false
    end.
Proof.
  intros Hw. unfold checkPermissions, existsSync, statSync. rewrite Hw.
  destruct (modeAt p w) as [mode|]; [|reflexivity]. cbn [negb].
  change (octal [0; 4; 0]) with (2 ^ 5)%N.
  change (octal [0; 0; 4]) with (2 ^ 2)%N.
  rewrite !land_bit, !negb_involutive.
  destruct (N.testbit mode 5), (N.testbit mode 2); reflexivity.
Qed.

Lemma ownerOnly_passes mode :
  ownerOnly mode -> N.testbit mode 5 = false /\ N.testbit mode 2 = false.
Proof.
  unfold ownerOnly. intros H.
  assert (Hn : forall n, N.testbit (N.land mode (octal [0; 7; 7])) n = false)
    by (intros n; rewrite H; apply N.bits_0).
  split.
  - pose proof (Hn 5%N) as H5. rewrite N.land_spec in H5.
    change (N.testbit (octal [0; 7; 7]) 5) with true in H5.
    rewrite andb_true_r in H5. exact H5.
  - pose proof (Hn 2%N) as H2. rewrite N.land_spec in H2.
    change (N.testbit (octal [0; 7; 7]) 2) with true in H2.
    rewrite andb_true_r in H2. exact H2.
Qed.

Lemma setSecurePermissions_run p w :
  isWindows w = false ->
  setSecurePermissions p w
  = match modeAt p w with
    | None => (false, w)
    | Some _ =>
        if denied w p then (false, w)
        else (true, set_files (map (chmodEntry p (octal [6; 0; 0])) (files w)) w)
    end.
Proof.
  intros Hw. unfold setSecurePermissions, existsSync. rewrite Hw.
  rewrite chmodSync_run.
  destruct (modeAt p w); [|reflexivity]. cbn [negb].
  destruct (denied w p); reflexivity.
Qed.

(** X24.  Away from Windows, a file on which [setSecurePermissions]
    reports success has the permission bits rw------- and the type bits
    it had, and [checkPermissions] accepts it. *)
Theorem secured_file_passes_the_check (p : Path) (w w' : World) :
  isWindows w = false ->
  setSecurePermissions p w = (true, w') ->
  exists mode mode',
    modeAt p w = Some mode /\ modeAt p w' = Some mode'
    /\ N.land mode' (octal [7; 7; 7; 7]) = octal [6; 0; 0]
    /\ N.land mode' S_IFMT = N.land mode S_IFMT
    /\ checkPermissions p w' = true.
Proof.
  intros Hw. rewrite setSecurePermissions_run by exact Hw.
  destruct (modeAt p w) as [mode|] eqn:Hm; [|discriminate].
  destruct (denied w p); [discriminate|]. intros H. injection H as <-.
  exists mode. eexists. split; [reflexivity|].
  assert (Hm' : modeAt p (set_files (map (chmodEntry p (octal [6; 0; 0]))
                                         (files w)) w)
                = Some (N.lor (N.land mode S_IFMT)
                          (N.land (octal [6; 0; 0]) (octal [7; 7; 7; 7])))).
  { unfold modeAt in *. cbn [files set_files].
    rewrite find_mode_chmod, Path_eqb_refl, Hm. reflexivity. }
  split; [exact Hm'|]. split; [|split].
  - apply land_through_chmod. reflexivity.
  - rewrite N.land_lor_distr_l, <- N.land_assoc.
    change (N.land S_IFMT S_IFMT) with S_IFMT. apply N.lor_0_r.
  - rewrite checkPermissions_run by exact Hw. rewrite Hm'.
    apply andb_true_iff.
    assert (Ho : ownerOnly (N.lor (N.land mode S_IFMT)
                              (N.land (octal [6; 0; 0]) (octal [7; 7; 7; 7])))).
    { unfold ownerOnly. apply land_through_chmod. reflexivity. }
    destruct (ownerOnly_passes Ho) as [-> ->]. split; reflexivity.
Qed.

Lemma secured_file_passes_the_check_witness :
  checkPermissions (join dataDir (js "settings.json"))
    (snd (setSecurePermissions (join dataDir (js "settings.json")) sample_world))
  = true.
Proof.
  destruct (@secured_file_passes_the_check
              (join dataDir (js "settings.json")) sample_world
              (snd (setSecurePermissions (join dataDir (js "settings.json"))
                      sample_world)))
    as (mode & mode' & _ & _ & _ & _ & H).
  - reflexivity.
  - vm_compute. reflexivity.
  - exact H.
Defined.

(** *** Directories *)

Lemma find_mode_app p e : forall fs,
  find_mode p (fs ++ [e])
  = match find_mode p fs with
    | Some m => Some m
    | None => if Path_eqb (fst e) p then Some (snd e) else None
    end.
Proof.
  induction fs as [|[r m] fs IH]; cbn [app find_mode].
  - destruct e as [r m]. reflexivity.
  - destruct (Path_eqb r p); [reflexivity | exact IH].
Qed.

Lemma mkdirp_creates perm : forall todo done w w',
  todo <> [] ->
  modeAt (done ++ todo) w = None ->
  mkdirp done todo perm w = (Ok tt, w') ->
  modeAt (done ++ todo) w'
  = Some (N.lor S_IFDIR (N.land (N.ldiff perm (umask w)) (octal [7; 7; 7])))
  /\ win32 w' = win32 w.
Proof.
  induction todo as [|name todo IH]; intros done w w' Hne Hnone H;
    [congruence|].
  cbn [mkdirp] in H. destruct todo as [|n2 rest].
  - rewrite Hnone in H. destruct (denied w (done ++ [name])); [discriminate|].
    cbn [mkdirp] in H. apply pair_equal_spec in H as [_ <-].
    split; [|reflexivity].
    unfold modeAt in *. cbn [files set_files].
    rewrite (find_mode_app (done ++ [name]) _ (files w)), Hnone.
    cbn [fst snd]. rewrite Path_eqb_refl. reflexivity.
  - change (done ++ name :: n2 :: rest)
      with (done ++ [name] ++ n2 :: rest) in *.
    rewrite app_assoc in *.
    destruct (modeAt (done ++ [name]) w) as [mode|] eqn:Hm.
    + destruct (isDirectory mode); [|discriminate].
      apply IH; [discriminate | exact Hnone | exact H].
    + destruct (denied w (done ++ [name])); [discriminate|].
      apply IH in H; [exact H | discriminate |].
      unfold modeAt in *. cbn [files set_files].
      rewrite find_mode_app, Hnone. cbn [fst snd].
      rewrite Path_eqb_neq; [reflexivity|].
      intros E. apply (f_equal (@List.length _)) in E.
      rewrite !length_app in E. simpl in E. lia.
Qed.

Lemma ensureSecureDirectory_existing p w w' mode :
  isWindows w = false ->
  modeAt p w = Some mode ->
  ensureSecureDirectory p w = (true, w') ->
  exists mode',
    modeAt p w' = Some mode' /\ isDirectory mode' = true /\ ownerOnly mode'
    /\ isWindows w' = false.
Proof.
  intros Hw Hm H. unfold ensureSecureDirectory, existsSync, statSync in H.
  rewrite Hm in H.
  destruct (isDirectory mode) eqn:Hd; cbn [negb] in H; [|discriminate].
  rewrite Hw in H. cbn [negb] in H.
  assert (Hchmod :
    (let (r, w1) := chmodSync p (octal [7; 0; 0]) w in
     match r with Ok _ => (true, w1) | Throw _ => (false, w1) end)
    = (true, w') ->
    exists mode',
      modeAt p w' = Some mode' /\ isDirectory mode' = true /\ ownerOnly mode'
      /\ isWindows w' = false).
  { rewrite chmodSync_run, Hm.
    destruct (denied w p); [discriminate|]. intros E. injection E as <-.
    eexists. split; [|split; [|split; [|exact Hw]]].
    - unfold modeAt in *. cbn [files set_files].
      rewrite find_mode_chmod, Path_eqb_refl, Hm. reflexivity.
    - unfold isDirectory in *.
      rewrite N.land_lor_distr_l, <- N.land_assoc.
      change (N.land S_IFMT S_IFMT) with S_IFMT.
      rewrite N.lor_0_r. exact Hd.
    - unfold ownerOnly. apply land_through_chmod. reflexivity. }
  destruct (N.land mode (octal [0; 7; 0]) =? 0) eqn:Hg;
    [destruct (N.land mode (octal [0; 0; 7]) =? 0) eqn:Ho|];
    cbn [negb orb] in H; try (apply Hchmod; exact H).
  injection H as <-. exists mode. repeat split; try assumption.
  unfold ownerOnly. apply N.eqb_eq in Hg, Ho.
  change (octal [0; 7; 7]) with (N.lor (octal [0; 7; 0]) (octal [0; 0; 7])).
  rewrite N.land_lor_distr_r, Hg, Ho. reflexivity.
Qed.

(** X25.  Away from Windows, a path on which [ensureSecureDirectory]
    reports success is afterwards a directory without any permission bit
    for the group or the others, whether it was there before or has just
    been made; [checkPermissions] accepts it. *)
Theorem ensured_directory_is_owner_only (p : Path) (w w' : World) :
  isWindows w = false ->
  existsSync [] w = true ->
  ensureSecureDirectory p w = (true, w') ->
  exists mode,
    modeAt p w' = Some mode /\ isDirectory mode = true /\ ownerOnly mode
    /\ checkPermissions p w' = true.
Proof.
  intros Hw Hroot H.
  assert (Hgoal : exists mode,
            modeAt p w' = Some mode /\ isDirectory mode = true
            /\ ownerOnly mode /\ isWindows w' = false).
  { destruct (modeAt p w) as [mode|] eqn:Hm.
    - exact (@ensureSecureDirectory_existing p w w' mode Hw Hm H).
    - unfold ensureSecureDirectory, existsSync in H. rewrite Hm, Hw in H.
      destruct (mkdirSync p (Some (octal [7; 0; 0])) w) as [[[]|e] w2] eqn:Hmk;
        [|discriminate].
      injection H as <-. unfold mkdirSync in Hmk.
      assert (Hp : p <> []).
      { intros ->. unfold existsSync in Hroot. rewrite Hm in Hroot.
        discriminate. }
      apply (@mkdirp_creates _ p [] w w2 Hp Hm) in Hmk.
      destruct Hmk as [Hmode Hwin]. cbn [app] in Hmode.
      eexists. split; [exact Hmode|]. split; [|split].
      + unfold isDirectory.
        rewrite N.land_lor_distr_l, <- N.land_assoc.
        change (N.land (octal [7; 7; 7]) S_IFMT) with 0.
        rewrite N.land_0_r. reflexivity.
      + unfold ownerOnly.
        rewrite N.land_lor_distr_l, <- N.land_assoc.
        change (N.land (octal [7; 7; 7]) (octal [0; 7; 7]))
          with (octal [0; 7; 7]).
        rewrite land_ldiff by reflexivity. reflexivity.
      + unfold isWindows in *. congruence. }
  destruct Hgoal as (mode & Hmode & Hd & Ho & Hw').
  exists mode. repeat split; try assumption.
  rewrite checkPermissions_run by exact Hw'. rewrite Hmode.
  destruct (ownerOnly_passes Ho) as [-> ->]. reflexivity.
Qed.

Lemma ensured_directory_is_owner_only_witness :
  exists mode,
    modeAt (join dataDir (js "archives"))
      (snd (ensureSecureDirectory (join dataDir (js "archives")) sample_world))
    = Some mode
    /\ isDirectory mode = true /\ ownerOnly mode
    /\ checkPermissions (join dataDir (js "archives"))
         (snd (ensureSecureDirectory (join dataDir (js "archives"))
                 sample_world))
       = true.
Proof.
  apply (@ensured_directory_is_owner_only
           (join dataDir (js "archives")) sample_world).
  - reflexivity.
  - reflexivity.
  - vm_compute. reflexivity.
Defined.

(** X26.  Away from Windows, [checkPermissions] accepts a path exactly
    when something is there and neither the read bit of the group nor
    the read bit of the others is set in its mode; no other bit is
    looked at, so that a file the others may write to is accepted. *)
Theorem checkPermissions_reads_two_bits (p : Path) (w : World) :
  isWindows w = false ->
  (checkPermissions p w = true <->
   exists mode, modeAt p w = Some mode /\ notReadableByOthers mode).
Proof.
  intros Hw. rewrite checkPermissions_run by exact Hw.
  unfold notReadableByOthers. split.
  - destruct (modeAt p w) as [mode|]; [|discriminate]. intros H.
    apply andb_true_iff in H as [H5 H2]. apply negb_true_iff in H5, H2.
    exists mode. repeat split; assumption.
  - intros (mode & -> & -> & ->). reflexivity.
Qed.

Lemma checkPermissions_reads_two_bits_witness :
  checkPermissions [js "drop"] writable_world = true.
Proof.
  apply (proj2 (@checkPermissions_reads_two_bits [js "drop"] writable_world
                  eq_refl)).
  exists (regular (octal [6; 2; 2])). repeat split.
Defined.

(** *** What hardening keeps *)

Lemma JsString_eqb_refl a : JsString_eqb a a = true.
Proof. apply JsString_eqb_eq. reflexivity. Qed.

Lemma isPrefix_app p : forall r, isPrefix p (p ++ r) = true.
Proof.
  induction p as [|x p IH]; intros r; [reflexivity|].
  cbn [app isPrefix]. rewrite JsString_eqb_refl. apply IH.
Qed.

Lemma isPrefix_refl p : isPrefix p p = true.
Proof. rewrite <- (app_nil_r p) at 2. apply isPrefix_app. Qed.

Lemma isPrefix_trans d : forall p q,
  isPrefix d p = true -> isPrefix p q = true -> isPrefix d q = true.
Proof.
  induction d as [|x d IH]; intros p q Hdp Hpq; [reflexivity|].
  destruct p as [|y p]; [discriminate|].
  destruct q as [|z q]; [discriminate|].
  cbn [isPrefix] in *.
  apply andb_true_iff in Hdp as [Hxy Hdp].
  apply andb_true_iff in Hpq as [Hyz Hpq].
  apply JsString_eqb_eq in Hxy, Hyz. subst y z.
  rewrite JsString_eqb_refl. exact (IH p q Hdp Hpq).
Qed.

Lemma entryHardened_refl d e : entryHardened d e e.
Proof. unfold entryHardened. tauto. Qed.

Lemma Forall2_same (A : Type) (R : A -> A -> Prop) :
  (forall a, R a a) -> forall l, Forall2 R l l.
Proof. intros HR l. induction l; constructor; auto. Qed.

Lemma Forall2_compose (A : Type) (R : A -> A -> Prop) :
  (forall a b c, R a b -> R b c -> R a c) ->
  forall l1 l2 l3, Forall2 R l1 l2 -> Forall2 R l2 l3 -> Forall2 R l1 l3.
Proof.
  intros HR l1 l2 l3 H12. revert l3.
  induction H12 as [|a b l1 l2 Hab _ IH]; intros l3 H23;
    inversion H23; subst; constructor; eauto.
Qed.

Lemma hardens_refl d w : hardens d w w.
Proof.
  split; [reflexivity|]. apply Forall2_same. apply entryHardened_refl.
Qed.

Lemma hardens_trans d w1 w2 w3 :
  hardens d w1 w2 -> hardens d w2 w3 -> hardens d w1 w3.
Proof.
  intros [Hw12 H12] [Hw23 H23]. split; [congruence|].
  apply (Forall2_compose (R := entryHardened d)) with (l2 := files w2);
    try assumption.
  intros a b c (Hf1 & Ht1 & Hc1 & Ho1) (Hf2 & Ht2 & Hc2 & Ho2).
  split; [|split; [|split]].
  - congruence.
  - congruence.
  - auto.
  - intros Hout. rewrite Ho2, Ho1; [reflexivity | exact Hout |].
    rewrite Hf1. exact Hout.
Qed.

Lemma hardens_weaken d p w w' :
  isPrefix d p = true -> hardens p w w' -> hardens d w w'.
Proof.
  intros Hdp [Hw HF]. split; [exact Hw|].
  apply Forall2_impl with (R1 := entryHardened p); [|exact HF].
  intros a b (Hf & Ht & Hc & Ho).
  split; [exact Hf|]. split; [exact Ht|]. split; [exact Hc|].
  intros Hout. apply Ho.
  destruct (isPrefix p (fst a)) eqn:E; [|reflexivity].
  rewrite (isPrefix_trans d p (fst a) Hdp E) in Hout. discriminate.
Qed.

Lemma chmod_mode_closed mode perm :
  ownerOnly (N.land perm (octal [7; 7; 7; 7])) ->
  notReadableByOthers
    (N.lor (N.land mode S_IFMT) (N.land perm (octal [7; 7; 7; 7]))).
Proof.
  intros Hperm. apply ownerOnly_passes. unfold ownerOnly in *.
  rewrite land_through_chmod by reflexivity. exact Hperm.
Qed.

Lemma chmod_mode_type mode perm :
  N.land (N.lor (N.land mode S_IFMT) (N.land perm (octal [7; 7; 7; 7])))
    S_IFMT
  = N.land mode S_IFMT.
Proof.
  rewrite N.land_lor_distr_l, <- !N.land_assoc.
  change (N.land S_IFMT S_IFMT) with S_IFMT.
  change (N.land (octal [7; 7; 7; 7]) S_IFMT) with 0.
  rewrite N.land_0_r. apply N.lor_0_r.
Qed.

Lemma chmod_hardens p perm :
  ownerOnly (N.land perm (octal [7; 7; 7; 7])) ->
  forall fs, Forall2 (entryHardened p) fs (map (chmodEntry p perm) fs).
Proof.
  intros Hperm fs. induction fs as [|[r m] fs IH]; cbn [map]; constructor;
    [|exact IH].
  unfold chmodEntry. cbn [fst snd]. destruct (Path_eqb r p) eqn:E.
  - apply Path_eqb_eq in E. subst r.
    split; [reflexivity|]. cbn [fst snd]. split; [|split].
    + apply chmod_mode_type.
    + intros _. apply chmod_mode_closed. exact Hperm.
    + rewrite isPrefix_refl. discriminate.
  - apply entryHardened_refl.
Qed.

Lemma chmodSync_hardens p perm w :
  ownerOnly (N.land perm (octal [7; 7; 7; 7])) ->
  hardens p w (snd (chmodSync p perm w)).
Proof.
  intros Hperm. rewrite chmodSync_run.
  destruct (modeAt p w); [|apply hardens_refl].
  destruct (denied w p); [apply hardens_refl|].
  split; [reflexivity|]. cbn [snd files set_files].
  apply chmod_hardens. exact Hperm.
Qed.

Lemma setSecurePermissions_hardens p w :
  hardens p w (snd (setSecurePermissions p w)).
Proof.
  unfold setSecurePermissions.
  destruct (isWindows w); [apply hardens_refl|].
  destruct (existsSync p w); [|apply hardens_refl]. cbn [negb].
  pose proof (@chmodSync_hardens p (octal [6; 0; 0]) w eq_refl) as H.
  destruct (chmodSync p (octal [6; 0; 0]) w) as [[u|e] w1]; exact H.
Qed.

Lemma ensureSecureDirectory_hardens p w :
  existsSync p w = true ->
  hardens p w (snd (ensureSecureDirectory p w)).
Proof.
  intros Hex. unfold ensureSecureDirectory. rewrite Hex.
  destruct (statSync p w) as [mode|e]; [|apply hardens_refl].
  destruct (isDirectory mode); [|apply hardens_refl]. cbn [negb].
  destruct (isWindows w); [apply hardens_refl|]. cbn [negb].
  destruct (_ || _); [|apply hardens_refl].
  pose proof (@chmodSync_hardens p (octal [7; 0; 0]) w eq_refl) as H.
  destruct (chmodSync p (octal [7; 0; 0]) w) as [[u|e] w1]; exact H.
Qed.

Lemma hardens_modeAt d w w' q :
  hardens d w w' ->
  match modeAt q w with
  | Some mode =>
      exists mode',
        modeAt q w' = Some mode'
        /\ N.land mode' S_IFMT = N.land mode S_IFMT
        /\ (notReadableByOthers mode -> notReadableByOthers mode')
        /\ (isPrefix d q = false -> mode' = mode)
  | None => modeAt q w' = None
  end.
Proof.
  intros [_ HF]. unfold modeAt.
  induction HF as [|[r m] [r' m'] fs fs' (Hf & Ht & Hc & Ho) _ IH];
    [reflexivity|].
  cbn [fst snd] in *. subst r'. cbn [find_mode].
  destruct (Path_eqb r q) eqn:E; [|exact IH].
  apply Path_eqb_eq in E. subst r. exists m'.
  split; [reflexivity|]. split; [exact Ht|]. split; [exact Hc | exact Ho].
Qed.

Lemma hardens_exists d w w' q :
  hardens d w w' -> existsSync q w' = existsSync q w.
Proof.
  intros H. pose proof (hardens_modeAt q H) as Hq. unfold existsSync.
  destruct (modeAt q w) as [mode|].
  - destruct Hq as (mode' & -> & _). reflexivity.
  - rewrite Hq. reflexivity.
Qed.

Lemma hardens_check d w w' q :
  isWindows w = false -> hardens d w w' ->
  checkPermissions q w = true -> checkPermissions q w' = true.
Proof.
  intros Hw H. assert (Hw' : isWindows w' = false).
  { destruct H as [E _]. unfold isWindows in *. congruence. }
  rewrite !checkPermissions_run by assumption.
  pose proof (hardens_modeAt q H) as Hq.
  destruct (modeAt q w) as [mode|]; [|discriminate].
  destruct Hq as (mode' & -> & _ & Hc & _). intros Hm.
  apply andb_true_iff in Hm as [H5 H2]. apply negb_true_iff in H5, H2.
  destruct (Hc (conj H5 H2)) as [-> ->]. reflexivity.
Qed.

Lemma hardens_windows d w w' :
  hardens d w w' -> isWindows w' = isWindows w.
Proof. intros [E _]. exact E. Qed.

Lemma hardens_In d w w' q mode :
  hardens d w w' -> In (q, mode) (files w) ->
  exists mode',
    In (q, mode') (files w') /\ N.land mode' S_IFMT = N.land mode S_IFMT.
Proof.
  intros [_ HF].
  induction HF as [|[r m] [r' m'] fs fs' (Hf & Ht & _) _ IH]; intros Hin;
    [destruct Hin|].
  cbn [fst snd] in *. subst r'. destruct Hin as [E|Hin].
  - injection E as -> ->. exists m'. split; [left; reflexivity | exact Ht].
  - destruct (IH Hin) as (mode' & Hin' & Ht'). exists mode'.
    split; [right; exact Hin' | exact Ht'].
Qed.

Lemma hardens_paths d w w' :
  hardens d w w' -> map fst (files w') = map fst (files w).
Proof.
  intros [_ HF].
  induction HF as [|e e' fs fs' (Hf & _) _ IH]; [reflexivity|].
  cbn [map]. rewrite Hf, IH. reflexivity.
Qed.

Lemma hardens_below d w w' p q :
  hardens d w w' -> below w p q -> below w' p q.
Proof.
  intros H Hb.
  induction Hb as [p name mode Hin Hty | p name mode Hin Hty
                   | p name mode q Hin Hty _ IH].
  - destruct (@hardens_In _ _ _ _ _ H Hin) as (mode' & Hin' & Ht).
    apply below_file with (mode := mode'); [exact Hin'|].
    unfold isFile in *. rewrite Ht. exact Hty.
  - destruct (@hardens_In _ _ _ _ _ H Hin) as (mode' & Hin' & Ht).
    apply below_directory with (mode := mode'); [exact Hin'|].
    unfold isDirectory in *. rewrite Ht. exact Hty.
  - destruct (@hardens_In _ _ _ _ _ H Hin) as (mode' & Hin' & Ht).
    apply below_deeper with (name := name) (mode := mode'); [exact Hin'| |exact IH].
    unfold isDirectory in *. rewrite Ht. exact Hty.
Qed.

Close Scope N_scope.

(** *** Listing a directory *)

Lemma entryName_join p name : entryName p (join p name) = Some name.
Proof.
  unfold join. induction p as [|x p IH]; cbn [app entryName]; [reflexivity|].
  rewrite JsString_eqb_refl. exact IH.
Qed.

Lemma entryName_inv p : forall q name,
  entryName p q = Some name -> q = join p name.
Proof.
  unfold join. induction p as [|x p IH]; intros q name H.
  - destruct q as [|y [|z q]]; try discriminate. injection H as ->.
    reflexivity.
  - destruct q as [|y q]; [discriminate|]. cbn [entryName] in H.
    destruct (JsString_eqb x y) eqn:E; [|discriminate].
    apply JsString_eqb_eq in E. subst y. cbn [app]. f_equal. apply IH, H.
Qed.

Lemma In_entriesOf p name mode fs :
  In (join p name, mode) fs ->
  In {| d_name := name; d_mode := mode |} (entriesOf p fs).
Proof.
  induction fs as [|[q m] fs IH]; [contradiction|].
  intros [E|Hin]; cbn [entriesOf].
  - injection E as -> ->. rewrite entryName_join. left. reflexivity.
  - destruct (entryName p q); [right|]; apply IH, Hin.
Qed.

Lemma entriesOf_In p e fs :
  In e (entriesOf p fs) -> In (join p (d_name e), d_mode e) fs.
Proof.
  induction fs as [|[q m] fs IH]; cbn [entriesOf]; [contradiction|].
  destruct (entryName p q) as [name|] eqn:E.
  - intros [<-|Hin]; [left | right; apply IH, Hin].
    cbn [d_name d_mode]. apply entryName_inv in E. congruence.
  - intros Hin. right. apply IH, Hin.
Qed.

Lemma find_mode_In q mode fs : find_mode q fs = Some mode -> In (q, mode) fs.
Proof.
  induction fs as [|[r m] fs IH]; [discriminate|]. cbn [find_mode].
  destruct (Path_eqb r q) eqn:E.
  - apply Path_eqb_eq in E. intros H. injection H as ->. left. congruence.
  - intros H. right. apply IH, H.
Qed.

Lemma In_paths_exists q w : In q (map fst (files w)) -> existsSync q w = true.
Proof.
  unfold existsSync, modeAt. induction (files w) as [|[r m] fs IH];
    [contradiction|].
  cbn [map fst find_mode]. intros [->|Hin].
  - rewrite Path_eqb_refl. reflexivity.
  - destruct (Path_eqb r q); [reflexivity | apply IH, Hin].
Qed.

Lemma In_exists q mode w : In (q, mode) (files w) -> existsSync q w = true.
Proof.
  intros H. apply In_paths_exists.
  change q with (fst (q, mode)). apply in_map. exact H.
Qed.

Lemma readdirSync_Ok p w entries :
  readdirSync p w = Ok entries -> entries = entriesOf p (files w).
Proof.
  unfold readdirSync. destruct (modeAt p w) as [mode|]; [|discriminate].
  destruct (isDirectory mode); [|discriminate]. cbn [negb].
  destruct (unreadable w p); [discriminate|]. congruence.
Qed.

Lemma listed_entry_exists p w e :
  In e (entriesOf p (files w)) -> existsSync (join p (d_name e)) w = true.
Proof. intros H. apply entriesOf_In in H. exact (In_exists _ _ _ H). Qed.

(** *** The loops *)

Lemma hardenDirectoryRec_S fuel p w :
  hardenDirectoryRec (S fuel) p w
  = match readdirSync p w with
    | Throw _ => Some (false, w)
    | Ok entries => hardenEntries (hardenDirectoryRec fuel) p entries true w
    end.
Proof. reflexivity. Qed.

Lemma isPrefix_join p name : isPrefix p (join p name) = true.
Proof. apply isPrefix_app. Qed.

Lemma hardenEntries_hardens self dir :
  (forall p w r, self p w = Some r -> hardens p w (snd r)) ->
  forall entries all w r,
    (forall e, In e entries -> existsSync (join dir (d_name e)) w = true) ->
    hardenEntries self dir entries all w = Some r ->
    hardens dir w (snd r).
Proof.
  intros Hself.
  induction entries as [|a entries IH]; intros all w r Hex H;
    cbn [hardenEntries] in H.
  - injection H as <-. apply hardens_refl.
  - assert (Hrest : forall w1, hardens dir w w1 ->
              forall e, In e entries ->
                existsSync (join dir (d_name e)) w1 = true).
    { intros w1 H1 e He. rewrite (@hardens_exists _ _ _ _ H1).
      apply Hex. right. exact He. }
    destruct (isDirectory (d_mode a)); [|destruct (isFile (d_mode a))].
    + pose proof (@ensureSecureDirectory_hardens (join dir (d_name a)) w
                    (Hex a (or_introl eq_refl))) as H1.
      destruct (ensureSecureDirectory (join dir (d_name a)) w) as [ok w1].
      cbn [snd] in H1.
      destruct (self (join dir (d_name a)) w1) as [[ok2 w2]|] eqn:E2;
        [|discriminate].
      pose proof (Hself _ _ _ E2) as H2. cbn [snd] in H2.
      assert (H12 : hardens dir w w2).
      { apply (@hardens_weaken _ _ _ _ (isPrefix_join dir (d_name a))).
        exact (@hardens_trans _ _ _ _ H1 H2). }
      apply (@hardens_trans _ _ _ _ H12). apply (IH _ _ _ (Hrest _ H12) H).
    + pose proof (setSecurePermissions_hardens (join dir (d_name a)) w) as H1.
      destruct (setSecurePermissions (join dir (d_name a)) w) as [ok w1].
      cbn [snd] in H1.
      apply (@hardens_weaken _ _ _ _ (isPrefix_join dir (d_name a))) in H1.
      apply (@hardens_trans _ _ _ _ H1). apply (IH _ _ _ (Hrest _ H1) H).
    + apply (IH _ _ _ (Hrest _ (hardens_refl dir w)) H).
Qed.

Lemma hardenDirectoryRec_hardens : forall fuel p w r,
  hardenDirectoryRec fuel p w = Some r -> hardens p w (snd r).
Proof.
  induction fuel as [|fuel IH]; intros p w r H; [discriminate|].
  rewrite hardenDirectoryRec_S in H.
  destruct (readdirSync p w) as [entries|e] eqn:Hread.
  - apply readdirSync_Ok in Hread. subst entries.
    apply (@hardenEntries_hardens _ p IH _ _ _ _) with (2 := H).
    intros e. apply listed_entry_exists.
  - injection H as <-. apply hardens_refl.
Qed.

Lemma setSecurePermissions_closes p w w' :
  isWindows w = false ->
  setSecurePermissions p w = (true, w') ->
  checkPermissions p w' = true.
Proof.
  intros Hw H. rewrite setSecurePermissions_run in H by exact Hw.
  destruct (modeAt p w) as [mode|] eqn:Hm; [|discriminate].
  destruct (denied w p); [discriminate|]. injection H as <-.
  rewrite checkPermissions_run by exact Hw.
  unfold modeAt in *. cbn [files set_files].
  rewrite find_mode_chmod, Path_eqb_refl, Hm. cbn [option_map].
  destruct (@chmod_mode_closed mode (octal [6; 0; 0]%N) eq_refl) as [-> ->].
  reflexivity.
Qed.

Lemma ensureSecureDirectory_closes p w w' :
  isWindows w = false ->
  existsSync p w = true ->
  ensureSecureDirectory p w = (true, w') ->
  checkPermissions p w' = true.
Proof.
  intros Hw Hex H. unfold existsSync in Hex.
  destruct (modeAt p w) as [mode|] eqn:Hm; [|discriminate].
  destruct (@ensureSecureDirectory_existing p w w' mode Hw Hm H)
    as (mode' & Hm' & _ & Ho & Hw').
  rewrite checkPermissions_run by exact Hw'. rewrite Hm'.
  destruct (ownerOnly_passes Ho) as [-> ->]. reflexivity.
Qed.

Lemma all_successful (ok allSuccessful : bool) :
  (if negb ok then false else allSuccessful) = true ->
  ok = true /\ allSuccessful = true.
Proof. destruct ok, allSuccessful; simpl; intros H; auto; discriminate. Qed.

Lemma hardenEntries_covers self dir :
  (forall p w r, self p w = Some r -> hardens p w (snd r)) ->
  (forall p w w', isWindows w = false -> self p w = Some (true, w') ->
     forall q, below w p q -> checkPermissions q w' = true) ->
  forall entries all w w',
    isWindows w = false ->
    (forall e, In e entries -> existsSync (join dir (d_name e)) w = true) ->
    hardenEntries self dir entries all w = Some (true, w') ->
    all = true
    /\ forall e, In e entries ->
         (isDirectory (d_mode e) = true \/ isFile (d_mode e) = true ->
          checkPermissions (join dir (d_name e)) w' = true)
         /\ (isDirectory (d_mode e) = true ->
             forall q, below w (join dir (d_name e)) q ->
                       checkPermissions q w' = true).
Proof.
  intros Hself Hcov.
  induction entries as [|a entries IH]; intros all w w' Hw Hex H.
  - cbn [hardenEntries] in H. injection H as -> <-.
    split; [reflexivity|]. intros e [].
  - pose proof H as Hloop. cbn [hardenEntries] in H.
    assert (Hrest : forall w1, hardens dir w w1 ->
              forall e, In e entries ->
                existsSync (join dir (d_name e)) w1 = true).
    { intros w1 H1 e He. rewrite (@hardens_exists _ _ _ _ H1).
      apply Hex. right. exact He. }
    assert (Hwin : forall w1, hardens dir w w1 -> isWindows w1 = false).
    { intros w1 H1. rewrite (@hardens_windows _ _ _ H1). exact Hw. }
    destruct (isDirectory (d_mode a)) eqn:Hd;
      [|destruct (isFile (d_mode a)) eqn:Hf].
    + pose proof (@ensureSecureDirectory_hardens (join dir (d_name a)) w
                    (Hex a (or_introl eq_refl))) as H1.
      destruct (ensureSecureDirectory (join dir (d_name a)) w) as [ok w1]
        eqn:E1.
      cbn [snd] in H1.
      destruct (self (join dir (d_name a)) w1) as [[ok2 w2]|] eqn:E2;
        [|discriminate].
      pose proof (Hself _ _ _ E2) as H2. cbn [snd] in H2.
      assert (H12 : hardens dir w w2).
      { apply (@hardens_weaken _ _ _ _ (isPrefix_join dir (d_name a))).
        exact (@hardens_trans _ _ _ _ H1 H2). }
      pose proof (@hardenEntries_hardens _ dir Hself _ _ _ _
                    (Hrest _ H12) H) as H2'. cbn [snd] in H2'.
      destruct (IH _ _ _ (Hwin _ H12) (Hrest _ H12) H) as [Hall Hin].
      apply all_successful in Hall as [-> Hall].
      apply all_successful in Hall as [-> ->].
      split; [reflexivity|]. intros e [<-|He].
      * assert (Hw1 : isWindows w1 = false).
        { rewrite (@hardens_windows _ _ _ H1). exact Hw. }
        split.
        -- intros _. apply (@hardens_check _ _ _ _ (Hwin _ H12) H2').
           apply (@hardens_check _ _ _ _ Hw1 H2).
           exact (@ensureSecureDirectory_closes _ _ _ Hw
                    (Hex a (or_introl eq_refl)) E1).
        -- intros _ q Hq. apply (@hardens_check _ _ _ _ (Hwin _ H12) H2').
           apply (Hcov _ _ _ Hw1 E2). exact (@hardens_below _ _ _ _ _ H1 Hq).
      * destruct (Hin e He) as [Hc Hb]. split; [exact Hc|].
        intros Hde q Hq. apply (Hb Hde).
        exact (@hardens_below _ _ _ _ _
                 (@hardens_trans _ _ _ _ H1 H2) Hq).
    + pose proof (setSecurePermissions_hardens (join dir (d_name a)) w) as H1.
      destruct (setSecurePermissions (join dir (d_name a)) w) as [ok w1]
        eqn:E1.
      cbn [snd] in H1.
      assert (H1' : hardens dir w w1)
        by exact (@hardens_weaken _ _ _ _ (isPrefix_join dir (d_name a)) H1).
      pose proof (@hardenEntries_hardens _ dir Hself _ _ _ _
                    (Hrest _ H1') H) as H2'. cbn [snd] in H2'.
      destruct (IH _ _ _ (Hwin _ H1') (Hrest _ H1') H) as [Hall Hin].
      apply all_successful in Hall as [-> ->].
      split; [reflexivity|]. intros e [<-|He].
      * split; [|rewrite Hd; discriminate].
        intros _. apply (@hardens_check _ _ _ _ (Hwin _ H1') H2').
        exact (@setSecurePermissions_closes _ _ _ Hw E1).
      * destruct (Hin e He) as [Hc Hb]. split; [exact Hc|].
        intros Hde q Hq. apply (Hb Hde).
        exact (@hardens_below _ _ _ _ _ H1 Hq).
    + destruct (IH _ _ _ Hw (Hrest _ (hardens_refl dir w)) H) as [Hall Hin].
      split; [exact Hall|]. intros e [<-|He].
      * split; [intros [E|E]; congruence | rewrite Hd; discriminate].
      * exact (Hin e He).
Qed.

Lemma hardenDirectoryRec_covers : forall fuel p w w',
  isWindows w = false ->
  hardenDirectoryRec fuel p w = Some (true, w') ->
  forall q, below w p q -> checkPermissions q w' = true.
Proof.
  induction fuel as [|fuel IH]; intros p w w' Hw H q Hb; [discriminate|].
  rewrite hardenDirectoryRec_S in H.
  destruct (readdirSync p w) as [entries|e] eqn:Hread; [|discriminate].
  apply readdirSync_Ok in Hread. subst entries.
  destruct (@hardenEntries_covers _ p (hardenDirectoryRec_hardens fuel) IH
              _ _ _ _ Hw (fun e => @listed_entry_exists p w e) H)
    as [_ Hall].
  inversion Hb as [name mode Hin Hty | name mode Hin Hty
                   | name mode q' Hin Hty Hdeep]; subst.
  - apply In_entriesOf in Hin. destruct (Hall _ Hin) as [Hc _].
    apply Hc. right. exact Hty.
  - apply In_entriesOf in Hin. destruct (Hall _ Hin) as [Hc _].
    apply Hc. left. exact Hty.
  - apply In_entriesOf in Hin. destruct (Hall _ Hin) as [_ Hd].
    exact (Hd Hty q Hdeep).
Qed.

(** *** The depth bound is enough *)

Lemma hardenEntries_mono self1 self2 dir :
  (forall p w r, self1 p w = Some r -> self2 p w = Some r) ->
  forall entries all w r,
    hardenEntries self1 dir entries all w = Some r ->
    hardenEntries self2 dir entries all w = Some r.
Proof.
  intros Hself. induction entries as [|a entries IH]; intros all w r H;
    cbn [hardenEntries] in *; [exact H|].
  destruct (isDirectory (d_mode a)); [|destruct (isFile (d_mode a))].
  - destruct (ensureSecureDirectory (join dir (d_name a)) w) as [ok w1].
    destruct (self1 (join dir (d_name a)) w1) as [[ok2 w2]|] eqn:E;
      [|discriminate].
    rewrite (Hself _ _ _ E). apply IH, H.
  - destruct (setSecurePermissions (join dir (d_name a)) w) as [ok w1].
    apply IH, H.
  - apply IH, H.
Qed.

Lemma hardenDirectoryRec_mono : forall fuel p w r,
  hardenDirectoryRec fuel p w = Some r ->
  hardenDirectoryRec (S fuel) p w = Some r.
Proof.
  induction fuel as [|fuel IH]; intros p w r H; [discriminate|].
  rewrite hardenDirectoryRec_S in *.
  destruct (readdirSync p w) as [entries|e]; [|exact H].
  exact (@hardenEntries_mono _ _ p IH _ _ _ _ H).
Qed.

Lemma hardenDirectoryRec_le fuel fuel' p w r :
  fuel <= fuel' ->
  hardenDirectoryRec fuel p w = Some r ->
  hardenDirectoryRec fuel' p w = Some r.
Proof.
  intros Hle H. induction Hle as [|fuel' _ IH]; [exact H|].
  apply hardenDirectoryRec_mono, IH.
Qed.

Lemma depth_In q w : In q (map fst (files w)) -> List.length q <= depth w.
Proof.
  intros H. unfold depth.
  assert (Hall : Forall (fun k => k <= list_max
                   (map (fun e : Path * N => List.length (fst e)) (files w)))
                   (map (fun e : Path * N => List.length (fst e)) (files w)))
    by (apply list_max_le; apply Nat.le_refl).
  rewrite Forall_forall in Hall. apply Hall.
  rewrite <- (map_map fst (@List.length JsString)).
  apply in_map. exact H.
Qed.

Lemma depth_paths w w' :
  map fst (files w') = map fst (files w) -> depth w' = depth w.
Proof.
  intros H. unfold depth.
  rewrite <- !(map_map fst (@List.length JsString)).
  f_equal. f_equal. exact H.
Qed.

Lemma hardenEntries_terminates self dir P entries :
  (forall e w, In e entries -> isDirectory (d_mode e) = true ->
     map fst (files w) = P ->
     exists r, self (join dir (d_name e)) w = Some r
               /\ map fst (files (snd r)) = P) ->
  (forall e, In e entries -> In (join dir (d_name e)) P) ->
  forall all w,
    map fst (files w) = P ->
    exists r, hardenEntries self dir entries all w = Some r
              /\ map fst (files (snd r)) = P.
Proof.
  induction entries as [|a entries IH]; intros Hself Hin all w HP;
    cbn [hardenEntries].
  - eexists. split; [reflexivity | exact HP].
  - assert (Hex : existsSync (join dir (d_name a)) w = true).
    { apply In_paths_exists. rewrite HP. apply Hin. left. reflexivity. }
    assert (IH' : forall all w, map fst (files w) = P ->
              exists r, hardenEntries self dir entries all w = Some r
                        /\ map fst (files (snd r)) = P).
    { apply IH.
      - intros e w1 He. apply Hself. right. exact He.
      - intros e He. apply Hin. right. exact He. }
    destruct (isDirectory (d_mode a)) eqn:Hd;
      [|destruct (isFile (d_mode a))].
    + pose proof (@ensureSecureDirectory_hardens _ w Hex) as H1.
      destruct (ensureSecureDirectory (join dir (d_name a)) w) as [ok w1].
      cbn [snd] in H1. apply hardens_paths in H1. rewrite HP in H1.
      destruct (Hself a w1 (or_introl eq_refl) Hd H1)
        as ([ok2 w2] & E2 & HP2).
      rewrite E2. apply IH'. exact HP2.
    + pose proof (setSecurePermissions_hardens (join dir (d_name a)) w) as H1.
      destruct (setSecurePermissions (join dir (d_name a)) w) as [ok w1].
      cbn [snd] in H1. apply hardens_paths in H1. rewrite HP in H1.
      apply IH'. exact H1.
    + apply IH'. exact HP.
Qed.

Lemma length_join p name : List.length (join p name) = S (List.length p).
Proof. unfold join. rewrite length_app. simpl. lia. Qed.

Lemma hardenDirectoryRec_terminates : forall fuel p w,
  depth w <= fuel + List.length p ->
  exists r, hardenDirectoryRec (S fuel) p w = Some r
            /\ map fst (files (snd r)) = map fst (files w).
Proof.
  induction fuel as [|fuel IH]; intros p w Hd; rewrite hardenDirectoryRec_S;
    (destruct (readdirSync p w) as [entries|e] eqn:Hread;
     [|eexists; split; reflexivity]);
    apply readdirSync_Ok in Hread; subst entries;
    apply hardenEntries_terminates; try reflexivity.
  - intros e w1 He _ _. exfalso. apply entriesOf_In in He.
    apply (in_map fst) in He. apply depth_In in He. cbn [fst] in He.
    rewrite length_join in He. lia.
  - intros e He. apply entriesOf_In in He. apply (in_map fst) in He.
    exact He.
  - intros e w1 He _ HP.
    destruct (IH (join p (d_name e)) w1) as (r & Hr & HPr).
    + rewrite (depth_paths _ _ HP), length_join. lia.
    + exists r. split; [exact Hr|]. rewrite HPr. exact HP.
  - intros e He. apply entriesOf_In in He. apply (in_map fst) in He.
    exact He.
Qed.

Lemma hardenDirectoryRecursive_run p w :
  hardenDirectoryRec (S (depth w)) p w = Some (hardenDirectoryRecursive p w).
Proof.
  unfold hardenDirectoryRecursive.
  destruct (hardenDirectoryRec_terminates (depth w) p w) as (r & -> & _);
    [lia | reflexivity].
Qed.

(** X27.  The bound that [hardenDirectoryRecursive] is run with is never
    reached: with any bound above the length of the longest path, the
    bounded function ends, and with the same result. *)
Theorem depth_bound_is_never_reached (p : Path) (w : World) (fuel : nat) :
  depth w < fuel ->
  hardenDirectoryRec fuel p w = Some (hardenDirectoryRecursive p w).
Proof.
  intros Hfuel. apply hardenDirectoryRec_le with (fuel := S (depth w));
    [lia | apply hardenDirectoryRecursive_run].
Qed.

Lemma depth_bound_is_never_reached_witness :
  hardenDirectoryRec 9 (join dataDir (js "chroma")) sample_world
  = Some (hardenDirectoryRecursive (join dataDir (js "chroma")) sample_world).
Proof.
  apply (@depth_bound_is_never_reached
           (join dataDir (js "chroma")) sample_world 9).
  vm_compute. lia.
Defined.

(** X28.  Away from Windows, when [hardenDirectoryRecursive] reports
    success, [checkPermissions] accepts every file and every directory
    that was below the directory, at any depth, as far as it can be
    reached through directories. *)
Theorem hardenDirectoryRecursive_covers_the_tree (p : Path) (w w' : World) :
  isWindows w = false ->
  hardenDirectoryRecursive p w = (true, w') ->
  forall q, below w p q -> checkPermissions q w' = true.
Proof.
  intros Hw H. apply (@hardenDirectoryRec_covers (S (depth w)) p w w' Hw).
  rewrite hardenDirectoryRecursive_run, H. reflexivity.
Qed.

Lemma hardenDirectoryRecursive_covers_the_tree_witness :
  checkPermissions
    (join (join (join dataDir (js "chroma")) (js "index")) (js "data.bin"))
    (snd (hardenDirectoryRecursive (join dataDir (js "chroma")) sample_world))
  = true.
Proof.
  apply (@hardenDirectoryRecursive_covers_the_tree
           (join dataDir (js "chroma")) sample_world
           (snd (hardenDirectoryRecursive (join dataDir (js "chroma"))
                   sample_world))).
  - reflexivity.
  - vm_compute. reflexivity.
  - apply below_deeper
      with (name := js "index") (mode := directory (octal [7; 5; 5]%N)).
    + simpl. tauto.
    + reflexivity.
    + apply below_file
        with (name := js "data.bin") (mode := regular (octal [6; 6; 6]%N)).
      * simpl. tauto.
      * reflexivity.
Defined.

(** *** The data directory *)

Lemma hardenDirectoryRecursive_hardens p w :
  hardens p w (snd (hardenDirectoryRecursive p w)).
Proof.
  apply (@hardenDirectoryRec_hardens (S (depth w))).
  apply hardenDirectoryRecursive_run.
Qed.

Lemma hardenDataDirectory_blocks d w :
  isWindows w = false -> existsSync d w = true ->
  hardenDataDirectory d w
  = (let r1 := ensureSecureDirectory d w in
     let r2 := hardenSensitiveFiles (sensitiveFiles d)
                 (if negb (fst r1) then false else true) (snd r1) in
     let r3 := hardenLogs (join d (js "logs")) (fst r2) (snd r2) in
     hardenChroma (join d (js "chroma")) (fst r3) (snd r3)).
Proof.
  intros Hw Hex. unfold hardenDataDirectory. rewrite Hw, Hex. cbn [negb].
  cbv zeta. destruct (ensureSecureDirectory d w) as [ok w1]. cbn [fst snd].
  fold (sensitiveFiles d).
  destruct (hardenSensitiveFiles (sensitiveFiles d)
              (if negb ok then false else true) w1) as [all1 w2].
  cbn [fst snd]. fold (hardenLogs (join d (js "logs")) all1 w2).
  destruct (hardenLogs (join d (js "logs")) all1 w2) as [all2 w3].
  reflexivity.
Qed.

Lemma hardenSensitiveFiles_spec d : forall fs all w,
  (forall f, In f fs -> isPrefix d f = true) ->
  hardens d w (snd (hardenSensitiveFiles fs all w))
  /\ (isWindows w = false ->
      fst (hardenSensitiveFiles fs all w) = true ->
      all = true
      /\ forall f, In f fs -> existsSync f w = true ->
           checkPermissions f (snd (hardenSensitiveFiles fs all w)) = true).
Proof.
  induction fs as [|a fs IH]; intros all w Hd; cbn [hardenSensitiveFiles].
  - split; [apply hardens_refl|]. intros _ H. split; [exact H|]. intros f [].
  - assert (Hd' : forall f, In f fs -> isPrefix d f = true)
      by (intros f Hf; apply Hd; right; exact Hf).
    destruct (existsSync a w) eqn:Hex.
    + pose proof (setSecurePermissions_hardens a w) as H1.
      destruct (setSecurePermissions a w) as [ok w1] eqn:E1. cbn [snd] in H1.
      apply (@hardens_weaken d a _ _ (Hd a (or_introl eq_refl))) in H1.
      destruct (IH (if negb ok then false else all) w1 Hd') as [H2 Hs].
      split; [exact (@hardens_trans _ _ _ _ H1 H2)|].
      intros Hw Hok.
      assert (Hw1 : isWindows w1 = false)
        by (rewrite (@hardens_windows _ _ _ H1); exact Hw).
      destruct (Hs Hw1 Hok) as [Hall Hfs].
      apply all_successful in Hall as [-> ->].
      split; [reflexivity|]. intros f [<-|Hf] Hfex.
      * apply (@hardens_check _ _ _ _ Hw1 H2).
        exact (@setSecurePermissions_closes _ _ _ Hw E1).
      * apply (Hfs f Hf). rewrite (@hardens_exists _ _ _ _ H1). exact Hfex.
    + destruct (IH all w Hd') as [H2 Hs]. split; [exact H2|].
      intros Hw Hok. destruct (Hs Hw Hok) as [Hall Hfs].
      split; [exact Hall|]. intros f [<-|Hf] Hfex; [congruence|].
      exact (Hfs f Hf Hfex).
Qed.

Lemma hardenLogFiles_spec logs : forall names all w,
  hardens logs w (snd (hardenLogFiles logs names all w))
  /\ (isWindows w = false ->
      fst (hardenLogFiles logs names all w) = Ok true ->
      all = true
      /\ forall name mode,
           In name names ->
           modeAt (join logs name) w = Some mode -> isFile mode = true ->
           checkPermissions (join logs name)
             (snd (hardenLogFiles logs names all w)) = true).
Proof.
  induction names as [|a names IH]; intros all w; cbn [hardenLogFiles].
  - split; [apply hardens_refl|]. intros _ H. injection H as ->.
    split; [reflexivity|]. intros name mode [].
  - unfold statSync.
    destruct (modeAt (join logs a) w) as [stats|] eqn:Hm;
      [|split; [apply hardens_refl | discriminate]].
    destruct (isFile stats) eqn:Hf.
    + pose proof (setSecurePermissions_hardens (join logs a) w) as H0.
      destruct (setSecurePermissions (join logs a) w) as [ok w1] eqn:E1.
      cbn [snd] in H0.
      pose proof (@hardens_weaken logs _ _ _ (isPrefix_join logs a) H0) as H1.
      destruct (IH (if negb ok then false else all) w1) as [H2 Hs].
      split; [exact (@hardens_trans _ _ _ _ H1 H2)|].
      intros Hw Hok.
      assert (Hw1 : isWindows w1 = false)
        by (rewrite (@hardens_windows _ _ _ H1); exact Hw).
      destruct (Hs Hw1 Hok) as [Hall Hns].
      apply all_successful in Hall as [-> ->].
      split; [reflexivity|]. intros name mode [<-|Hn] Hmode Hfile.
      * apply (@hardens_check _ _ _ _ Hw1 H2).
        exact (@setSecurePermissions_closes _ _ _ Hw E1).
      * pose proof (hardens_modeAt (join logs name) H1) as Hq.
        rewrite Hmode in Hq. destruct Hq as (mode' & Hm' & Ht & _).
        apply (Hns name mode' Hn Hm').
        unfold isFile in *. rewrite Ht. exact Hfile.
    + destruct (IH all w) as [H2 Hs]. split; [exact H2|].
      intros Hw Hok. destruct (Hs Hw Hok) as [Hall Hns].
      split; [exact Hall|]. intros name mode [<-|Hn] Hmode Hfile.
      * congruence.
      * exact (Hns name mode Hn Hmode Hfile).
Qed.

Lemma hardenLogs_spec logs all w :
  hardens logs w (snd (hardenLogs logs all w))
  /\ (isWindows w = false ->
      fst (hardenLogs logs all w) = true ->
      all = true
      /\ (existsSync logs w = true ->
          checkPermissions logs (snd (hardenLogs logs all w)) = true
          /\ forall name mode,
               modeAt (join logs name) w = Some mode -> isFile mode = true ->
               checkPermissions (join logs name)
                 (snd (hardenLogs logs all w)) = true)).
Proof.
  unfold hardenLogs. destruct (existsSync logs w) eqn:Hex.
  2:{ split; [apply hardens_refl|]. intros _ H. split; [exact H|].
      discriminate. }
  pose proof (@ensureSecureDirectory_hardens logs w Hex) as H1.
  destruct (ensureSecureDirectory logs w) as [ok w1] eqn:E1. cbn [snd] in H1.
  destruct (readdirSync logs w1) as [logFiles|e] eqn:Hread;
    [|split; [exact H1 | discriminate]].
  apply readdirSync_Ok in Hread. subst logFiles.
  destruct (hardenLogFiles_spec logs (map d_name (entriesOf logs (files w1)))
              (if negb ok then false else all) w1) as [H2 Hs].
  destruct (hardenLogFiles logs (map d_name (entriesOf logs (files w1)))
              (if negb ok then false else all) w1) as [[all'|e] w2];
    cbn [fst snd] in *;
    (split; [exact (@hardens_trans _ _ _ _ H1 H2)|]); [|discriminate].
  intros Hw Hok. subst all'.
  assert (Hw1 : isWindows w1 = false)
    by (rewrite (@hardens_windows _ _ _ H1); exact Hw).
  destruct (Hs Hw1 eq_refl) as [Hall Hns].
  apply all_successful in Hall as [-> ->].
  split; [reflexivity|]. intros _. split.
  - apply (@hardens_check _ _ _ _ Hw1 H2).
    exact (@ensureSecureDirectory_closes _ _ _ Hw Hex E1).
  - intros name mode Hmode Hfile.
    pose proof (hardens_modeAt (join logs name) H1) as Hq.
    rewrite Hmode in Hq. destruct Hq as (mode' & Hm' & Ht & _).
    apply (Hns name mode'); [|exact Hm'|].
    + change name with (d_name {| d_name := name; d_mode := mode' |}).
      apply in_map. apply In_entriesOf. apply find_mode_In. exact Hm'.
    + unfold isFile in *. rewrite Ht. exact Hfile.
Qed.

Lemma hardenChroma_spec chroma all w :
  hardens chroma w (snd (hardenChroma chroma all w))
  /\ (isWindows w = false ->
      fst (hardenChroma chroma all w) = true ->
      all = true
      /\ (existsSync chroma w = true ->
          checkPermissions chroma (snd (hardenChroma chroma all w)) = true
          /\ forall q, below w chroma q ->
               checkPermissions q (snd (hardenChroma chroma all w)) = true)).
Proof.
  unfold hardenChroma. destruct (existsSync chroma w) eqn:Hex.
  2:{ split; [apply hardens_refl|]. intros _ H. split; [exact H|].
      discriminate. }
  pose proof (@ensureSecureDirectory_hardens chroma w Hex) as H1.
  destruct (ensureSecureDirectory chroma w) as [ok w1] eqn:E1. cbn [snd] in H1.
  pose proof (hardenDirectoryRecursive_hardens chroma w1) as H2.
  destruct (hardenDirectoryRecursive chroma w1) as [ok2 w2] eqn:E2.
  cbn [fst snd] in *.
  split; [exact (@hardens_trans _ _ _ _ H1 H2)|].
  intros Hw Hok.
  apply all_successful in Hok as [-> Hok].
  apply all_successful in Hok as [-> ->].
  assert (Hw1 : isWindows w1 = false)
    by (rewrite (@hardens_windows _ _ _ H1); exact Hw).
  split; [reflexivity|]. intros _. split.
  - apply (@hardens_check _ _ _ _ Hw1 H2).
    exact (@ensureSecureDirectory_closes _ _ _ Hw Hex E1).
  - intros q Hq.
    apply (@hardenDirectoryRec_covers (S (depth w1)) chroma w1 w2 Hw1).
    + rewrite hardenDirectoryRecursive_run, E2. reflexivity.
    + exact (@hardens_below _ _ _ _ _ H1 Hq).
Qed.

Lemma hardens_onlyModesChange d w w' : hardens d w w' -> onlyModesChange w w'.
Proof.
  intros [Hw HF]. split; [exact Hw|].
  apply Forall2_impl with (R1 := entryHardened d); [|exact HF].
  intros a b (Hf & Ht & Hc & _). split; [exact Hf|]. split; [exact Ht | exact Hc].
Qed.

(** X29.  In a tree without links, [hardenDataDirectory] only changes
    modes: no path appears or
    disappears, every entry keeps its type, and a mode that
    [checkPermissions] accepted is still one it accepts.  Away from
    Windows, when the data directory exists and the function reports
    success, [checkPermissions] accepts the data directory, the database
    and the settings file if they exist, [logs] and every regular file
    directly in it, and [chroma] with everything below it. *)
Theorem hardened_data_directory (d : Path) (w : World) :
  onlyModesChange w (snd (hardenDataDirectory d w))
  /\ (isWindows w = false ->
      existsSync d w = true ->
      fst (hardenDataDirectory d w) = true ->
      checkPermissions d (snd (hardenDataDirectory d w)) = true
      /\ (forall f, In f (sensitiveFiles d) -> existsSync f w = true ->
            checkPermissions f (snd (hardenDataDirectory d w)) = true)
      /\ (existsSync (join d (js "logs")) w = true ->
          checkPermissions (join d (js "logs"))
            (snd (hardenDataDirectory d w)) = true
          /\ forall name mode,
               modeAt (join (join d (js "logs")) name) w = Some mode ->
               isFile mode = true ->
               checkPermissions (join (join d (js "logs")) name)
                 (snd (hardenDataDirectory d w)) = true)
      /\ (existsSync (join d (js "chroma")) w = true ->
          checkPermissions (join d (js "chroma"))
            (snd (hardenDataDirectory d w)) = true
          /\ forall q, below w (join d (js "chroma")) q ->
               checkPermissions q (snd (hardenDataDirectory d w)) = true)).
Proof.
  destruct (isWindows w) eqn:Hw.
  { unfold hardenDataDirectory. rewrite Hw.
    split; [apply (hardens_onlyModesChange (hardens_refl d w)) | discriminate]. }
  destruct (existsSync d w) eqn:Hex.
  2:{ unfold hardenDataDirectory. rewrite Hw, Hex.
      split; [apply (hardens_onlyModesChange (hardens_refl d w)) | discriminate]. }
  rewrite hardenDataDirectory_blocks by assumption. cbv zeta.
  pose proof (@ensureSecureDirectory_hardens d w Hex) as H1.
  destruct (ensureSecureDirectory d w) as [ok w1] eqn:E1. cbn [fst snd] in *.
  assert (Hsens : forall f, In f (sensitiveFiles d) -> isPrefix d f = true).
  { intros f [<-|[<-|[]]]; apply isPrefix_join. }
  destruct (@hardenSensitiveFiles_spec d (sensitiveFiles d)
              (if negb ok then false else true) w1 Hsens) as [H2 Hs2].
  destruct (hardenSensitiveFiles (sensitiveFiles d)
              (if negb ok then false else true) w1) as [all1 w2].
  cbn [fst snd] in *.
  destruct (hardenLogs_spec (join d (js "logs")) all1 w2) as [H3 Hs3].
  destruct (hardenLogs (join d (js "logs")) all1 w2) as [all2 w3].
  cbn [fst snd] in *.
  destruct (hardenChroma_spec (join d (js "chroma")) all2 w3) as [H4 Hs4].
  destruct (hardenChroma (join d (js "chroma")) all2 w3) as [all3 w4].
  cbn [fst snd] in *.
  apply (@hardens_weaken d _ _ _ (isPrefix_join d (js "logs"))) in H3.
  apply (@hardens_weaken d _ _ _ (isPrefix_join d (js "chroma"))) in H4.
  pose proof (@hardens_trans _ _ _ _ H1 H2) as H12.
  pose proof (@hardens_trans _ _ _ _ H12 H3) as H13.
  pose proof (@hardens_trans _ _ _ _ H3 H4) as H24.
  pose proof (@hardens_trans _ _ _ _ H2 H24) as H14.
  split; [exact (hardens_onlyModesChange (@hardens_trans _ _ _ _ H13 H4))|].
  intros _ _ Hok. subst all3.
  assert (Hw1 : isWindows w1 = false)
    by (rewrite (@hardens_windows _ _ _ H1); exact Hw).
  assert (Hw2 : isWindows w2 = false)
    by (rewrite (@hardens_windows _ _ _ H12); exact Hw).
  assert (Hw3 : isWindows w3 = false)
    by (rewrite (@hardens_windows _ _ _ H13); exact Hw).
  destruct (Hs4 Hw3 eq_refl) as [-> Hc4].
  destruct (Hs3 Hw2 eq_refl) as [-> Hc3].
  destruct (Hs2 Hw1 eq_refl) as [Hall Hc2].
  apply all_successful in Hall as [-> _].
  split; [|split; [|split]].
  - apply (@hardens_check _ _ _ _ Hw1 H14).
    exact (@ensureSecureDirectory_closes _ _ _ Hw Hex E1).
  - intros f Hf Hfex. apply (@hardens_check _ _ _ _ Hw2 H24).
    apply (Hc2 f Hf). rewrite (@hardens_exists _ _ _ _ H1). exact Hfex.
  - intros Hlogs.
    assert (Hlogs2 : existsSync (join d (js "logs")) w2 = true)
      by (rewrite (@hardens_exists _ _ _ _ H12); exact Hlogs).
    destruct (Hc3 Hlogs2) as [Hdir Hfiles]. split.
    + exact (@hardens_check _ _ _ _ Hw3 H4 Hdir).
    + intros name mode Hmode Hfile.
      apply (@hardens_check _ _ _ _ Hw3 H4).
      pose proof (hardens_modeAt (join (join d (js "logs")) name) H12) as Hq.
      rewrite Hmode in Hq. destruct Hq as (mode' & Hm' & Ht & _).
      apply (Hfiles name mode' Hm').
      unfold isFile in *. rewrite Ht. exact Hfile.
  - intros Hchroma.
    assert (Hchroma3 : existsSync (join d (js "chroma")) w3 = true)
      by (rewrite (@hardens_exists _ _ _ _ H13); exact Hchroma).
    destruct (Hc4 Hchroma3) as [Hdir Hbelow]. split; [exact Hdir|].
    intros q Hq. apply Hbelow. exact (@hardens_below _ _ _ _ _ H13 Hq).
Qed.

Lemma hardened_data_directory_witness :
  checkPermissions (join dataDir (js "settings.json"))
    (snd (hardenDataDirectory dataDir sample_world)) = true
  /\ checkPermissions (join (join dataDir (js "logs")) (js "worker.log"))
       (snd (hardenDataDirectory dataDir sample_world)) = true.
Proof.
  destruct (proj2 (hardened_data_directory dataDir sample_world))
    as (_ & Hsens & Hlogs & _).
  - reflexivity.
  - reflexivity.
  - vm_compute. reflexivity.
  - split.
    + apply Hsens; [simpl; tauto | reflexivity].
    + apply (proj2 (Hlogs eq_refl)) with (mode := regular (octal [6; 4; 4]%N));
        reflexivity.
Defined.

(* ------------------------------------------------------------------ *)
(** ** Retention settings *)

Import Retention.

Lemma digitsValue_zeros s :
  allZeros s = true -> digitsValue 0 s = 0%Z.
Proof.
  induction s as [|c s IH]; [reflexivity|]. unfold allZeros. cbn [forallb].
  intros H. apply andb_true_iff in H as [Hc Hs]. apply N.eqb_eq in Hc.
  subst c. cbn [digitsValue]. change (RegExp.isDigit (cu "0")) with true.
  cbv iota. exact (IH Hs).
Qed.

Lemma parseInt_zeros s :
  allZeros s = true -> truthyNum (parseInt s) = false.
Proof.
  intros H. destruct s as [|c s]; [reflexivity|].
  pose proof (digitsValue_zeros _ H) as Hd.
  unfold allZeros in H. cbn [forallb] in H.
  apply andb_true_iff in H as [Hc _]. apply N.eqb_eq in Hc. subst c.
  unfold parseInt. change (trimStart (cu "0" :: s)) with (cu "0" :: s).
  cbv beta iota zeta.
  change ((cu "0" =? cu "-")%N) with false.
  change ((cu "0" =? cu "+")%N) with false.
  cbn [orb]. cbv iota. change (RegExp.isDigit (cu "0")) with true. cbv iota.
  rewrite Hd. reflexivity.
Qed.

(** X30.  Whatever the settings hold, the retention period that
    [getRetentionSettings] reports, when it returns, is never 0 and
    never NaN.  A setting whose text is made of zeros only, such as the
    string 0 or the number 0, or is empty, is reported as 90 days. *)
Theorem retention_days_are_never_zero
    (defaultArchivePath : JsString) (settings : SettingsDefaults) :
  (forall r,
     getRetentionSettings defaultArchivePath settings = Ok r ->
     retentionDays r <> Exact 0 /\ retentionDays r <> NotANumber)
  /\ (forall text,
        ToString (CLAUDE_MEM_RETENTION_DAYS settings) = Ok text ->
        allZeros text = true ->
        exists r,
          getRetentionSettings defaultArchivePath settings = Ok r
          /\ retentionDays r = Exact 90).
Proof.
  unfold getRetentionSettings. split.
  - intros r.
    destruct (ToString (CLAUDE_MEM_RETENTION_DAYS settings)) as [text|e];
      [|discriminate].
    cbn [Exc.bind]. intros H. apply Ok_inj in H. subst r. cbn [retentionDays].
    destruct (parseInt text) as [n|neg|]; cbn [truthyNum].
    + destruct (Z.eqb_spec n 0) as [->|Hn]; cbn [negb].
      * split; discriminate.
      * split; [|discriminate]. intros E. injection E as ->. contradiction.
    + split; discriminate.
    + split; discriminate.
  - intros text -> Hz. cbn [Exc.bind]. eexists. split; [reflexivity|].
    cbn [retentionDays]. rewrite (parseInt_zeros _ Hz). reflexivity.
Qed.

Lemma retention_days_are_never_zero_witness :
  (exists r,
     getRetentionSettings (js "archives") (retention_of (Text (js "0")))
     = Ok r /\ retentionDays r = Exact 90)
  /\ (exists r,
        getRetentionSettings (js "archives")
          (retention_of (Other (Some (js "0")) false))
        = Ok r /\ retentionDays r = Exact 90).
Proof.
  split.
  - apply (proj2 (@retention_days_are_never_zero
                    (js "archives") (retention_of (Text (js "0"))))
             (js "0")); reflexivity.
  - apply (proj2 (@retention_days_are_never_zero
                    (js "archives")
                    (retention_of (Other (Some (js "0")) false)))
             (js "0")); reflexivity.
Defined.
